(** * pass-import: entry normalisation, path de-duplication, parsing and
      serialisation, embedded from [pass_import.py].

    Python [str] values are modelled as [string]; a character is a code
    point below 256.  Ordered dictionaries ([OrderedDict], and plain dicts,
    which keep insertion order) are association lists without duplicate
    keys, updated in place.  Code that can raise returns a [result]. *)

From Stdlib Require Import String Ascii List Bool Arith ZArith Lia.
From Stdlib Require Import DecimalString DecimalNat Decimal.
Import ListNotations.
Open Scope string_scope.

(** ** Python string primitives *)

Module PyStr.

(** [s.startswith(p)] *)
Definition startswith (p s : string) : bool := String.prefix p s.

(** [s.endswith(p)], for a one-character [p]. *)
Fixpoint endswith_char (c : ascii) (s : string) : bool :=
match s with
| EmptyString => false
| String x EmptyString => Ascii.eqb x c
| String _ s' => endswith_char c s'
end.

(** Scan of [str.replace] for a non-empty pattern: [skip] counts the
  characters of a match that are still to be dropped. *)
Fixpoint replace_from (old new : string) (skip : nat) (s : string) : string :=
match s with
| EmptyString => EmptyString
| String c s' =>
    match skip with
    | S k => replace_from old new k s'
    | O =>
        if String.prefix old s
        then new ++ replace_from old new (String.length old - 1) s'
        else String c (replace_from old new 0 s')
    end
end.

(** With an empty pattern Python inserts [new] before every character and
  at the end. *)
Fixpoint interleave (new s : string) : string :=
match s with
| EmptyString => EmptyString
| String c s' => String c (new ++ interleave new s')
end.

(** [s.replace(old, new)] *)
Definition replace (old new s : string) : string :=
match old with
| EmptyString => new ++ interleave new s
| String _ _ => replace_from old new 0 s
end.

(** [c.isspace()] on code points below 256: TAB..CR, FS..US, space, NEL
  and the no-break space. *)
Definition isspace (c : ascii) : bool :=
let n := nat_of_ascii c in
(((9 <=? n) && (n <=? 13)) || ((28 <=? n) && (n <=? 32))
 || (n =? 133) || (n =? 160))%nat.

Fixpoint lstrip (s : string) : string :=
match s with
| EmptyString => EmptyString
| String c s' => if isspace c then lstrip s' else s
end.

Fixpoint rstrip (s : string) : string :=
match s with
| EmptyString => EmptyString
| String c s' =>
    match rstrip s' with
    | EmptyString => if isspace c then EmptyString else String c EmptyString
    | r => String c r
    end
end.

(** [s.strip()] *)
Definition strip (s : string) : string := rstrip (lstrip s).

(** [str(n)] for a non-negative integer. *)
Definition str (n : nat) : string := NilEmpty.string_of_uint (Nat.to_uint n).

(** [x in s] for a character. *)
Fixpoint mem_char (c : ascii) (s : string) : bool :=
match s with
| EmptyString => false
| String x s' => Ascii.eqb x c || mem_char c s'
end.

(** Character-wise expansion: the concatenation of [f c] over [s]. *)
Fixpoint concat_map (f : ascii -> string) (s : string) : string :=
match s with
| EmptyString => EmptyString
| String c s' => f c ++ concat_map f s'
end.

(** [os.path.join(a, b)] of [posixpath], two arguments. *)
Definition path_join (a b : string) : string :=
if startswith "/" b then b
else if (String.eqb a "") || endswith_char "/" a then a ++ b
else a ++ "/" ++ b.

End PyStr.

(** ** Exceptions and results *)

Inductive exn : Set :=
| FormatError
| TypeError
| AttributeError
| ReError.

(** Outcome of running a piece of code with a bound on loop iterations. *)
Inductive result (A : Type) : Type :=
| Ok (a : A)
| Raise (e : exn)
| OutOfFuel.

Arguments Ok {A} a.
Arguments Raise {A} e.
Arguments OutOfFuel {A}.

Definition bind {A B : Type} (m : result A) (k : A -> result B) : result B :=
  match m with
  | Ok a => k a
  | Raise e => Raise e
  | OutOfFuel => OutOfFuel
  end.

Notation "x <- m ;; k" := (bind m (fun x => k))
  (at level 61, m at next level, right associativity).

(** ** Values and ordered dictionaries *)

(** The values an entry holds: [None] or a [str]. *)
Inductive value : Set :=
| VNone
| VStr (s : string).

Definition value_eqb (a b : value) : bool :=
  match a, b with
  | VNone, VNone => true
  | VStr x, VStr y => String.eqb x y
  | _, _ => false
  end.

(** Python truthiness: [None] and [''] are false. *)
Definition truthy (v : value) : bool :=
  match v with
  | VNone => false
  | VStr s => negb (String.eqb s "")
  end.

Module Dict.
Section Dict.
Context {V : Type}.

Definition t := list (string * V).

(** [d.get(k)] without default *)
Fixpoint lookup (k : string) (d : t) : option V :=
  match d with
  | [] => None
  | (k', v) :: d' => if String.eqb k' k then Some v else lookup k d'
  end.

(** [d.get(k, dflt)] *)
Definition get (k : string) (dflt : V) (d : t) : V :=
  match lookup k d with Some v => v | None => dflt end.

(** [k in d] *)
Definition mem (k : string) (d : t) : bool :=
  match lookup k d with Some _ => true | None => false end.

(** [del d[k]] when present, nothing otherwise *)
Fixpoint remove (k : string) (d : t) : t :=
  match d with
  | [] => []
  | (k', v) :: d' => if String.eqb k' k then d' else (k', v) :: remove k d'
  end.

(** [d.pop(k, dflt)]: the value and the dictionary left. *)
Definition pop (k : string) (dflt : V) (d : t) : V * t :=
  (get k dflt d, remove k d).

(** [d[k] = v]: in place when the key exists, appended otherwise. *)
Fixpoint set (k : string) (v : V) (d : t) : t :=
  match d with
  | [] => [(k, v)]
  | (k', v') :: d' =>
      if String.eqb k' k then (k', v) :: d' else (k', v') :: set k v d'
  end.

Definition keys (d : t) : list string := map fst d.
Definition values (d : t) : list V := map snd d.
End Dict.
Arguments t : clear implicits.
End Dict.

Definition entry := Dict.t value.

(** ** PasswordManager: tables of [__init__] *)

Definition keyslist : list string :=
  ["title"; "password"; "login"; "url"; "comments"; "group"; "binary"].

Definition cleans : list (string * string) :=
  [(" ", "_"); ("&", "and"); ("@", "At"); ("'", ""); ("[", ""); ("]", "");
   ("/", "-")].

Definition protocols : list string := ["http://"; "https://"].

Definition bslash : string := String (ascii_of_nat 92) EmptyString.
Definition dquote : string := String (ascii_of_nat 34) EmptyString.
Definition nul : string := String (ascii_of_nat 0) EmptyString.

Definition invalids : list string :=
  ["<"; ">"; ":"; dquote; "/"; bslash; "|"; "?"; "*"; nul].

Definition os_sep : string := "/".

(** [dict(zip(ks, [v]*len(ks)))] *)
Definition dict_const (ks : list string) (v : string) : Dict.t string :=
  fold_left (fun d k => Dict.set k v d) ks [].

(** ** Entry normaliser *)

(** [_replaces]: the table is applied key after key, in dictionary order. *)
Definition _replaces (caracters : Dict.t string) (s : string) : string :=
  fold_left (fun acc kv => PyStr.replace (fst kv) (snd kv) acc) caracters s.

Definition _clean_protocol (s : string) : string :=
  _replaces (dict_const protocols "") s.

Definition _clean_group (separator s : string) : string :=
  let caracters := dict_const invalids separator in
  let caracters := Dict.set "/" os_sep caracters in
  let caracters := Dict.set bslash os_sep caracters in
  _replaces caracters s.

Definition _convert (separator s : string) : string :=
  _replaces (dict_const invalids separator) s.

Definition _clean_cmdline (s : string) : string :=
  _replaces cleans (PyStr.strip s).

(** ** Path builder *)

(** An attribute or operation of [str] applied to the value: [None] raises. *)
Definition as_str (e : exn) (v : value) : result string :=
  match v with
  | VStr s => Ok s
  | VNone => Raise e
  end.

(** The value of the first key of [ks] that the entry holds. *)
Fixpoint first_present (ks : list string) (e : entry) : option value :=
  match ks with
  | [] => None
  | k :: ks' =>
      match Dict.lookup k e with
      | Some v => Some v
      | None => first_present ks' e
      end
  end.

(** [_create_path]: returns the path and the entry without its title. *)
Definition _create_path (separator : string) (e : entry) (path : value)
    (clean convert : bool) : result (string * entry) :=
  r <- match first_present ["title"; "login"; "url"] e with
       | Some v =>
           s <- as_str AttributeError v ;;
           let title := _clean_protocol s in
           let title := if clean then _clean_cmdline title else title in
           let title := if convert then _convert separator title else title in
           p <- as_str TypeError path ;;
           Ok (title, VStr (PyStr.path_join p title))
       | None => Ok ("", path)
       end ;;
  p <- (if String.eqb (fst r) ""
        then p <- as_str TypeError (snd r) ;; Ok (PyStr.path_join p "notitle")
        else as_str TypeError (snd r)) ;;
  Ok (p, snd (Dict.pop "title" (VStr "") e)).

(** The keys of [clean]'s list [empty]. *)
Definition empty_keys (e : entry) : list string :=
  map fst (filter (fun kv => negb (truthy (snd kv))) e).

(** The removal loop of [clean]: every key of [empty] is popped. *)
Definition remove_empty (e : entry) : entry :=
  fold_left (fun d k => Dict.remove k d) (empty_keys e) e.

(** Body of the [for entry in self.data] loop of [clean]. *)
Definition clean_entry (separator : string) (clean convert : bool)
    (e : entry) : result entry :=
  let e := remove_empty e in
  let ge := Dict.pop "group" (VStr "") e in
  g <- as_str AttributeError (fst ge) ;;
  let path := _clean_group separator (_clean_protocol g) in
  r <- _create_path separator (snd ge) (VStr path) clean convert ;;
  Ok (Dict.set "path" (VStr (fst r)) (snd r)).

Fixpoint clean_entries (separator : string) (clean convert : bool)
    (data : list entry) : result (list entry) :=
  match data with
  | [] => Ok []
  | e :: rest =>
      e' <- clean_entry separator clean convert e ;;
      rest' <- clean_entries separator clean convert rest ;;
      Ok (e' :: rest')
  end.

(** [path in seen] *)
Definition mem_value (p : value) (seen : list value) : bool :=
  existsb (value_eqb p) seen.

(** [entry.get('path', '')] *)
Definition entry_path (e : entry) : value := Dict.get "path" (VStr "") e.

(** [duplicated[path].append(idx)] on the [defaultdict(list)], which keeps
    its keys in first-insertion order. *)
Fixpoint duplicated_add (path : value) (idx : nat)
    (d : list (value * list nat)) : list (value * list nat) :=
  match d with
  | [] => [(path, [idx])]
  | (p, l) :: d' =>
      if value_eqb p path then (p, (l ++ [idx])%list) :: d'
      else (p, l) :: duplicated_add path idx d'
  end.

Fixpoint duplicated_of (idx : nat) (data : list entry)
    (d : list (value * list nat)) : list (value * list nat) :=
  match data with
  | [] => d
  | e :: rest =>
      duplicated_of (S idx) rest (duplicated_add (entry_path e) idx d)
  end.

(** [self.data[idx] = e] for an index in range. *)
Fixpoint list_set {A : Type} (idx : nat) (a : A) (l : list A) : list A :=
  match l, idx with
  | [], _ => []
  | _ :: l', O => a :: l'
  | x :: l', S i => x :: list_set i a l'
  end.

(** The inner [for idx in duplicated[path]] loop of [_duplicate_paths]. *)
Fixpoint repath_indices (separator : string) (clean convert : bool)
    (path : value) (idxs : list nat) (data : list entry)
    : result (list entry) :=
  match idxs with
  | [] => Ok data
  | idx :: rest =>
      match nth_error data idx with
      | None => Ok data
      | Some e =>
          r <- _create_path separator e path clean convert ;;
          repath_indices separator clean convert path rest
            (list_set idx (Dict.set "path" (VStr (fst r)) (snd r)) data)
      end
  end.

Fixpoint repath_groups (separator : string) (clean convert : bool)
    (groups : list (value * list nat)) (data : list entry)
    : result (list entry) :=
  match groups with
  | [] => Ok data
  | (path, idxs) :: rest =>
      data' <- (if (1 <? List.length idxs)%nat
                then repath_indices separator clean convert path idxs data
                else Ok data) ;;
      repath_groups separator clean convert rest data'
  end.

(** [_duplicate_paths] *)
Definition _duplicate_paths (separator : string) (clean convert : bool)
    (data : list entry) : result (list entry) :=
  repath_groups separator clean convert (duplicated_of 0 data []) data.

(** *** The search [re.search('%s(\d+)$' % separator, path)] *)

Definition isdigit (c : ascii) : bool :=
  let n := nat_of_ascii c in ((48 <=? n) && (n <=? 57))%nat.

Definition newline : ascii := ascii_of_nat 10.

(** [\d*$]: digits up to the end, or up to a final newline. *)
Fixpoint digits_to_end (s : string) : bool :=
  match s with
  | EmptyString => true
  | String c s' =>
      if isdigit c then digits_to_end s'
      else Ascii.eqb c newline && String.eqb s' ""
  end.

(** [\d+$] *)
Definition digits1_to_end (s : string) : bool :=
  match s with
  | EmptyString => false
  | String c s' => isdigit c && digits_to_end s'
  end.

Fixpoint drop (n : nat) (s : string) : string :=
  match n, s with
  | O, _ => s
  | S _, EmptyString => EmptyString
  | S k, String _ s' => drop k s'
  end.

(** The search for a separator that holds no regular-expression
    metacharacter: some occurrence of the separator is followed by one or
    more digits that reach the end of the path. *)
Fixpoint re_search_literal (separator path : string) : bool :=
  (String.prefix separator path
   && digits1_to_end (drop (String.length separator) path))
  || match path with
     | EmptyString => false
     | String _ path' => re_search_literal separator path'
     end.

Section PathBuilder.

(** [re_search separator path] is
    [re.search('%s(\d+)$' % separator, path) is not None]; compiling the
    pattern can raise. *)
Variable re_search : string -> string -> result bool.

(** The [while path in seen] loop of [_duplicate_numerise]; [fuel] bounds
    its iterations. *)
Fixpoint numerise_while (fuel : nat) (separator : string)
    (seen : list value) (path : value) (ii : nat) : result value :=
  if mem_value path seen then
    match fuel with
    | O => OutOfFuel
    | S fuel' =>
        p <- as_str TypeError path ;;
        m <- re_search separator p ;;
        if negb m
        then numerise_while fuel' separator seen
               (VStr (p ++ separator ++ PyStr.str ii)) ii
        else numerise_while fuel' separator seen
               (VStr (PyStr.replace (separator ++ PyStr.str ii)
                        (separator ++ PyStr.str (ii + 1)) p))
               (ii + 1)
    end
  else Ok path.

(** The [for entry in self.data] loop of [_duplicate_numerise]. *)
Fixpoint numerise_for (fuel : nat) (separator : string)
    (seen : list value) (data : list entry) : result (list entry) :=
  match data with
  | [] => Ok []
  | e :: rest =>
      let path := entry_path e in
      if mem_value path seen then
        p <- numerise_while fuel separator seen path 1 ;;
        rest' <- numerise_for fuel separator (seen ++ [p])%list rest ;;
        Ok (Dict.set "path" p e :: rest')
      else
        rest' <- numerise_for fuel separator (seen ++ [path])%list rest ;;
        Ok (e :: rest')
  end.

Definition _duplicate_numerise (fuel : nat) (separator : string)
    (data : list entry) : result (list entry) :=
  numerise_for fuel separator [] data.

(** [clean]: the batch after the three passes. *)
Definition clean (fuel : nat) (separator : string) (clean convert : bool)
    (data : list entry) : result (list entry) :=
  data1 <- clean_entries separator clean convert data ;;
  data2 <- _duplicate_paths separator clean convert data1 ;;
  _duplicate_numerise fuel separator data2.

End PathBuilder.

(** The search of a manager whose separator is a literal. *)
Definition re_literal (separator path : string) : result bool :=
  Ok (re_search_literal separator path).

(** ** Serialisation: [PasswordManager.get] *)

Definition nl : string := String newline EmptyString.

(** [%s] formatting of a value. *)
Definition str_of_value (v : value) : string :=
  match v with
  | VNone => "None"
  | VStr s => s
  end.

(** One iteration of the loop of [get]. *)
Definition get_line (acc : string) (kv : string * value) : string :=
  if String.eqb (fst kv) "path" then acc
  else acc ++ fst kv ++ ": " ++ str_of_value (snd kv) ++ nl.

(** [get]: the content handed to the store, and the entry as the call
    leaves it (its password popped). *)
Definition get (e : entry) : result (string * entry) :=
  let pe := Dict.pop "password" (VStr "") e in
  p <- as_str TypeError (fst pe) ;;
  Ok (fold_left get_line (snd pe) (p ++ nl), snd pe).

(** ** CSV managers *)

Module PasswordManagerCSV.

(** A manager class: its [keys] table, its [fieldnames] override and the
    [extra] flag kept in [self.all]. *)
Record manager : Type := {
  keys : Dict.t string;
  fieldnames : option (list string);
  all : bool
}.

(** [reader.fieldnames] of [csv.DictReader]: the override, or the first
    row of the file; [None] for an empty file.  The file is the list of
    rows that [csv.reader] yields. *)
Definition reader_fieldnames (override : option (list string))
    (file : list (list string)) : option (list string) :=
  match override with
  | Some f => Some f
  | None => match file with [] => None | h :: _ => Some h end
  end.

(** The row dictionary of [DictReader]: header and cells zipped, missing
    cells filled with [None].  Cells beyond the header, which
    [DictReader] keeps as a list under the key [None], are left out. *)
Fixpoint zip_row (fs : list string) (row : list string)
    (d : Dict.t value) : Dict.t value :=
  match fs, row with
  | [], _ => d
  | f :: fs', [] => zip_row fs' [] (Dict.set f VNone d)
  | f :: fs', c :: row' => zip_row fs' row' (Dict.set f (VStr c) d)
  end.

(** The rows [DictReader] iterates over: blank rows are skipped. *)
Definition reader_rows (override : option (list string))
    (file : list (list string)) : list (Dict.t value) :=
  match reader_fieldnames override file with
  | None => []
  | Some fs =>
      let body := match override with Some _ => file | None => tl file end in
      map (fun row => zip_row fs row [])
          (filter (fun row => negb (Nat.eqb (List.length row) 0)) body)
  end.

(** [csvkey not in fieldnames], which raises on [None]. *)
Fixpoint check_values (csvkeys : list string)
    (fieldnames : option (list string)) : result unit :=
  match csvkeys with
  | [] => Ok tt
  | csvkey :: rest =>
      match fieldnames with
      | None => Raise TypeError
      | Some fs =>
          if existsb (String.eqb csvkey) fs
          then check_values rest fieldnames
          else Raise FormatError
      end
  end.

Definition _checkformat (m : manager)
    (fieldnames : option (list string)) : result unit :=
  check_values (Dict.values (keys m)) fieldnames.

(** The loop over [keyslist]: each canonical key takes the cell of its
    native column, popped from the row. *)
Definition take_key (st : entry * Dict.t value) (m : manager)
    (key : string) : entry * Dict.t value :=
  let vr := Dict.pop (Dict.get key "" (keys m)) VNone (snd st) in
  (Dict.set key (fst vr) (fst st), snd vr).

Definition parse_row (m : manager) (row : Dict.t value) : entry :=
  let st := fold_left (fun st key => take_key st m key) keyslist ([], row) in
  if all m
  then fold_left
         (fun en col => Dict.set col (Dict.get col VNone (snd st)) en)
         (Dict.keys (snd st)) (fst st)
  else fst st.

(** [parse]: the outcome and [self.data] after the call. *)
Definition parse (m : manager) (file : list (list string))
    (data : list entry) : result unit * list entry :=
  match _checkformat m (reader_fieldnames (fieldnames m) file) with
  | Ok _ =>
      (Ok tt,
       (data ++ map (parse_row m) (reader_rows (fieldnames m) file))%list)
  | Raise e => (Raise e, data)
  | OutOfFuel => (OutOfFuel, data)
  end.

(** The [OnePassword] class. *)
Definition OnePassword (extra : bool) : manager :=
  {| keys := [("title", "Title"); ("password", "Password");
              ("login", "Username"); ("url", "URL"); ("comments", "Notes");
              ("group", "Type")];
     fieldnames := None;
     all := extra |}.

(** The [PasswordExporter] class. *)
Definition PasswordExporter (extra : bool) : manager :=
  {| keys := [("title", "hostname"); ("password", "password");
              ("login", "username")];
     fieldnames := None;
     all := extra |}.

End PasswordManagerCSV.

(** ** 1PIF manager *)

Module PasswordManagerPIF.

(** Values of the decoded JSON fragments; [JNull] is Python's [None]. *)
#[warnings="-register-all"]
Inductive json : Type :=
| JNull
| JBool (b : bool)
| JNum (z : Z)
| JStr (s : string)
| JArr (l : list json)
| JObj (o : list (string * json)).

Definition is_none (j : json) : bool :=
  match j with JNull => true | _ => false end.

(** [field.get('name', '') == jsonkey] for a field object. *)
Definition name_is (jsonkey : string) (field : json) : result bool :=
  match field with
  | JObj o =>
      Ok (match Dict.get "name" (JStr "") o with
          | JStr s => String.eqb s jsonkey
          | _ => false
          end)
  | _ => Raise AttributeError
  end.

(** [field.get('value', None)] *)
Definition field_value (field : json) : json :=
  match field with
  | JObj o => Dict.get "value" JNull o
  | _ => JNull
  end.

(** The [for field in fields] loop of [_getvalue]: the value of the
    first field named [jsonkey] and the list without that field.  (An
    earlier element equal to the matching field would have matched
    itself, so [fields.index(field)] is the position reached.) *)
Fixpoint scan_fields (jsonkey : string) (fields : list json)
    : result (json * list json) :=
  match fields with
  | [] => Ok (JNull, [])
  | field :: rest =>
      b <- name_is jsonkey field ;;
      if b then Ok (field_value field, rest)
      else r <- scan_fields jsonkey rest ;; Ok (fst r, field :: snd r)
  end.

(** State that [_getvalue] reads and mutates. *)
Record sources : Type := {
  item : Dict.t json;
  scontent : Dict.t json;
  fields : list json
}.

Definition _getvalue (jsonkey : string) (src : sources)
    : result (json * sources) :=
  let vi := Dict.pop jsonkey JNull (item src) in
  let vs := Dict.pop jsonkey (fst vi) (scontent src) in
  if is_none (fst vs) then
    r <- scan_fields jsonkey (fields src) ;;
    Ok (fst r, {| item := snd vi; scontent := snd vs; fields := snd r |})
  else
    Ok (fst vs,
        {| item := snd vi; scontent := snd vs; fields := fields src |}).

(** The loop over [keyslist] of [parse], for one entry record. *)
Fixpoint getvalues (keys : Dict.t string) (ks : list string)
    (en : Dict.t json) (src : sources) : result (Dict.t json * sources) :=
  match ks with
  | [] => Ok (en, src)
  | key :: rest =>
      r <- _getvalue (Dict.get key "" keys) src ;;
      getvalues keys rest (Dict.set key (fst r) en) (snd r)
  end.

(** The [OnePassword4PIF] table. *)
Definition OnePassword4PIF_keys : Dict.t string :=
  [("title", "title"); ("password", "password"); ("login", "username");
   ("url", "location"); ("comments", "notesPlain");
   ("group", "folderUuid")].

End PasswordManagerPIF.

(** ** Definitions that follow the specification's wording *)

(** The transliteration table as the specification lists it. *)
Definition spec_cleans : list (string * string) :=
  [(" ", "_"); ("&", "and"); ("@", "At"); ("'", ""); ("[", ""); ("]", "")].

(** Trim, then the listed substitutions, one after the other. *)
Definition clean_spec (s : string) : string :=
  _replaces spec_cleans (PyStr.strip s).

(** What [_clean_cmdline] does to one character. *)
Definition clean_char (c : ascii) : string :=
  if Ascii.eqb c " " then "_"
  else if Ascii.eqb c "&" then "and"
  else if Ascii.eqb c "@" then "At"
  else if Ascii.eqb c "'" then ""
  else if Ascii.eqb c "[" then ""
  else if Ascii.eqb c "]" then ""
  else if Ascii.eqb c "/" then "-"
  else String c EmptyString.

(** The lines of a text, split at every newline. *)
Fixpoint lines (s : string) : list string :=
  match s with
  | EmptyString => [EmptyString]
  | String c s' =>
      if Ascii.eqb c newline then EmptyString :: lines s'
      else match lines s' with
           | l :: ls => String c l :: ls
           | [] => [String c EmptyString]
           end
  end.

(** A line split at its first [": "]. *)
Fixpoint split_colon (line : string) : option (string * string) :=
  match line with
  | EmptyString => None
  | String c s' =>
      if String.prefix ": " line then Some (EmptyString, drop 2 line)
      else match split_colon s' with
           | Some (k, v) => Some (String c k, v)
           | None => None
           end
  end.

(** Reading back: the password is the first line. *)
Definition decoded_password (s : string) : string := hd EmptyString (lines s).

Fixpoint find_field (key : string) (ls : list string) : option string :=
  match ls with
  | [] => None
  | l :: ls' =>
      match split_colon l with
      | Some (k, v) => if String.eqb k key then Some v else find_field key ls'
      | None => find_field key ls'
      end
  end.

(** Reading back: a field is the value of the first later line with its
    key. *)
Definition decoded_field (key s : string) : option string :=
  find_field key (tl (lines s)).

(** Conditions of the string lemmas, as decidable tests. *)

(** No character of [s] is white space, a plain space apart. *)
Fixpoint plain_spaces_only (s : string) : bool :=
  match s with
  | EmptyString => true
  | String c s' =>
      (negb (PyStr.isspace c) || Ascii.eqb c " ") && plain_spaces_only s'
  end.

(** No character of [s] is in the invalid set. *)
Fixpoint no_invalid (s : string) : bool :=
  match s with
  | EmptyString => true
  | String c s' =>
      negb (existsb (String.eqb (String c EmptyString)) invalids)
      && no_invalid s'
  end.

Definition has_newline (s : string) : bool := PyStr.mem_char newline s.

(** [": "] occurs in [s]. *)
Fixpoint has_colon_space (s : string) : bool :=
  match s with
  | EmptyString => false
  | String _ s' => String.prefix ": " s || has_colon_space s'
  end.

(** Every key and every formatted value of the entry is one line, and no
    key holds [": "]. *)
Definition line_safe (e : entry) : bool :=
  forallb (fun kv => negb (has_newline (fst kv))
                     && negb (has_colon_space (fst kv))
                     && negb (has_newline (str_of_value (snd kv)))) e.

(** The fields [get] writes before the line of [key]: the items that
    precede [key] in the entry, [path] apart. *)
Fixpoint written_before (key : string) (e : entry) : entry :=
  match e with
  | [] => []
  | (k, v) :: e' =>
      if String.eqb k key then []
      else if String.eqb k "path" then written_before key e'
      else (k, v) :: written_before key e'
  end.

(** What replacing the one-character pattern [c] does to the character
    [x]. *)
Definition subst1 (c : ascii) (new : string) (x : ascii) : string :=
  if Ascii.eqb x c then new else String x EmptyString.

(** Every key of the table is a single character. *)
Definition single_keys (T : Dict.t string) : bool :=
  forallb (fun kv => Nat.eqb (String.length (fst kv)) 1) T.

(** Inputs used in the examples below. *)

Definition tab : ascii := ascii_of_nat 9.

(** An apostrophe, a tab and a letter. *)
Definition quote_tab_a : string := String "'" (String tab "a").

(** Statements and example inputs. *)

(** The entry holds the key [path]. *)
Definition has_path (e : entry) : Prop := Dict.mem "path" e = true.

(** An entry with a title, a password and nothing else. *)
Definition titled (title password : string) : entry :=
  [("title", VStr title); ("password", VStr password)].

(** An entry with a title and a login. *)
Definition with_login (title login : string) : entry :=
  [("title", VStr title); ("password", VStr "pw"); ("login", VStr login)].

(** The paths of a batch, when the run completed. *)
Definition paths_of (r : result (list entry)) : result (list value) :=
  data <- r ;; Ok (map entry_path data).

(** The line of one field. *)
Definition field_line (kv : string * value) : string :=
  fst kv ++ ": " ++ str_of_value (snd kv) ++ nl.

Definition join_lines (ls : list string) : string :=
  fold_right append EmptyString ls.

Definition not_path (kv : string * value) : bool :=
  negb (String.eqb (fst kv) "path").

(** The text of a call to [get], without the entry it leaves. *)
Definition content (r : result (string * entry)) : result string :=
  x <- r ;; Ok (fst x).

Import PasswordManagerPIF.

(** What the scan of the field objects does: the first field named
    [jsonkey] gives the value and leaves the list, or no field has that
    name and the list is unchanged. *)
Definition fields_outcome (jsonkey : string) (fs : list json) (v : json)
    (fs' : list json) : Prop :=
  (exists pre f post,
      fs = (pre ++ f :: post)%list
      /\ Forall (fun g => name_is jsonkey g = Ok false) pre
      /\ name_is jsonkey f = Ok true
      /\ v = field_value f
      /\ fs' = (pre ++ post)%list)
  \/ (Forall (fun g => name_is jsonkey g = Ok false) fs
      /\ v = JNull /\ fs' = fs).

(** The record used in the examples: the title is present at top level and
    in the secure contents. *)
Definition two_titles : sources :=
  {| item := [("title", JStr "top"); ("uuid", JStr "u")];
     scontent := [("title", JStr "inner"); ("password", JStr "pw")];
     fields := [JObj [("name", JStr "username"); ("value", JStr "me")]] |}.

(** ** Statements about the normaliser and the path builder *)

(** The character is one of [invalids]. *)
Definition is_invalid (c : ascii) : bool :=
  existsb (String.eqb (String c EmptyString)) invalids.

(** What [_convert] does to one character. *)
Definition convert_char (separator : string) (c : ascii) : string :=
  if is_invalid c then separator else String c EmptyString.

(** What [_clean_group] does to one character. *)
Definition group_char (separator : string) (c : ascii) : string :=
  if Ascii.eqb c "/" || String.eqb (String c EmptyString) bslash then os_sep
  else if is_invalid c then separator
  else String c EmptyString.

(** Every replacement of the table is left alone by the rest of the
    table. *)
Fixpoint fixed_tail (T : Dict.t string) : Prop :=
  match T with
  | [] => True
  | (_, v) :: T' => _replaces T' v = v /\ fixed_tail T'
  end.

(** The separator holds no invalid character, ['/'] apart. *)
Fixpoint no_invalid_but_slash (s : string) : bool :=
  match s with
  | EmptyString => true
  | String c s' =>
      (Ascii.eqb c "/" || negb (is_invalid c)) && no_invalid_but_slash s'
  end.

(** The leaf [_create_path] derives from a value. *)
Definition leaf_of (separator : string) (clean convert : bool)
    (s : string) : string :=
  let title := _clean_protocol s in
  let title := if clean then _clean_cmdline title else title in
  if convert then _convert separator title else title.

(** The path [_create_path] builds from a folder and a leaf. *)
Definition leaf_path (path title : string) : string :=
  if String.eqb title ""
  then PyStr.path_join (PyStr.path_join path title) "notitle"
  else PyStr.path_join path title.

(** A leaf one level below the folder: the folder, a slash unless the
    folder is empty or ends in one, and the leaf. *)
Definition one_level (path leaf : string) : string :=
  if String.eqb path "" || PyStr.endswith_char "/" path
  then path ++ leaf
  else path ++ "/" ++ leaf.

(** Where [os.path.join] puts the leaf [leaf] for the folder [path], [q]
    being the path it gives: the leaf alone when it starts with a slash,
    and the leaf under the folder otherwise. *)
Definition placed (path leaf q : string) : Prop :=
  (PyStr.startswith "/" leaf = true -> q = leaf)
  /\ (PyStr.startswith "/" leaf = false -> leaf <> "" ->
      q = one_level path leaf).

(** The characters [cleans] replaces. *)
Definition cleaned_chars : list ascii :=
  [" "; "&"; "@"; "'"; "["; "]"; "/"]%char.

(** Every character of the text is a decimal digit. *)
Fixpoint all_digits (s : string) : bool :=
  match s with
  | EmptyString => true
  | String c s' => isdigit c && all_digits s'
  end.

(** What the numeric-suffix pass may do to an entry: nothing, or assign
    its [path]. *)
Definition renamed (e e' : entry) : Prop :=
  e' = e \/ exists p : value, e' = Dict.set "path" p e.

(** An entry as [clean] leaves it: no title, no group, a path, and no
    empty value under any key. *)
Definition tidy (e : entry) : Prop :=
  Dict.lookup "title" e = None
  /\ Dict.lookup "group" e = None
  /\ Forall (fun kv => truthy (snd kv) = true) e
  /\ NoDup (Dict.keys e)
  /\ has_path e.

(** A row of [csv.reader] that holds at least one cell. *)
Definition nonblank (row : list string) : bool :=
  negb (Nat.eqb (List.length row) 0).

(** The rows after the header, or every row when the class gives the
    field names. *)
Definition csv_body (m : PasswordManagerCSV.manager)
    (file : list (list string)) : list (list string) :=
  match PasswordManagerCSV.fieldnames m with
  | Some _ => file
  | None => tl file
  end.

(** The native column of a canonical key: [self.keys.get(key, '')]. *)
Definition native (m : PasswordManagerCSV.manager) (key : string) : string :=
  Dict.get key "" (PasswordManagerCSV.keys m).

(** ** The Enpass manager *)

Module Enpass.

(** The class table. *)
Definition keys : Dict.t string :=
  [("title", "Title"); ("password", "Password"); ("login", "Username");
   ("url", "URL"); ("comments", "notes"); ("group", "group")].

(** [row.index(x)] when [x in row]. *)
Fixpoint list_index (x : string) (row : list string) : option nat :=
  match row with
  | [] => None
  | y :: row' =>
      if String.eqb y x then Some 0
      else match list_index x row' with
           | Some i => Some (S i)
           | None => None
           end
  end.

(** [row.pop(i)]: the cell and the row left; [None] is [IndexError]. *)
Fixpoint list_pop (i : nat) (row : list string)
    : option (string * list string) :=
  match row, i with
  | [], _ => None
  | x :: row', O => Some (x, row')
  | x :: row', S j =>
      match list_pop j row' with
      | Some (y, r) => Some (y, x :: r)
      | None => None
      end
  end.

(** [row.pop()] *)
Definition pop_last (row : list string) : option (string * list string) :=
  match row with
  | [] => None
  | _ :: _ => list_pop (List.length row - 1) row
  end.

(** One iteration of the loop over [keyslist]. *)
Definition take (st : entry * list string) (key : string)
    : option (entry * list string) :=
  let csvkey := Dict.get key "" keys in
  match list_index csvkey (snd st) with
  | None => Some st
  | Some index =>
      match list_pop (index + 1) (snd st) with
      | None => None
      | Some (v, row1) =>
          match list_pop index row1 with
          | None => None
          | Some (_, row2) => Some (Dict.set key (VStr v) (fst st), row2)
          end
      end
  end.

Fixpoint take_all (ks : list string) (st : entry * list string)
    : option (entry * list string) :=
  match ks with
  | [] => Some st
  | key :: ks' =>
      match take st key with
      | Some st' => take_all ks' st'
      | None => None
      end
  end.

(** The [while index+2 <= len(row)] loop of the extra fields. *)
Fixpoint pairs (row : list string) (en : entry) : entry :=
  match row with
  | k :: v :: rest => pairs rest (Dict.set k (VStr v) en)
  | _ => en
  end.

(** The body of the loop over the rows; [None] is [IndexError]. *)
Definition parse_row (all : bool) (row : list string) : option entry :=
  match list_pop 0 row with
  | None => None
  | Some (title, row1) =>
      match pop_last row1 with
      | None => None
      | Some (comments, row2) =>
          match take_all keyslist ([("title", VStr title)], row2) with
          | None => None
          | Some (en, row3) =>
              let en := Dict.set "comments" (VStr comments) en in
              Some (if all then pairs row3 en else en)
          end
      end
  end.

(** How a call of [parse] ends. *)
Inductive status : Set :=
| Parsed
| RaisedFormatError
| RaisedIndexError.

Fixpoint parse_rows (all : bool) (rows : list (list string))
    (data : list entry) : status * list entry :=
  match rows with
  | [] => (Parsed, data)
  | row :: rest =>
      match parse_row all row with
      | None => (RaisedIndexError, data)
      | Some en => parse_rows all rest (data ++ [en])%list
      end
  end.

(** [parse]: [format] is the class's first line, [line] what
    [file.readline()] returns (empty at the end of the file) and [rows]
    what [csv.reader] yields from the rest. *)
Definition parse (format : string) (all : bool) (line : string)
    (rows : list (list string)) (data : list entry) : status * list entry :=
  if PyStr.startswith format line then parse_rows all rows data
  else (RaisedFormatError, data).

End Enpass.

(** ** The Gorilla manager: the two substitutions on a group *)

Module Gorilla.

(** [re.sub('(?<=[^\\\])\.', os.sep, s)]: the pattern is a dot preceded by
    a character that is not a backslash; [prev] is the character before
    the current one. *)
Fixpoint slash_dots (prev : option ascii) (s : string) : string :=
  match s with
  | EmptyString => EmptyString
  | String c s' =>
      let hit :=
        Ascii.eqb c "."
        && match prev with
           | Some p => negb (String.eqb (String p EmptyString) bslash)
           | None => false
           end in
      (if hit then os_sep else String c EmptyString)
      ++ slash_dots (Some c) s'
  end.

(** [re.sub('\\\.', '.', s)]: the pattern is a backslash followed by any
    character other than a newline. *)
Fixpoint unescape (s : string) : string :=
  match s with
  | EmptyString => EmptyString
  | String c t =>
      match t with
      | EmptyString => String c EmptyString
      | String d s' =>
          if String.eqb (String c EmptyString) bslash
             && negb (Ascii.eqb d newline)
          then String "." (unescape s')
          else String c (unescape t)
      end
  end.

(** The group the loop of [parse] assigns. *)
Definition group (s : string) : string := unescape (slash_dots None s).

(** A dot becomes the path separator. *)
Definition dot_char (c : ascii) : string :=
  if Ascii.eqb c "." then os_sep else String c EmptyString.

End Gorilla.

(** ** XML managers: elements and the KeePass lookup *)

Module PasswordManagerXML.

(** An element of the tree: its tag, its text ([None] when it has none),
    its attributes and its children in document order. *)
#[warnings="-register-all"]
Inductive element : Type :=
| Element (tag : string) (text : option string) (attrib : Dict.t string)
    (children : list element).

Definition tag (el : element) : string :=
  match el with Element t _ _ _ => t end.

Definition text (el : element) : option string :=
  match el with Element _ x _ _ => x end.

Definition children (el : element) : list element :=
  match el with Element _ _ _ cs => cs end.

(** [el.findall(name)], for a plain tag name: the children with that
    tag. *)
Definition findall (name : string) (el : element) : list element :=
  filter (fun c => String.eqb (tag c) name) (children el).

(** [el.find(name)]: the first of them. *)
Definition find (name : string) (el : element) : option element :=
  hd_error (findall name el).

(** The text of an element as an entry value. *)
Definition text_value (el : element) : value :=
  match text el with
  | Some s => VStr s
  | None => VNone
  end.

(** [PasswordManagerXML._getvalue]: the text of the first child with the
    tag, the empty string when there is none. *)
Definition _getvalue (el : element) (xmlkey : string) : value :=
  match find xmlkey el with
  | None => VStr ""
  | Some v => text_value v
  end.

(** The inner loop of [Keepass._getvalue] finds a [Key] child whose text is
    the key. *)
Definition has_key (xmlkey : string) (el : element) : bool :=
  existsb (fun child =>
             match text child with
             | Some s => String.eqb s xmlkey
             | None => false
             end)
          (findall "Key" el).

(** The outer loop of [Keepass._getvalue], from the current [value]. *)
Fixpoint keepass_scan (xmlkey : string) (v : value) (els : list element)
    : result value :=
  match els with
  | [] => Ok v
  | el :: rest =>
      if has_key xmlkey el then
        match find "Value" el with
        | None => Raise AttributeError
        | Some x => keepass_scan xmlkey (text_value x) rest
        end
      else keepass_scan xmlkey v rest
  end.

(** [Keepass._getvalue] *)
Definition keepass_getvalue (elements : list element) (xmlkey : string)
    : result value :=
  keepass_scan xmlkey (VStr "") elements.

End PasswordManagerXML.

(** ** 1PIF folders *)

Module Folders.

(** A folder record of [parse]: its [group] and its [parent]; both are
    taken to be strings, as the export writes titles and identifiers. *)
Record folder : Set := { group : string; parent : string }.

(** [folders.get(parent, {}).get('group', '')] *)
Definition group_of (folders : Dict.t folder) (uuid : string) : string :=
  match Dict.lookup uuid folders with
  | Some f => group f
  | None => ""
  end.

(** The body of the first loop of [_sortgroup], for the folder stored
    under [uuid]. *)
Definition sort_step (folders : Dict.t folder) (uuid : string)
    : Dict.t folder :=
  match Dict.lookup uuid folders with
  | None => folders
  | Some f =>
      Dict.set uuid
        {| group := PyStr.path_join (group_of folders (parent f)) (group f);
           parent := parent f |}
        folders
  end.

(** The first loop of [_sortgroup]: the folders are updated in place, in
    the order of the dictionary. *)
Definition sort_folders (folders : Dict.t folder) : Dict.t folder :=
  fold_left sort_step (Dict.keys folders) folders.

End Folders.

(** The group of an entry as the first loop of [clean] reads it: the empty
    string when the key is absent or holds an empty value. *)
Definition group_str (e : entry) : string :=
  match Dict.lookup "group" e with
  | Some (VStr g) => g
  | _ => ""
  end.

(** * Properties *)

(** ** Strings *)

Section StringFacts.

Lemma append_nil_r (s : string) : s ++ "" = s.
Proof. induction s as [|c s IH]; simpl; [reflexivity | now rewrite IH]. Qed.

Lemma append_assoc (a b c : string) : (a ++ b) ++ c = a ++ (b ++ c).
Proof. induction a as [|x a IH]; simpl; [reflexivity | now rewrite IH]. Qed.

Lemma mem_char_app (c : ascii) (a b : string) :
  PyStr.mem_char c (a ++ b) = PyStr.mem_char c a || PyStr.mem_char c b.
Proof.
  induction a as [|x a IH]; simpl; [reflexivity|].
  now rewrite IH, orb_assoc.
Qed.

Lemma concat_map_app (f : ascii -> string) (a b : string) :
  PyStr.concat_map f (a ++ b) = PyStr.concat_map f a ++ PyStr.concat_map f b.
Proof.
  induction a as [|x a IH]; simpl; [reflexivity|].
  now rewrite IH, append_assoc.
Qed.

Lemma concat_map_ext (f g : ascii -> string) (s : string) :
  (forall c, f c = g c) -> PyStr.concat_map f s = PyStr.concat_map g s.
Proof.
  intros E. induction s as [|x s IH]; simpl; [reflexivity|].
  now rewrite E, IH.
Qed.

Lemma concat_map_concat_map (f g : ascii -> string) (s : string) :
  PyStr.concat_map g (PyStr.concat_map f s)
  = PyStr.concat_map (fun c => PyStr.concat_map g (f c)) s.
Proof.
  induction s as [|x s IH]; simpl; [reflexivity|].
  now rewrite concat_map_app, IH.
Qed.

(** Replacing a one-character pattern is a character-wise expansion. *)
Lemma replace_char (c : ascii) (new s : string) :
  PyStr.replace (String c EmptyString) new s
  = PyStr.concat_map (subst1 c new) s.
Proof.
  unfold PyStr.replace.
  induction s as [|x s IH]; [reflexivity|].
  cbn [PyStr.replace_from PyStr.concat_map String.prefix String.length Nat.sub].
  unfold subst1 at 1.
  destruct (ascii_dec c x) as [->|N].
  - rewrite Ascii.eqb_refl.
    replace (String.prefix "" s) with true by (now destruct s).
    now rewrite IH.
  - assert (Ascii.eqb x c = false) as ->
      by (apply Ascii.eqb_neq; congruence).
    simpl. now rewrite IH.
Qed.

Lemma replace_char_absent (c : ascii) (new s : string) :
  PyStr.mem_char c s = false ->
  PyStr.replace (String c EmptyString) new s = s.
Proof.
  rewrite replace_char.
  induction s as [|x s IH]; cbn [PyStr.concat_map PyStr.mem_char];
    [reflexivity|].
  intros H. apply orb_false_iff in H as [H1 H2].
  unfold subst1 at 1. rewrite H1. simpl. now rewrite IH.
Qed.

Lemma replace_char_removes (c : ascii) (new s : string) :
  PyStr.mem_char c new = false ->
  PyStr.mem_char c (PyStr.replace (String c EmptyString) new s) = false.
Proof.
  intros Hn. rewrite replace_char.
  induction s as [|x s IH]; cbn [PyStr.concat_map]; [reflexivity|].
  rewrite mem_char_app, IH, orb_false_r.
  unfold subst1 at 1. destruct (Ascii.eqb x c) eqn:E; [assumption|].
  simpl. now rewrite E.
Qed.

Lemma replace_char_keeps_absent (d c : ascii) (new s : string) :
  PyStr.mem_char d new = false ->
  PyStr.mem_char d s = false ->
  PyStr.mem_char d (PyStr.replace (String c EmptyString) new s) = false.
Proof.
  intros Hn. rewrite replace_char.
  induction s as [|x s IH]; cbn [PyStr.concat_map PyStr.mem_char];
    [reflexivity|].
  intros H. apply orb_false_iff in H as [H1 H2].
  rewrite mem_char_app, IH, orb_false_r by assumption.
  unfold subst1 at 1. destruct (Ascii.eqb x c); [assumption|].
  simpl. now rewrite H1.
Qed.

Lemma mem_char_lstrip (d : ascii) (s : string) :
  PyStr.mem_char d s = false -> PyStr.mem_char d (PyStr.lstrip s) = false.
Proof.
  induction s as [|x s IH]; simpl; [reflexivity|].
  intros H. destruct (PyStr.isspace x); [|exact H].
  apply orb_false_iff in H as [_ H2]. now apply IH.
Qed.

Lemma mem_char_rstrip (d : ascii) (s : string) :
  PyStr.mem_char d s = false -> PyStr.mem_char d (PyStr.rstrip s) = false.
Proof.
  induction s as [|x s IH]; simpl; [reflexivity|].
  intros H. apply orb_false_iff in H as [H1 H2].
  specialize (IH H2).
  destruct (PyStr.rstrip s) as [|y r].
  - destruct (PyStr.isspace x); simpl; [reflexivity|now rewrite H1].
  - simpl in *. now rewrite H1, IH.
Qed.

Lemma mem_char_strip (d : ascii) (s : string) :
  PyStr.mem_char d s = false -> PyStr.mem_char d (PyStr.strip s) = false.
Proof.
  intros H. unfold PyStr.strip. now apply mem_char_rstrip, mem_char_lstrip.
Qed.

(** A string without white space is left alone by [strip]. *)
Lemma strip_no_space (s : string) :
  (forall d, PyStr.isspace d = true -> PyStr.mem_char d s = false) ->
  PyStr.strip s = s.
Proof.
  intros H. unfold PyStr.strip.
  assert (L : PyStr.lstrip s = s).
  { destruct s as [|x s]; simpl; [reflexivity|].
    destruct (PyStr.isspace x) eqn:E; [|reflexivity].
    specialize (H x E). simpl in H. now rewrite Ascii.eqb_refl in H. }
  rewrite L. clear L.
  induction s as [|x s IH]; simpl; [reflexivity|].
  assert (Hx : PyStr.isspace x = false).
  { destruct (PyStr.isspace x) eqn:E; [|reflexivity].
    specialize (H x E). simpl in H. now rewrite Ascii.eqb_refl in H. }
  rewrite IH.
  - destruct s; [now rewrite Hx | reflexivity].
  - intros d Hd. specialize (H d Hd). simpl in H.
    now apply orb_false_iff in H as [_ H].
Qed.

End StringFacts.

(** ** Substitution tables *)

Section Tables.

Lemma single_key_inv (k : string) :
  Nat.eqb (String.length k) 1 = true -> exists c, k = String c EmptyString.
Proof.
  destruct k as [|c [|y k]]; simpl; try discriminate.
  intros _. now exists c.
Qed.

Lemma concat_map_single (s : string) :
  PyStr.concat_map (fun c => String c EmptyString) s = s.
Proof. induction s as [|x s IH]; simpl; [reflexivity | now rewrite IH]. Qed.

Lemma replaces_cons (k v : string) (T : Dict.t string) (s : string) :
  _replaces ((k, v) :: T) s = _replaces T (PyStr.replace k v s).
Proof. reflexivity. Qed.

(** A table of one-character patterns acts character by character. *)
Lemma replaces_pointwise (T : Dict.t string) :
  single_keys T = true ->
  forall s,
    _replaces T s
    = PyStr.concat_map (fun x => _replaces T (String x EmptyString)) s.
Proof.
  induction T as [|[k v] T IH]; intros HT s.
  - cbn. now rewrite concat_map_single.
  - simpl in HT. apply andb_true_iff in HT as [Hk HT].
    destruct (single_key_inv k Hk) as [c ->].
    rewrite replaces_cons, replace_char, (IH HT), concat_map_concat_map.
    apply concat_map_ext. intros y.
    rewrite replaces_cons, replace_char. cbn [PyStr.concat_map].
    now rewrite append_nil_r, <- (IH HT).
Qed.

(** A table none of whose patterns occurs leaves the string alone. *)
Lemma replaces_fixed (T : Dict.t string) (s : string) :
  (forall k v, In (k, v) T ->
     exists c, k = String c EmptyString /\ PyStr.mem_char c s = false) ->
  _replaces T s = s.
Proof.
  induction T as [|[k v] T IH]; intros H; [reflexivity|].
  rewrite replaces_cons.
  destruct (H k v (or_introl eq_refl)) as (c & -> & Hc).
  rewrite (replace_char_absent _ _ _ Hc).
  apply IH. intros k' v' Hin. apply (H k' v'). now right.
Qed.

(** A character that no replacement holds, and that is absent or still
    to be replaced, is absent from the result. *)
Lemma replaces_absent (d : ascii) (T : Dict.t string) :
  single_keys T = true ->
  (forall k v, In (k, v) T -> PyStr.mem_char d v = false) ->
  forall s,
    PyStr.mem_char d s = false
    \/ (exists v, In (String d EmptyString, v) T) ->
    PyStr.mem_char d (_replaces T s) = false.
Proof.
  induction T as [|[k v] T IH]; intros HT Hv s Hs.
  - destruct Hs as [Hs|[? []]]. exact Hs.
  - simpl in HT. apply andb_true_iff in HT as [Hk HT].
    destruct (single_key_inv k Hk) as [c ->].
    rewrite replaces_cons.
    apply IH; [exact HT | intros k' v' Hin; apply (Hv k' v'); now right |].
    assert (Hdv : PyStr.mem_char d v = false)
      by (apply (Hv (String c EmptyString) v); now left).
    destruct (ascii_dec d c) as [->|N].
    + left. now apply replace_char_removes.
    + destruct Hs as [Hs|[v' [Hin|Hin]]].
      * left. now apply replace_char_keeps_absent.
      * congruence.
      * right. now exists v'.
Qed.

Lemma cleans_by_char (c : ascii) :
  _replaces cleans (String c EmptyString) = clean_char c.
Proof.
  destruct c as [[] [] [] [] [] [] [] []]; reflexivity.
Qed.

Lemma clean_cmdline_by_char (s : string) :
  _clean_cmdline s = PyStr.concat_map clean_char (PyStr.strip s).
Proof.
  unfold _clean_cmdline.
  rewrite replaces_pointwise by reflexivity.
  apply concat_map_ext, cleans_by_char.
Qed.

(** The patterns of [cleans] are absent from a cleaned string. *)
Lemma cleans_patterns_absent (s : string) (k v : string) :
  In (k, v) cleans ->
  exists c, k = String c EmptyString
            /\ PyStr.mem_char c (_replaces cleans s) = false.
Proof.
  intros Hin.
  assert (Hk : exists c, k = String c EmptyString
                         /\ exists v', In (String c EmptyString, v') cleans).
  { simpl in Hin.
    repeat (destruct Hin as [Hin|Hin];
            [inversion Hin; subst; eexists; split;
             [reflexivity | eexists; simpl; tauto] |]).
    contradiction. }
  destruct Hk as (c & -> & Hc).
  exists c. split; [reflexivity|].
  apply replaces_absent; [reflexivity | | now right].
  clear -Hc. intros k' v' Hin. simpl in Hin, Hc.
  destruct Hc as [v0 Hc].
  repeat (destruct Hc as [Hc|Hc];
          [inversion Hc; subst;
           repeat (destruct Hin as [Hin|Hin];
                   [inversion Hin; subst; reflexivity |]);
           contradiction |]).
  contradiction.
Qed.

(** White space other than the plain space is neither in the input nor
    in a replacement, so it is absent from a cleaned string. *)
Lemma plain_spaces_only_absent (d : ascii) (s : string) :
  plain_spaces_only s = true ->
  PyStr.isspace d = true -> d <> " "%char ->
  PyStr.mem_char d s = false.
Proof.
  intros Hs Hd Hne.
  induction s as [|x s IH]; simpl in *; [reflexivity|].
  apply andb_true_iff in Hs as [Hx Hs].
  rewrite (IH Hs), orb_false_r.
  apply Ascii.eqb_neq. intros ->.
  rewrite Hd in Hx. simpl in Hx.
  apply Ascii.eqb_eq in Hx. contradiction.
Qed.

Lemma space_not_in_cleans_values (d : ascii) (k v : string) :
  PyStr.isspace d = true -> In (k, v) cleans -> PyStr.mem_char d v = false.
Proof.
  intros Hd Hin. simpl in Hin.
  repeat (destruct Hin as [Hin|Hin];
          [inversion Hin; subst; clear Hin;
           destruct d as [[] [] [] [] [] [] [] []];
           solve [reflexivity | discriminate Hd] |]).
  contradiction.
Qed.

Lemma cleaned_no_space (s : string) (d : ascii) :
  plain_spaces_only s = true ->
  PyStr.isspace d = true ->
  PyStr.mem_char d (_clean_cmdline s) = false.
Proof.
  intros Hs Hd. unfold _clean_cmdline.
  destruct (ascii_dec d " "%char) as [->|N].
  - apply replaces_absent; [reflexivity | | right].
    + intros k v. now apply space_not_in_cleans_values.
    + exists "_". simpl. tauto.
  - apply replaces_absent; [reflexivity | | left].
    + intros k v. now apply space_not_in_cleans_values.
    + apply mem_char_strip. now apply plain_spaces_only_absent.
Qed.

Lemma clean_cmdline_twice (s : string) :
  _clean_cmdline (_clean_cmdline s) = PyStr.strip (_clean_cmdline s).
Proof.
  unfold _clean_cmdline at 1.
  apply replaces_fixed. intros k v Hin.
  destruct (cleans_patterns_absent (PyStr.strip s) k v Hin) as (c & -> & Hc).
  exists c. split; [reflexivity|]. now apply mem_char_strip.
Qed.

(** The table of [_convert], evaluated. *)
Lemma convert_table (sep : string) :
  dict_const invalids sep
  = [("<", sep); (">", sep); (":", sep); (dquote, sep); ("/", sep);
     (bslash, sep); ("|", sep); ("?", sep); ("*", sep); (nul, sep)].
Proof. reflexivity. Qed.

Lemma no_invalid_absent (s : string) (k : string) (c : ascii) :
  no_invalid s = true -> In k invalids -> k = String c EmptyString ->
  PyStr.mem_char c s = false.
Proof.
  intros Hs Hin ->.
  induction s as [|x s IH]; [reflexivity|].
  cbn [no_invalid] in Hs. apply andb_true_iff in Hs as [Hx Hs].
  cbn [PyStr.mem_char]. rewrite (IH Hs), orb_false_r.
  apply Ascii.eqb_neq. intros ->.
  apply negb_true_iff in Hx.
  assert (E : existsb (String.eqb (String c "")) invalids = true).
  { apply existsb_exists. exists (String c ""). split; [exact Hin|].
    apply String.eqb_refl. }
  congruence.
Qed.

Lemma absent_no_invalid (s : string) :
  (forall k c, In k invalids -> k = String c EmptyString ->
               PyStr.mem_char c s = false) ->
  no_invalid s = true.
Proof.
  induction s as [|x s IH]; intros H; [reflexivity|].
  cbn [no_invalid]. apply andb_true_iff. split.
  - apply negb_true_iff.
    destruct (existsb (String.eqb (String x "")) invalids) eqn:E;
      [|reflexivity].
    apply existsb_exists in E as (k & Hin & Hk).
    apply String.eqb_eq in Hk. subst k.
    specialize (H _ x Hin eq_refl). simpl in H.
    now rewrite Ascii.eqb_refl in H.
  - apply IH. intros k c Hin Hk. specialize (H k c Hin Hk).
    simpl in H. now apply orb_false_iff in H as [_ H].
Qed.

Lemma convert_table_keys (sep k v : string) :
  In (k, v) (dict_const invalids sep) ->
  v = sep /\ In k invalids /\ exists c, k = String c EmptyString.
Proof.
  rewrite convert_table. intros Hin. simpl in Hin.
  repeat (destruct Hin as [Hin|Hin];
          [inversion Hin; subst; clear Hin;
           split; [reflexivity|];
           split; [simpl; tauto | eexists; reflexivity] |]).
  contradiction.
Qed.

Lemma invalids_in_table (sep k : string) :
  In k invalids -> In (k, sep) (dict_const invalids sep).
Proof.
  rewrite convert_table. intros Hin. simpl in Hin.
  repeat (destruct Hin as [Hin|Hin]; [subst k; simpl; tauto |]).
  contradiction.
Qed.

(** With a separator free of invalid characters, a converted string is
    free of them. *)
Lemma convert_no_invalid (sep s : string) :
  no_invalid sep = true -> no_invalid (_convert sep s) = true.
Proof.
  intros Hsep. apply absent_no_invalid. intros k c Hin ->.
  unfold _convert. apply replaces_absent.
  - now rewrite convert_table.
  - intros k v Hkv. apply convert_table_keys in Hkv as (-> & _ & _).
    now apply (no_invalid_absent sep _ c Hsep Hin).
  - right. exists sep. now apply invalids_in_table.
Qed.

Lemma convert_fixed (sep s : string) :
  no_invalid s = true -> _convert sep s = s.
Proof.
  intros Hs. unfold _convert. apply replaces_fixed.
  intros k v Hkv. apply convert_table_keys in Hkv as (_ & Hin & c & ->).
  exists c. split; [reflexivity|].
  now apply (no_invalid_absent s _ c Hs Hin).
Qed.

End Tables.

(** ** Transliteration: the claims *)

(** C6, as stated, fails: [_clean_cmdline] turns ['/'] into ['-'], which
    the listed substitutions leave unchanged. *)
Lemma clean_cmdline_slash_counterexample :
  _clean_cmdline "a/b" = "a-b" /\ clean_spec "a/b" = "a/b"
  /\ _clean_cmdline "a/b" <> clean_spec "a/b".
Proof. repeat split; try reflexivity. discriminate. Qed.

(** C6, amended: for every string, [_clean_cmdline] is the trimming of
    white space followed by the listed ordered substitutions and then by
    ['/'] -> ['-']; character by character, a space becomes ['_'], ['&']
    becomes [and], ['@'] becomes [At], the apostrophe and the square
    brackets disappear, ['/'] becomes ['-'] and every other character is
    unchanged. *)
Theorem clean_cmdline_table :
  forall s : string,
    _clean_cmdline s = PyStr.replace "/" "-" (clean_spec s)
    /\ _clean_cmdline s = PyStr.concat_map clean_char (PyStr.strip s).
Proof.
  intros s. split.
  - reflexivity.
  - apply clean_cmdline_by_char.
Qed.

(** C5, as stated, fails: cleaning apostrophe-tab-a once leaves a leading
    tab, which a second cleaning trims. *)
Lemma clean_cmdline_not_idempotent :
  _clean_cmdline quote_tab_a = String tab "a"
  /\ _clean_cmdline (_clean_cmdline quote_tab_a) = "a"
  /\ _clean_cmdline (_clean_cmdline quote_tab_a) <> _clean_cmdline quote_tab_a.
Proof. repeat split; try reflexivity. discriminate. Qed.

(** C5, amended: [_clean_cmdline] is idempotent on every string whose only
    white-space characters are plain spaces, and [_convert] is idempotent
    on every string when the separator holds no invalid character (the
    default ['-'] is such a separator). *)
Theorem clean_convert_idempotent :
  forall s t sep : string,
    plain_spaces_only s = true ->
    no_invalid sep = true ->
    _clean_cmdline (_clean_cmdline s) = _clean_cmdline s
    /\ _convert sep (_convert sep t) = _convert sep t.
Proof.
  intros s t sep Hs Hsep. split.
  - rewrite clean_cmdline_twice.
    apply strip_no_space. intros d Hd. now apply cleaned_no_space.
  - apply convert_fixed. now apply convert_no_invalid.
Qed.

Lemma clean_convert_idempotent_witness :
  plain_spaces_only " my bank & co " = true
  /\ no_invalid "-" = true
  /\ _clean_cmdline (_clean_cmdline " my bank & co ")
     = _clean_cmdline " my bank & co "
  /\ _convert "-" (_convert "-" "a:b/c") = _convert "-" "a:b/c".
Proof.
  split; [reflexivity|]. split; [reflexivity|].
  apply (clean_convert_idempotent " my bank & co " "a:b/c" "-");
    reflexivity.
Defined.

(** ** Results and dictionaries *)

Lemma bind_ok {A B : Type} (m : result A) (k : A -> result B) (b : B) :
  bind m k = Ok b -> exists a, m = Ok a /\ k a = Ok b.
Proof.
  destruct m as [a| |]; simpl; intros H; try discriminate.
  now exists a.
Qed.

Ltac bind_inv H :=
  let a := fresh "a" in
  let Ha := fresh "Ha" in
  apply bind_ok in H; destruct H as (a & Ha & H).

Lemma value_eqb_eq (a b : value) : value_eqb a b = true <-> a = b.
Proof.
  destruct a as [|x], b as [|y]; simpl; split; intros H;
    try reflexivity; try discriminate.
  - apply String.eqb_eq in H. now subst.
  - inversion H. apply String.eqb_refl.
Qed.

Lemma mem_value_In (p : value) (seen : list value) :
  mem_value p seen = true <-> In p seen.
Proof.
  unfold mem_value. rewrite existsb_exists. split.
  - intros (x & Hin & Hx). apply value_eqb_eq in Hx. now subst.
  - intros Hin. exists p. split; [exact Hin | now apply value_eqb_eq].
Qed.

Lemma mem_value_not_In (p : value) (seen : list value) :
  mem_value p seen = false -> ~ In p seen.
Proof.
  intros H Hin. apply mem_value_In in Hin. congruence.
Qed.

Section DictFacts.
Context {V : Type}.
Implicit Types (d : Dict.t V) (k : string) (v : V).

Lemma get_set_same k v dflt d : Dict.get k dflt (Dict.set k v d) = v.
Proof.
  unfold Dict.get.
  induction d as [|[k' v'] d IH]; simpl.
  - now rewrite String.eqb_refl.
  - destruct (String.eqb k' k) eqn:E; simpl; rewrite E; [reflexivity|].
    exact IH.
Qed.

Lemma lookup_set_same k v d : Dict.lookup k (Dict.set k v d) = Some v.
Proof.
  induction d as [|[k' v'] d IH]; simpl.
  - now rewrite String.eqb_refl.
  - destruct (String.eqb k' k) eqn:E; simpl; rewrite E; [reflexivity|].
    exact IH.
Qed.

Lemma lookup_set_other k k' v d :
  k <> k' -> Dict.lookup k (Dict.set k' v d) = Dict.lookup k d.
Proof.
  intros N.
  induction d as [|[k0 v0] d IH]; simpl.
  - assert (String.eqb k' k = false) as ->
      by (apply String.eqb_neq; congruence).
    reflexivity.
  - destruct (String.eqb k0 k') eqn:E; simpl.
    + apply String.eqb_eq in E. subst k0.
      assert (String.eqb k' k = false) as ->
        by (apply String.eqb_neq; congruence).
      reflexivity.
    + now rewrite IH.
Qed.

Lemma mem_set_same k v d : Dict.mem k (Dict.set k v d) = true.
Proof. unfold Dict.mem. now rewrite lookup_set_same. Qed.

Lemma mem_set_keeps k k' v d :
  Dict.mem k d = true -> Dict.mem k (Dict.set k' v d) = true.
Proof.
  destruct (string_dec k k') as [->|N].
  - intros _. apply mem_set_same.
  - unfold Dict.mem. now rewrite lookup_set_other.
Qed.

Lemma lookup_remove_same k d :
  NoDup (Dict.keys d) -> Dict.lookup k (Dict.remove k d) = None.
Proof.
  induction d as [|[k' v'] d IH]; simpl; intros ND; [reflexivity|].
  inversion ND as [|? ? Hnin ND']; subst.
  destruct (String.eqb k' k) eqn:E.
  - apply String.eqb_eq in E. subst k'.
    clear -Hnin. induction d as [|[k0 v0] d IH]; simpl; [reflexivity|].
    simpl in Hnin.
    destruct (String.eqb k0 k) eqn:E.
    + apply String.eqb_eq in E. tauto.
    + apply IH. tauto.
  - simpl. rewrite E. now apply IH.
Qed.

Lemma lookup_remove_other k k' d :
  k <> k' -> Dict.lookup k (Dict.remove k' d) = Dict.lookup k d.
Proof.
  intros N.
  induction d as [|[k0 v0] d IH]; simpl; [reflexivity|].
  destruct (String.eqb k0 k') eqn:E; simpl.
  - apply String.eqb_eq in E. subst k0.
    assert (String.eqb k' k = false) as ->
      by (apply String.eqb_neq; congruence).
    reflexivity.
  - now rewrite IH.
Qed.

Lemma lookup_not_in_keys k d :
  ~ In k (Dict.keys d) -> Dict.lookup k d = None.
Proof.
  induction d as [|[k0 v0] d IH]; simpl; intros H; [reflexivity|].
  destruct (String.eqb k0 k) eqn:E.
  - apply String.eqb_eq in E. tauto.
  - apply IH. tauto.
Qed.

End DictFacts.

(** ** The numeric-suffix pass *)

Section NumeriseFacts.

Variable re_search : string -> string -> result bool.

(** The loop only ever returns a path that is not in [seen]. *)
Lemma numerise_while_fresh (fuel : nat) (separator : string)
    (seen : list value) :
  forall (path : value) (ii : nat) (p : value),
    numerise_while re_search fuel separator seen path ii = Ok p ->
    mem_value p seen = false.
Proof.
  induction fuel as [|fuel IH]; intros path ii p H; simpl in H;
    destruct (mem_value path seen) eqn:E; try discriminate;
    try (inversion H; subst; exact E).
  bind_inv H. bind_inv H.
  destruct (negb a0); apply IH in H; exact H.
Qed.

Lemma numerise_for_length (fuel : nat) (separator : string) :
  forall (data : list entry) (seen : list value) (data' : list entry),
    numerise_for re_search fuel separator seen data = Ok data' ->
    List.length data' = List.length data.
Proof.
  induction data as [|e rest IH]; intros seen data' H; simpl in H.
  - inversion H. reflexivity.
  - destruct (mem_value (entry_path e) seen).
    + bind_inv H. bind_inv H. inversion H; subst. simpl.
      f_equal. eapply IH; eassumption.
    + bind_inv H. inversion H; subst. simpl.
      f_equal. eapply IH; eassumption.
Qed.

Lemma numerise_for_keeps_path (fuel : nat) (separator : string) :
  forall (data : list entry) (seen : list value) (data' : list entry),
    numerise_for re_search fuel separator seen data = Ok data' ->
    Forall (fun e => Dict.mem "path" e = true) data ->
    Forall (fun e => Dict.mem "path" e = true) data'.
Proof.
  induction data as [|e rest IH]; intros seen data' H HF; simpl in H.
  - inversion H. constructor.
  - inversion HF as [|? ? He Hrest]; subst.
    destruct (mem_value (entry_path e) seen).
    + bind_inv H. bind_inv H. inversion H; subst.
      constructor; [apply mem_set_same | eapply IH; eassumption].
    + bind_inv H. inversion H; subst.
      constructor; [exact He | eapply IH; eassumption].
Qed.

(** The paths of the processed entries extend [seen] without repeats. *)
Lemma numerise_for_nodup (fuel : nat) (separator : string) :
  forall (data : list entry) (seen : list value) (data' : list entry),
    numerise_for re_search fuel separator seen data = Ok data' ->
    NoDup seen ->
    NoDup (seen ++ map entry_path data')%list.
Proof.
  induction data as [|e rest IH]; intros seen data' H ND; simpl in H.
  - inversion H. simpl. now rewrite app_nil_r.
  - destruct (mem_value (entry_path e) seen) eqn:E.
    + bind_inv H. bind_inv H. inversion H; subst. simpl.
      unfold entry_path at 1. rewrite get_set_same.
      apply numerise_while_fresh in Ha.
      specialize (IH _ _ Ha0).
      rewrite <- app_assoc in IH. apply IH.
      apply NoDup_app; repeat split.
      * exact ND.
      * constructor; [intros [] | constructor].
      * intros x Hx [<-|[]]. now apply mem_value_not_In in Ha.
    + bind_inv H. inversion H; subst. simpl.
      specialize (IH _ _ Ha).
      rewrite <- app_assoc in IH. apply IH.
      apply NoDup_app; repeat split.
      * exact ND.
      * constructor; [intros [] | constructor].
      * intros x Hx [<-|[]]. now apply mem_value_not_In in E.
Qed.

End NumeriseFacts.

(** ** The first two passes keep the batch in shape *)

Lemma clean_entry_has_path (separator : string) (cl cv : bool) (e e' : entry) :
  clean_entry separator cl cv e = Ok e' -> has_path e'.
Proof.
  unfold clean_entry. intros H.
  bind_inv H. bind_inv H. inversion H; subst.
  apply mem_set_same.
Qed.

Lemma clean_entries_shape (separator : string) (cl cv : bool) :
  forall data data',
    clean_entries separator cl cv data = Ok data' ->
    List.length data' = List.length data /\ Forall has_path data'.
Proof.
  induction data as [|e rest IH]; intros data' H; simpl in H.
  - inversion H. split; [reflexivity | constructor].
  - bind_inv H. bind_inv H. inversion H; subst.
    destruct (IH _ Ha0) as [L F]. split.
    + simpl. now rewrite L.
    + constructor; [eapply clean_entry_has_path; eassumption | exact F].
Qed.

Lemma list_set_length {A : Type} (idx : nat) (a : A) (l : list A) :
  List.length (list_set idx a l) = List.length l.
Proof.
  revert idx. induction l as [|x l IH]; intros [|i]; simpl; try reflexivity.
  now rewrite IH.
Qed.

Lemma list_set_Forall {A : Type} (P : A -> Prop) (idx : nat) (a : A)
    (l : list A) :
  P a -> Forall P l -> Forall P (list_set idx a l).
Proof.
  intros Pa. revert idx.
  induction l as [|x l IH]; intros [|i] F; simpl; try constructor;
    inversion F; subst; auto.
Qed.

Lemma repath_indices_shape (separator : string) (cl cv : bool) (path : value) :
  forall idxs data data',
    repath_indices separator cl cv path idxs data = Ok data' ->
    Forall has_path data ->
    List.length data' = List.length data /\ Forall has_path data'.
Proof.
  induction idxs as [|idx rest IH]; intros data data' H F; simpl in H.
  - inversion H; subst. now split.
  - destruct (nth_error data idx) as [e|].
    + bind_inv H. apply IH in H.
      * rewrite list_set_length in H. exact H.
      * apply list_set_Forall; [apply mem_set_same | exact F].
    + inversion H; subst. now split.
Qed.

Lemma repath_groups_shape (separator : string) (cl cv : bool) :
  forall groups data data',
    repath_groups separator cl cv groups data = Ok data' ->
    Forall has_path data ->
    List.length data' = List.length data /\ Forall has_path data'.
Proof.
  induction groups as [|[path idxs] rest IH]; intros data data' H F;
    simpl in H.
  - inversion H; subst. now split.
  - bind_inv H.
    assert (S1 : List.length a = List.length data /\ Forall has_path a).
    { destruct (1 <? List.length idxs)%nat.
      - eapply repath_indices_shape; eassumption.
      - inversion Ha; subst. now split. }
    destruct S1 as [L1 F1].
    destruct (IH _ _ H F1) as [L2 F2].
    split; [congruence | exact F2].
Qed.

(** ** Uniqueness of the assigned paths *)

(** C1: whenever [clean] completes, each entry of the batch carries a
    path, no entry was added or dropped, and the paths of the batch are
    pairwise distinct.  This holds for every batch, every separator, both
    flags and whatever the pattern search answers. *)
Theorem clean_paths_distinct :
  forall (re_search : string -> string -> result bool) (fuel : nat)
         (separator : string) (cl cv : bool) (data data' : list entry),
    clean re_search fuel separator cl cv data = Ok data' ->
    NoDup (map entry_path data')
    /\ Forall has_path data'
    /\ List.length data' = List.length data.
Proof.
  intros re_search fuel separator cl cv data data' H.
  unfold clean in H. bind_inv H. bind_inv H.
  destruct (clean_entries_shape _ _ _ _ _ Ha) as [L1 F1].
  destruct (repath_groups_shape _ _ _ _ _ _ Ha0 F1) as [L2 F2].
  unfold _duplicate_numerise in H.
  split; [|split].
  - apply (numerise_for_nodup _ _ _ _ [] _ H). constructor.
  - eapply numerise_for_keeps_path; eassumption.
  - apply numerise_for_length in H. congruence.
Qed.

(** ** Suffixing *)

Lemma clean_paths_distinct_witness :
  clean re_literal 3 "-" false false
    [titled "Example" "a"; titled "Example" "b"]
  = Ok [[("password", VStr "a"); ("path", VStr "Example/notitle")];
        [("password", VStr "b"); ("path", VStr "Example/notitle-1")]]
  /\ NoDup [VStr "Example/notitle"; VStr "Example/notitle-1"].
Proof.
  split; [reflexivity|].
  apply (clean_paths_distinct re_literal 3 "-" false false
           [titled "Example" "a"; titled "Example" "b"]
           [[("password", VStr "a"); ("path", VStr "Example/notitle")];
            [("password", VStr "b"); ("path", VStr "Example/notitle-1")]]).
  reflexivity.
Defined.

(** C2, as stated, fails: two entries titled [Example] first share the
    path [Example]; the group-collision pass then moves both under that
    folder, and with no login or url their leaf is [notitle]. *)
Lemma example_paths_counterexample :
  paths_of (clean re_literal 3 "-" false false
              [titled "Example" "a"; titled "Example" "b"])
  = Ok [VStr "Example/notitle"; VStr "Example/notitle-1"]
  /\ paths_of (clean re_literal 3 "-" false false
                 [titled "Example" "a"; titled "Example" "b"])
     <> Ok [VStr "Example"; VStr "Example-1"].
Proof. split; [reflexivity | discriminate]. Qed.

(** C2, amended: for a batch of two entries titled [Example], with no
    group, login or url, and the separator ['-'], [clean] assigns
    [Example/notitle] to the first entry in parse order and
    [Example/notitle-1] to the second; a third such entry receives
    [Example/notitle-2].  The first entry keeps the unsuffixed path,
    whatever the passwords and the two flags are, as soon as the loop is
    given two iterations. *)
Theorem example_paths :
  forall (cl cv : bool) (p1 p2 p3 : string) (fuel : nat),
    paths_of (clean re_literal (S (S fuel)) "-" cl cv
                [titled "Example" p1; titled "Example" p2])
    = Ok [VStr "Example/notitle"; VStr "Example/notitle-1"]
    /\ paths_of (clean re_literal (S (S fuel)) "-" cl cv
                   [titled "Example" p1; titled "Example" p2;
                    titled "Example" p3])
       = Ok [VStr "Example/notitle"; VStr "Example/notitle-1";
             VStr "Example/notitle-2"].
Proof.
  intros cl cv p1 p2 p3 fuel.
  destruct cl, cv, p1 as [|a1 p1], p2 as [|a2 p2], p3 as [|a3 p3], fuel;
    split; reflexivity.
Qed.

(** ** The loop of the numeric-suffix pass can run for ever *)

Lemma str_not_zero_prefix (ii : nat) :
  1 <= ii -> String.prefix (PyStr.str ii) "0" = false.
Proof.
  intros Hii. unfold PyStr.str.
  pose proof (NilEmpty.usu (Nat.to_uint ii)) as U.
  destruct (NilEmpty.string_of_uint (Nat.to_uint ii)) as [|a s] eqn:E.
  - simpl in U. injection U as U.
    pose proof (DecimalNat.Unsigned.of_to ii) as O.
    rewrite <- U in O. cbv in O. lia.
  - simpl. destruct (ascii_dec a "0") as [->|]; [|reflexivity].
    destruct s as [|b s]; [|reflexivity].
    simpl in U. injection U as U.
    pose proof (DecimalNat.Unsigned.of_to ii) as O.
    rewrite <- U in O. cbv in O. lia.
Qed.

(** No counter [ii >= 1] ever rewrites a path that ends in [-0]. *)
Lemma replace_counter_misses (ii : nat) (new : string) :
  1 <= ii ->
  PyStr.replace ("-" ++ PyStr.str ii) new "a/x-0" = "a/x-0".
Proof.
  intros Hii. pose proof (str_not_zero_prefix ii Hii) as P.
  cbn [append PyStr.replace].
  cbn [PyStr.replace_from String.prefix].
  repeat match goal with
         | |- context [ascii_dec ?a ?b] =>
             let d := eval vm_compute in (ascii_dec a b) in
             change (ascii_dec a b) with d; cbv iota
         end.
  fold (String.prefix (PyStr.str ii) "0").
  rewrite P. reflexivity.
Qed.

Lemma numerise_while_stuck (fuel ii : nat) :
  1 <= ii ->
  numerise_while re_literal fuel "-" [VStr "a/x-0"] (VStr "a/x-0") ii
  = OutOfFuel.
Proof.
  revert ii. induction fuel as [|fuel IH]; intros ii Hii; [reflexivity|].
  cbn [numerise_while mem_value existsb value_eqb].
  change (String.eqb "a/x-0" "a/x-0") with true.
  cbn [orb as_str bind re_literal].
  change (re_search_literal "-" "a/x-0") with true.
  cbn [negb].
  rewrite replace_counter_misses by assumption.
  apply IH. lia.
Qed.

(** C4 fails on the code: two entries with title [a] and login [x-0] both
    reach the numeric-suffix pass with the path [a/x-0]; the pattern finds
    the suffix [-0], and the loop replaces [-1], [-2], ..., none of which
    occurs in the path, so that no bound on its iterations is enough. *)
Theorem numerise_does_not_terminate :
  forall fuel : nat,
    _duplicate_paths "-" false false
      [[("password", VStr "pw"); ("login", VStr "x-0"); ("path", VStr "a")];
       [("password", VStr "pw"); ("login", VStr "x-0"); ("path", VStr "a")]]
    = Ok [[("password", VStr "pw"); ("login", VStr "x-0");
           ("path", VStr "a/x-0")];
          [("password", VStr "pw"); ("login", VStr "x-0");
           ("path", VStr "a/x-0")]]
    /\ _duplicate_numerise re_literal fuel "-"
         [[("password", VStr "pw"); ("login", VStr "x-0");
           ("path", VStr "a/x-0")];
          [("password", VStr "pw"); ("login", VStr "x-0");
           ("path", VStr "a/x-0")]]
       = OutOfFuel
    /\ clean re_literal fuel "-" false false
         [with_login "a" "x-0"; with_login "a" "x-0"]
       = OutOfFuel.
Proof.
  intros fuel.
  assert (N : _duplicate_numerise re_literal fuel "-"
         [[("password", VStr "pw"); ("login", VStr "x-0");
           ("path", VStr "a/x-0")];
          [("password", VStr "pw"); ("login", VStr "x-0");
           ("path", VStr "a/x-0")]]
       = OutOfFuel).
  { unfold _duplicate_numerise.
    cbn [numerise_for].
    change (entry_path [("password", VStr "pw"); ("login", VStr "x-0");
                        ("path", VStr "a/x-0")]) with (VStr "a/x-0").
    change (mem_value (VStr "a/x-0") []) with false. cbv iota.
    change (mem_value (VStr "a/x-0") ([] ++ [VStr "a/x-0"])%list) with true.
    cbv iota. change ([] ++ [VStr "a/x-0"])%list with [VStr "a/x-0"].
    rewrite numerise_while_stuck by lia. reflexivity. }
  split; [reflexivity|]. split; [exact N|].
  unfold clean.
  change (clean_entries "-" false false
            [with_login "a" "x-0"; with_login "a" "x-0"])
    with (Ok [[("password", VStr "pw"); ("login", VStr "x-0");
               ("path", VStr "a")];
              [("password", VStr "pw"); ("login", VStr "x-0");
               ("path", VStr "a")]]).
  cbn [bind].
  change (_duplicate_paths "-" false false
            [[("password", VStr "pw"); ("login", VStr "x-0");
              ("path", VStr "a")];
             [("password", VStr "pw"); ("login", VStr "x-0");
              ("path", VStr "a")]])
    with (Ok [[("password", VStr "pw"); ("login", VStr "x-0");
               ("path", VStr "a/x-0")];
              [("password", VStr "pw"); ("login", VStr "x-0");
               ("path", VStr "a/x-0")]]).
  cbn [bind]. exact N.
Qed.

(** ** Removal of empty fields *)

Lemma fold_remove_head (k : string) (v : value) (ks : list string) :
  forall d : entry,
    ~ In k ks ->
    fold_left (fun d k => Dict.remove k d) ks ((k, v) :: d)
    = (k, v) :: fold_left (fun d k => Dict.remove k d) ks d.
Proof.
  induction ks as [|k0 ks IH]; intros d Hnin; [reflexivity|].
  simpl in Hnin. cbn [fold_left Dict.remove].
  assert (String.eqb k k0 = false) as ->
    by (apply String.eqb_neq; intros ->; tauto).
  apply IH. tauto.
Qed.

Lemma empty_keys_incl (e : entry) (k : string) :
  In k (empty_keys e) -> In k (Dict.keys e).
Proof.
  unfold empty_keys, Dict.keys. intros H.
  apply in_map_iff in H as (kv & <- & Hin).
  apply filter_In in Hin as [Hin _]. now apply in_map.
Qed.

(** On a dictionary the removal loop keeps exactly the truthy items. *)
Lemma remove_empty_filter (e : entry) :
  NoDup (Dict.keys e) ->
  remove_empty e = filter (fun kv => truthy (snd kv)) e.
Proof.
  unfold remove_empty.
  induction e as [|[k v] e IH]; intros ND; [reflexivity|].
  inversion ND as [|? ? Hnin ND']; subst.
  unfold empty_keys. cbn [filter snd].
  destruct (truthy v); cbn [negb map fst fold_left].
  - rewrite fold_remove_head.
    + f_equal. now apply IH.
    + intros Hin. apply Hnin. now apply empty_keys_incl.
  - cbn [Dict.remove]. rewrite String.eqb_refl. now apply IH.
Qed.

Lemma lookup_filter_truthy (e : entry) (k : string) :
  NoDup (Dict.keys e) ->
  Dict.lookup k (filter (fun kv => truthy (snd kv)) e)
  = match Dict.lookup k e with
    | Some v => if truthy v then Some v else None
    | None => None
    end.
Proof.
  induction e as [|[k0 v0] e IH]; intros ND; [reflexivity|].
  inversion ND as [|? ? Hnin ND']; subst.
  cbn [filter snd Dict.lookup].
  destruct (String.eqb k0 k) eqn:E.
  - apply String.eqb_eq in E. subst k0.
    destruct (truthy v0) eqn:T.
    + cbn [Dict.lookup]. now rewrite String.eqb_refl.
    + apply lookup_not_in_keys. intros Hin. apply Hnin.
      unfold Dict.keys in *. apply in_map_iff in Hin as (kv & <- & Hin).
      apply filter_In in Hin as [Hin _]. now apply in_map.
  - destruct (truthy v0); cbn [Dict.lookup]; rewrite ?E; now apply IH.
Qed.

Lemma fold_set_keeps_mem (k : string) (f : string -> value)
    (cols : list string) :
  forall en : entry,
    Dict.mem k en = true ->
    Dict.mem k (fold_left (fun en col => Dict.set col (f col) en) cols en)
    = true.
Proof.
  induction cols as [|c cols IH]; intros en H; [exact H|].
  cbn [fold_left]. apply IH. now apply mem_set_keeps.
Qed.

Lemma parse_row_has_password (m : PasswordManagerCSV.manager)
    (row : Dict.t value) :
  Dict.mem "password" (PasswordManagerCSV.parse_row m row) = true.
Proof.
  unfold PasswordManagerCSV.parse_row.
  set (st := fold_left _ keyslist _).
  assert (H : Dict.mem "password" (fst st) = true) by reflexivity.
  destruct (PasswordManagerCSV.all m); [|exact H].
  now apply fold_set_keeps_mem.
Qed.

Lemma NoDup_keys_remove {V : Type} (k : string) (d : Dict.t V) :
  NoDup (Dict.keys d) -> NoDup (Dict.keys (Dict.remove k d)).
Proof.
  unfold Dict.keys.
  induction d as [|[k0 v0] d IH]; intros ND; [constructor|].
  inversion ND as [|? ? Hnin ND']; subst.
  cbn [Dict.remove]. destruct (String.eqb k0 k) eqn:E; [exact ND'|].
  cbn [map fst]. constructor; [|now apply IH].
  intros Hin. apply Hnin. clear -Hin.
  induction d as [|[k1 v1] d IH]; [contradiction|].
  cbn [Dict.remove] in Hin. destruct (String.eqb k1 k).
  - now right.
  - destruct Hin as [<-|Hin]; [now left | right; now apply IH].
Qed.

(** A key the dictionary lacks is still missing after a removal. *)
Lemma lookup_none_remove {V : Type} (k c : string) (d : Dict.t V) :
  Dict.lookup c d = None -> Dict.lookup c (Dict.remove k d) = None.
Proof.
  induction d as [|[k0 v0] d IH]; [reflexivity|].
  cbn [Dict.lookup Dict.remove].
  destruct (String.eqb k0 c) eqn:E; [discriminate|]. intros H.
  destruct (String.eqb k0 k); [exact H|].
  cbn [Dict.lookup]. rewrite E. now apply IH.
Qed.

Lemma lookup_none_not_in {V : Type} (k : string) (d : Dict.t V) :
  Dict.lookup k d = None -> ~ In k (Dict.keys d).
Proof.
  induction d as [|[k0 v0] d IH]; [intros _ []|].
  cbn [Dict.lookup Dict.keys map fst].
  destruct (String.eqb k0 k) eqn:E; [discriminate|].
  intros H [->|Hin]; [now rewrite String.eqb_refl in E|].
  now apply IH.
Qed.

Lemma fold_set_lookup_other (k : string) (f : string -> value)
    (cols : list string) :
  forall en : entry,
    ~ In k cols ->
    Dict.lookup k (fold_left (fun en col => Dict.set col (f col) en) cols en)
    = Dict.lookup k en.
Proof.
  induction cols as [|c cols IH]; intros en H; [reflexivity|].
  cbn [fold_left]. rewrite IH by (intros X; apply H; now right).
  apply lookup_set_other. intros ->. apply H. now left.
Qed.

(** *** The value of a canonical key *)

Section TakeKeys.

Variable m : PasswordManagerCSV.manager.

Lemma take_fold_other (key : string) :
  forall ks st,
    ~ In key ks ->
    Dict.lookup key
      (fst (fold_left (fun st k => PasswordManagerCSV.take_key st m k) ks st))
    = Dict.lookup key (fst st).
Proof.
  induction ks as [|k ks IH]; intros st Hnin; [reflexivity|].
  cbn [fold_left]. rewrite IH by (intros H; apply Hnin; now right).
  unfold PasswordManagerCSV.take_key. cbn [fst Dict.pop].
  apply lookup_set_other. intros ->. apply Hnin. now left.
Qed.

Lemma take_fold_row (c : string) :
  forall ks st,
    (forall k, In k ks -> native m k <> c) ->
    Dict.lookup c
      (snd (fold_left (fun st k => PasswordManagerCSV.take_key st m k) ks st))
    = Dict.lookup c (snd st).
Proof.
  induction ks as [|k ks IH]; intros st H; [reflexivity|].
  cbn [fold_left]. rewrite IH by (intros k' Hk'; apply H; now right).
  unfold PasswordManagerCSV.take_key. cbn [snd Dict.pop].
  apply lookup_remove_other. intros ->. apply (H k); [now left|reflexivity].
Qed.

Lemma take_fold_value (pre post : list string) (key : string)
    (st : entry * Dict.t value) :
  ~ In key post ->
  (forall k, In k pre -> native m k <> native m key) ->
  Dict.lookup key
    (fst (fold_left (fun st k => PasswordManagerCSV.take_key st m k)
            (pre ++ key :: post) st))
  = Some (Dict.get (native m key) VNone (snd st)).
Proof.
  intros Hpost Hpre.
  rewrite fold_left_app. cbn [fold_left].
  rewrite take_fold_other by exact Hpost.
  unfold PasswordManagerCSV.take_key at 1. cbn [fst Dict.pop].
  rewrite lookup_set_same. f_equal.
  unfold Dict.get at 1 3. fold (native m key).
  now rewrite take_fold_row.
Qed.

Lemma take_fold_absent (c : string) :
  forall ks st,
    Dict.lookup c (snd st) = None ->
    Dict.lookup c
      (snd (fold_left (fun st k => PasswordManagerCSV.take_key st m k) ks st))
    = None.
Proof.
  induction ks as [|k ks IH]; intros st H; [exact H|].
  cbn [fold_left]. apply IH.
  unfold PasswordManagerCSV.take_key. cbn [snd Dict.pop].
  now apply lookup_none_remove.
Qed.

Lemma get_none_remove (k c : string) (d : Dict.t value) :
  NoDup (Dict.keys d) ->
  Dict.get c VNone d = VNone -> Dict.get c VNone (Dict.remove k d) = VNone.
Proof.
  intros ND H. unfold Dict.get in *.
  destruct (string_dec c k) as [->|N].
  - now rewrite lookup_remove_same.
  - now rewrite lookup_remove_other.
Qed.

Lemma take_fold_NoDup :
  forall ks st,
    NoDup (Dict.keys (snd st)) ->
    NoDup
      (Dict.keys
         (snd (fold_left (fun st k => PasswordManagerCSV.take_key st m k)
                 ks st))).
Proof.
  induction ks as [|k ks IH]; intros st ND; [exact ND|].
  cbn [fold_left]. apply IH.
  unfold PasswordManagerCSV.take_key. cbn [snd Dict.pop].
  now apply NoDup_keys_remove.
Qed.

Lemma take_fold_get_none (c : string) :
  forall ks st,
    NoDup (Dict.keys (snd st)) ->
    Dict.get c VNone (snd st) = VNone ->
    Dict.get c VNone
      (snd (fold_left (fun st k => PasswordManagerCSV.take_key st m k) ks st))
    = VNone.
Proof.
  induction ks as [|k ks IH]; intros st ND H; [exact H|].
  cbn [fold_left]. apply IH.
  - unfold PasswordManagerCSV.take_key. cbn [snd Dict.pop].
    now apply NoDup_keys_remove.
  - unfold PasswordManagerCSV.take_key. cbn [snd Dict.pop].
    now apply get_none_remove.
Qed.

(** The native column of a canonical key is no longer in the row after
    the loop over the canonical keys. *)
Lemma take_fold_popped (key : string) :
  forall ks st,
    NoDup (Dict.keys (snd st)) ->
    In key ks ->
    Dict.lookup (native m key)
      (snd (fold_left (fun st k => PasswordManagerCSV.take_key st m k) ks st))
    = None.
Proof.
  induction ks as [|k ks IH]; intros st ND Hin; [contradiction|].
  cbn [fold_left].
  assert (ND1 : NoDup (Dict.keys (snd (PasswordManagerCSV.take_key st m k)))).
  { unfold PasswordManagerCSV.take_key. cbn [snd Dict.pop].
    now apply NoDup_keys_remove. }
  destruct (string_dec k key) as [->|N].
  - apply take_fold_absent.
    unfold PasswordManagerCSV.take_key. cbn [snd Dict.pop].
    now apply lookup_remove_same.
  - apply IH; [exact ND1|]. destruct Hin as [E|Hin]; [contradiction|exact Hin].
Qed.

(** A canonical key whose native column holds no cell in the row holds
    [None] after the loop over the canonical keys. *)
Lemma take_fold_none (pre post : list string) (key : string)
    (st : entry * Dict.t value) :
  ~ In key post ->
  NoDup (Dict.keys (snd st)) ->
  Dict.get (native m key) VNone (snd st) = VNone ->
  Dict.lookup key
    (fst (fold_left (fun st k => PasswordManagerCSV.take_key st m k)
            (pre ++ key :: post) st))
  = Some VNone.
Proof.
  intros Hpost ND Hrow.
  rewrite fold_left_app. cbn [fold_left].
  rewrite take_fold_other by exact Hpost.
  unfold PasswordManagerCSV.take_key at 1. cbn [fst Dict.pop].
  rewrite lookup_set_same. f_equal.
  fold (native m key). now apply take_fold_get_none.
Qed.

End TakeKeys.

(** The value of [password] in a record of [PasswordManagerCSV.parse]
    whose row holds no cell for the native column of the password. *)
Lemma parse_row_password_none (m : PasswordManagerCSV.manager)
    (row : Dict.t value) :
  NoDup (Dict.keys row) ->
  Dict.get (native m "password") VNone row = VNone ->
  PasswordManagerCSV.all m = false
  \/ Dict.lookup "password" row = None
  \/ (exists key, In key keyslist /\ native m key = "password") ->
  Dict.lookup "password" (PasswordManagerCSV.parse_row m row) = Some VNone.
Proof.
  intros ND Hrow Hcol. unfold PasswordManagerCSV.parse_row.
  set (st := fold_left _ keyslist _).
  assert (P : Dict.lookup "password" (fst st) = Some VNone).
  { apply (take_fold_none m ["title"]
             ["login"; "url"; "comments"; "group"; "binary"] "password"
             ([], row)); [|exact ND|exact Hrow].
    simpl. intuition discriminate. }
  destruct (PasswordManagerCSV.all m) eqn:A; [|exact P].
  rewrite fold_set_lookup_other; [exact P|].
  apply lookup_none_not_in.
  destruct Hcol as [F|[L|(key & Hin & E)]]; [discriminate| |].
  - now apply take_fold_absent.
  - rewrite <- E. now apply take_fold_popped.
Qed.

(** C3, as stated, fails.  An empty password is removed with the other
    empty fields.  A record of [Enpass.parse] holds no [password] when the
    row names none.  A record of [PasswordManagerCSV.parse] whose row
    stops before the password column holds [None] there, not the empty
    string; and with the extra flag on, a column that is itself named
    [password] takes the place of the mapped one. *)
Lemma empty_password_removed :
  (Dict.lookup "password" (titled "t" "") = Some (VStr "")
   /\ Dict.lookup "password" (remove_empty (titled "t" "")) = None
   /\ clean_entry "-" false false (titled "t" "") = Ok [("path", VStr "t")])
  /\ Enpass.parse_row false ["site"; "a note"]
     = Some [("title", VStr "site"); ("comments", VStr "a note")]
  /\ PasswordManagerCSV.parse (PasswordManagerCSV.OnePassword false)
       [["Title"; "Password"; "Username"; "URL"; "Notes"; "Type"]; ["t"]] []
     = (Ok tt,
        [[("title", VStr "t"); ("password", VNone); ("login", VNone);
          ("url", VNone); ("comments", VNone); ("group", VNone);
          ("binary", VNone)]])
  /\ PasswordManagerCSV.parse (PasswordManagerCSV.OnePassword true)
       [["password"; "Title"; "Password"; "Username"; "URL"; "Notes";
         "Type"]; ["sneaky"]] []
     = (Ok tt,
        [[("title", VNone); ("password", VStr "sneaky"); ("login", VNone);
          ("url", VNone); ("comments", VNone); ("group", VNone);
          ("binary", VNone)]]).
Proof. repeat split; reflexivity. Qed.

(** C3, amended: every record that [PasswordManagerCSV.parse] builds holds
    the key [password].  Its value is [None], not the empty string, when
    the row holds no cell for the column mapped to [password] (the column
    is missing, or the row stops before it) and either the extra flag is
    off, or the row has no column named [password], or that column is
    mapped to a canonical key.  The removal step of [clean] drops every
    key whose value is empty ([None] or the empty string), [password]
    included, and keeps every other key with its value. *)
Theorem empty_fields_removed :
  forall (m : PasswordManagerCSV.manager) (row : Dict.t value)
         (e : entry) (k : string),
    NoDup (Dict.keys row) ->
    NoDup (Dict.keys e) ->
    Dict.mem "password" (PasswordManagerCSV.parse_row m row) = true
    /\ (Dict.get (native m "password") VNone row = VNone ->
        PasswordManagerCSV.all m = false
        \/ Dict.lookup "password" row = None
        \/ (exists key, In key keyslist /\ native m key = "password") ->
        Dict.lookup "password" (PasswordManagerCSV.parse_row m row)
        = Some VNone)
    /\ Dict.lookup k (remove_empty e)
       = match Dict.lookup k e with
         | Some v => if truthy v then Some v else None
         | None => None
         end.
Proof.
  intros m row e k NDrow ND. split; [|split].
  - apply parse_row_has_password.
  - now apply parse_row_password_none.
  - rewrite remove_empty_filter by assumption.
    now apply lookup_filter_truthy.
Qed.

Lemma empty_fields_removed_witness :
  Dict.mem "password"
    (PasswordManagerCSV.parse_row (PasswordManagerCSV.OnePassword true)
       [("Title", VStr "t"); ("Password", VNone); ("Extra", VStr "x")])
  = true
  /\ Dict.lookup "password"
       (PasswordManagerCSV.parse_row (PasswordManagerCSV.OnePassword true)
          [("Title", VStr "t"); ("Password", VNone); ("Extra", VStr "x")])
     = Some VNone
  /\ Dict.lookup "password" (remove_empty (titled "t" "")) = None.
Proof.
  destruct (empty_fields_removed (PasswordManagerCSV.OnePassword true)
              [("Title", VStr "t"); ("Password", VNone); ("Extra", VStr "x")]
              (titled "t" "") "password") as (M & N & R).
  - repeat constructor; simpl; intuition discriminate.
  - repeat constructor; simpl; intuition discriminate.
  - split; [exact M|]. split; [|exact R].
    apply N; [reflexivity|]. right. left. reflexivity.
Defined.

(** ** CSV header check *)

Lemma check_values_missing (header : list string) (csvkey : string) :
  forall csvkeys : list string,
    In csvkey csvkeys -> ~ In csvkey header ->
    PasswordManagerCSV.check_values csvkeys (Some header) = Raise FormatError.
Proof.
  induction csvkeys as [|k ks IH]; intros Hin Hmiss; [contradiction|].
  cbn [PasswordManagerCSV.check_values].
  destruct (existsb (String.eqb k) header) eqn:E; [|reflexivity].
  apply IH; [|exact Hmiss].
  destruct Hin as [->|Hin]; [|exact Hin].
  exfalso. apply Hmiss.
  apply existsb_exists in E as (x & Hx & Ex).
  apply String.eqb_eq in Ex. now subst.
Qed.

(** C8: when the header of the source lacks a native column the manager
    requires, [parse] raises [FormatError] and [self.data] is what it was
    before the call. *)
Theorem parse_missing_column :
  forall (m : PasswordManagerCSV.manager) (file : list (list string))
         (data : list entry) (header : list string) (csvkey : string),
    PasswordManagerCSV.reader_fieldnames (PasswordManagerCSV.fieldnames m) file
    = Some header ->
    In csvkey (Dict.values (PasswordManagerCSV.keys m)) ->
    ~ In csvkey header ->
    PasswordManagerCSV.parse m file data = (Raise FormatError, data).
Proof.
  intros m file data header csvkey Hh Hin Hmiss.
  unfold PasswordManagerCSV.parse, PasswordManagerCSV._checkformat.
  rewrite Hh, (check_values_missing header csvkey) by assumption.
  reflexivity.
Qed.

Lemma parse_missing_column_witness :
  PasswordManagerCSV.parse (PasswordManagerCSV.PasswordExporter false)
    [["Title"; "Password"]; ["site"; "secret"]] [titled "old" "pw"]
  = (Raise FormatError, [titled "old" "pw"]).
Proof.
  apply (parse_missing_column (PasswordManagerCSV.PasswordExporter false)
           [["Title"; "Password"]; ["site"; "secret"]] [titled "old" "pw"]
           ["Title"; "Password"] "hostname").
  - reflexivity.
  - simpl. tauto.
  - simpl. intuition discriminate.
Defined.

(** ** Serialisation *)

Lemma fold_get_line (d : entry) :
  forall acc : string,
    fold_left get_line d acc
    = acc ++ join_lines (map field_line (filter not_path d)).
Proof.
  induction d as [|[k v] d IH]; intros acc; cbn [fold_left].
  - simpl. now rewrite append_nil_r.
  - rewrite IH. unfold get_line, not_path. cbn [filter fst snd].
    destruct (String.eqb k "path"); cbn [negb]; [reflexivity|].
    cbn [map join_lines fold_right]. unfold field_line at 2. cbn [fst snd].
    now rewrite !append_assoc.
Qed.

Lemma content_get (e : entry) :
  content (get e)
  = (p <- as_str TypeError (Dict.get "password" (VStr "") e) ;;
     Ok (p ++ nl ++ join_lines
                      (map field_line
                         (filter not_path (Dict.remove "password" e))))).
Proof.
  unfold content, get. cbn [Dict.pop fst snd].
  destruct (Dict.get "password" (VStr "") e) as [|p]; [reflexivity|].
  cbn [as_str bind fst]. now rewrite fold_get_line, append_assoc.
Qed.

Lemma not_path_eq (k : string) (v : value) :
  not_path (k, v) = negb (String.eqb k "path").
Proof. reflexivity. Qed.

Lemma filter_not_path_set (v : value) (d : entry) :
  filter not_path (Dict.set "path" v d) = filter not_path d.
Proof.
  induction d as [|[k0 v0] d IH]; [reflexivity|].
  cbn [Dict.set]. destruct (String.eqb k0 "path") eqn:E.
  - cbn [filter]. rewrite !not_path_eq, E. reflexivity.
  - cbn [filter]. now rewrite IH.
Qed.

Lemma filter_not_path_remove (d : entry) :
  filter not_path (Dict.remove "path" d) = filter not_path d.
Proof.
  induction d as [|[k0 v0] d IH]; [reflexivity|].
  cbn [Dict.remove]. destruct (String.eqb k0 "path") eqn:E.
  - cbn [filter]. rewrite not_path_eq, E. reflexivity.
  - cbn [filter]. now rewrite IH.
Qed.

Lemma remove_password_set_path (v : value) (d : entry) :
  filter not_path (Dict.remove "password" (Dict.set "path" v d))
  = filter not_path (Dict.remove "password" d).
Proof.
  induction d as [|[k0 v0] d IH]; [reflexivity|].
  cbn [Dict.set]. destruct (String.eqb k0 "path") eqn:E.
  - apply String.eqb_eq in E. subst k0. reflexivity.
  - cbn [Dict.remove]. destruct (String.eqb k0 "password").
    + apply filter_not_path_set.
    + cbn [filter]. now rewrite IH.
Qed.

Lemma remove_password_remove_path (d : entry) :
  filter not_path (Dict.remove "password" (Dict.remove "path" d))
  = filter not_path (Dict.remove "password" d).
Proof.
  induction d as [|[k0 v0] d IH]; [reflexivity|].
  cbn [Dict.remove]. destruct (String.eqb k0 "path") eqn:E.
  - apply String.eqb_eq in E. subst k0. reflexivity.
  - cbn [Dict.remove]. destruct (String.eqb k0 "password").
    + apply filter_not_path_remove.
    + cbn [filter]. now rewrite IH.
Qed.

(** C10: the text [get] returns is the password line followed by the lines
    of the fields whose key is not [path]; it is the same whatever value
    the key [path] holds, and the same as for the entry without that
    key. *)
Theorem get_excludes_path :
  forall (e : entry) (v w : value),
    content (get e)
    = (p <- as_str TypeError (Dict.get "password" (VStr "") e) ;;
       Ok (p ++ nl ++ join_lines
                        (map field_line
                           (filter not_path (Dict.remove "password" e)))))
    /\ content (get (Dict.set "path" v e))
       = content (get (Dict.set "path" w e))
    /\ content (get (Dict.set "path" v e))
       = content (get (Dict.remove "path" e)).
Proof.
  intros e v w.
  assert (G : forall u, Dict.get "password" (VStr "") (Dict.set "path" u e)
                        = Dict.get "password" (VStr "") e).
  { intros u. unfold Dict.get.
    now rewrite lookup_set_other by discriminate. }
  assert (R : Dict.get "password" (VStr "") (Dict.remove "path" e)
              = Dict.get "password" (VStr "") e).
  { unfold Dict.get. now rewrite lookup_remove_other by discriminate. }
  split; [apply content_get|].
  rewrite !content_get, !G, R, !remove_password_set_path,
    remove_password_remove_path.
  split; reflexivity.
Qed.

(** ** Reading the serialised text back *)

(** A text without newline, then a newline: the text is the first line. *)
Lemma lines_first (a b : string) :
  has_newline a = false ->
  lines (a ++ String newline b) = a :: lines b.
Proof.
  unfold has_newline.
  induction a as [|c a IH]; intros H.
  - cbn [append lines]. now rewrite Ascii.eqb_refl.
  - cbn [PyStr.mem_char] in H. apply orb_false_iff in H as [Hc Ha].
    cbn [append lines]. rewrite Hc, (IH Ha). reflexivity.
Qed.

(** A key without [": "] is what the split recovers. *)
Lemma split_colon_key (k v : string) :
  has_colon_space k = false ->
  split_colon (k ++ ": " ++ v) = Some (k, v).
Proof.
  induction k as [|c k IH]; intros H.
  - destruct v; reflexivity.
  - cbn [has_colon_space] in H. apply orb_false_iff in H as [Hp Hk].
    cbn [append split_colon].
    assert (P : String.prefix ": " (String c (k ++ ": " ++ v)) = false).
    { clear IH Hk. cbn [String.prefix] in Hp |- *.
      destruct (ascii_dec ":" c) as [E|]; [|reflexivity].
      destruct k as [|y k]; [reflexivity|].
      cbn [append String.prefix] in Hp |- *.
      destruct (ascii_dec " " y); [|reflexivity].
      destruct k; discriminate Hp. }
    change (k ++ String ":" (String " " v)) with (k ++ ": " ++ v).
    rewrite P, (IH Hk). reflexivity.
Qed.

(** The first line that carries the key [login] is the line of the entry's
    login, when the lines written before it are well formed. *)
Lemma find_login (l : string) :
  has_newline l = false ->
  forall d : entry,
    line_safe (written_before "login" d) = true ->
    Dict.lookup "login" d = Some (VStr l) ->
    find_field "login" (lines (join_lines (map field_line (filter not_path d))))
    = Some l.
Proof.
  intros Nl. induction d as [|[k v] d IH]; intros S L; [discriminate|].
  cbn [Dict.lookup] in L. cbn [written_before] in S.
  cbn [filter]. rewrite not_path_eq.
  destruct (String.eqb k "login") eqn:El.
  - apply String.eqb_eq in El. subst k. injection L as ->.
    cbn [String.eqb Ascii.eqb Bool.eqb negb map join_lines fold_right].
    unfold field_line at 1. cbn [fst snd str_of_value].
    replace (("login" ++ ": " ++ l ++ nl)
             ++ fold_right append "" (map field_line (filter not_path d)))
      with (("login" ++ ": " ++ l)
            ++ String newline
                 (join_lines (map field_line (filter not_path d)))).
    2:{ unfold nl, join_lines. rewrite !append_assoc. reflexivity. }
    rewrite lines_first.
    2:{ unfold has_newline in *. rewrite !mem_char_app, Nl. reflexivity. }
    cbn [find_field]. rewrite split_colon_key by reflexivity.
    reflexivity.
  - destruct (String.eqb k "path") eqn:Ep; cbn [negb].
    + now apply IH.
    + unfold line_safe in S. cbn [forallb fst snd] in S.
      apply andb_true_iff in S as [S0 Sd].
      apply andb_true_iff in S0 as [S0 Sv].
      apply andb_true_iff in S0 as [Sk Sc].
      apply negb_true_iff in Sk, Sc, Sv.
      cbn [map join_lines fold_right]. unfold field_line at 1. cbn [fst snd].
      replace ((k ++ ": " ++ str_of_value v ++ nl)
               ++ fold_right append "" (map field_line (filter not_path d)))
        with ((k ++ ": " ++ str_of_value v)
              ++ String newline
                   (join_lines (map field_line (filter not_path d)))).
      2:{ unfold nl, join_lines. rewrite !append_assoc. reflexivity. }
      rewrite lines_first.
      2:{ unfold has_newline in *. rewrite !mem_char_app, Sk, Sv.
          reflexivity. }
      cbn [find_field]. rewrite split_colon_key by assumption.
      rewrite El. now apply IH.
Qed.

(** C9, as stated, fails: the text is cut at a newline when it is read
    back.  A password that holds one loses what follows it; so does a
    login; a field written before the login whose value holds a newline
    followed by [login: ] is read as the login, and so is a field whose
    key starts with [login: ]. *)
Lemma roundtrip_newline_counterexample :
  (get [("password", VStr ("a" ++ nl ++ "b"))]
   = Ok ("a" ++ nl ++ "b" ++ nl, [])
   /\ decoded_password ("a" ++ nl ++ "b" ++ nl) = "a"
   /\ decoded_password ("a" ++ nl ++ "b" ++ nl) <> "a" ++ nl ++ "b")
  /\ (content (get [("password", VStr "p");
                    ("login", VStr ("a" ++ nl ++ "b"))])
      = Ok ("p" ++ nl ++ "login: a" ++ nl ++ "b" ++ nl)
      /\ decoded_field "login" ("p" ++ nl ++ "login: a" ++ nl ++ "b" ++ nl)
         = Some "a")
  /\ (content (get [("password", VStr "p");
                    ("note", VStr ("x" ++ nl ++ "login: evil"));
                    ("login", VStr "me")])
      = Ok ("p" ++ nl ++ "note: x" ++ nl ++ "login: evil" ++ nl
            ++ "login: me" ++ nl)
      /\ decoded_field "login"
           ("p" ++ nl ++ "note: x" ++ nl ++ "login: evil" ++ nl
            ++ "login: me" ++ nl)
         = Some "evil")
  /\ (content (get [("password", VStr "p"); ("login: x", VStr "y");
                    ("login", VStr "me")])
      = Ok ("p" ++ nl ++ "login: x: y" ++ nl ++ "login: me" ++ nl)
      /\ decoded_field "login"
           ("p" ++ nl ++ "login: x: y" ++ nl ++ "login: me" ++ nl)
         = Some "x: y").
Proof. repeat split; try reflexivity. discriminate. Qed.

(** C9, amended: for every entry whose password and login hold no newline
    and whose fields written before the login line (the items that come
    before [login] in the entry, [password] and [path] apart) have keys
    and values without newline and keys without [": "], [get] returns a
    text, and reading it back (first line; first [": "] of each later
    line) gives the exact password and login strings, spaces and tabs
    included.  The value of [path] and the fields written after the login
    are not constrained. *)
Theorem get_roundtrip :
  forall (e : entry) (p l : string),
    Dict.lookup "password" e = Some (VStr p) ->
    Dict.lookup "login" e = Some (VStr l) ->
    has_newline p = false ->
    has_newline l = false ->
    line_safe (written_before "login" (Dict.remove "password" e)) = true ->
    exists (s : string) (e' : entry),
      get e = Ok (s, e')
      /\ decoded_password s = p
      /\ decoded_field "login" s = Some l.
Proof.
  intros e p l P L Np Nl S.
  assert (Gp : Dict.get "password" (VStr "") e = VStr p)
    by (unfold Dict.get; now rewrite P).
  exists (p ++ String newline
                 (join_lines
                    (map field_line
                       (filter not_path (Dict.remove "password" e))))).
  exists (Dict.remove "password" e).
  split.
  - unfold get. cbn [Dict.pop fst snd]. rewrite Gp. cbn [as_str bind].
    rewrite fold_get_line. unfold nl. now rewrite append_assoc.
  - unfold decoded_password, decoded_field.
    rewrite (lines_first _ _ Np). cbn [hd tl]. split; [reflexivity|].
    apply find_login; [exact Nl | exact S |].
    now rewrite lookup_remove_other by discriminate.
Qed.

Lemma get_roundtrip_witness :
  exists (s : string) (e' : entry),
    get [("title", VStr "t"); ("password", VStr " p w ");
         ("path", VStr ("x" ++ nl ++ "y")); ("login", VStr "me  too");
         ("comments", VStr ("one" ++ nl ++ "login: two"))]
    = Ok (s, e')
    /\ decoded_password s = " p w "
    /\ decoded_field "login" s = Some "me  too".
Proof.
  apply (get_roundtrip
           [("title", VStr "t"); ("password", VStr " p w ");
            ("path", VStr ("x" ++ nl ++ "y")); ("login", VStr "me  too");
            ("comments", VStr ("one" ++ nl ++ "login: two"))]
           " p w " "me  too");
    reflexivity.
Defined.

(** ** 1PIF: where a value is taken from *)

Lemma scan_fields_outcome (jsonkey : string) :
  forall (fs : list json) (v : json) (fs' : list json),
    scan_fields jsonkey fs = Ok (v, fs') ->
    fields_outcome jsonkey fs v fs'.
Proof.
  induction fs as [|f fs IH]; intros v fs' H; cbn [scan_fields] in H.
  - inversion H; subst. right. repeat split. constructor.
  - bind_inv H. destruct a.
    + inversion H; subst. left. exists [], f, fs'.
      repeat split; [constructor | exact Ha].
    + bind_inv H. inversion H; subst.
      destruct a as [v0 fs0]. cbn [fst snd].
      destruct (IH _ _ Ha0) as [(pre & g & post & E & Fp & Ng & Ev & E')
                               |(Fa & Ev & E')].
      * left. exists (f :: pre), g, post. subst.
        repeat split; [constructor; assumption | exact Ng].
      * right. subst. repeat split. constructor; assumption.
Qed.

Lemma lookup_remove_absent {V : Type} (k k' : string) (d : Dict.t V) :
  NoDup (Dict.keys d) ->
  Dict.lookup k d = None -> Dict.lookup k (Dict.remove k' d) = None.
Proof.
  intros ND H. destruct (string_dec k k') as [->|N].
  - now apply lookup_remove_same.
  - now rewrite lookup_remove_other.
Qed.

Lemma getvalue_sources (jsonkey : string) (src src' : sources) (v : json) :
  _getvalue jsonkey src = Ok (v, src') ->
  item src' = Dict.remove jsonkey (item src)
  /\ scontent src' = Dict.remove jsonkey (scontent src).
Proof.
  unfold _getvalue. cbn [Dict.pop fst snd].
  destruct (is_none _); intros H.
  - bind_inv H. inversion H; subst. now split.
  - inversion H; subst. now split.
Qed.

(** A key that the loop over the canonical keys has met, or that was
    absent, is absent from both dictionaries when the loop ends. *)
Lemma getvalues_absent (keys : Dict.t string) (k : string) :
  forall (ks : list string) (en : Dict.t json) (src : sources)
         (en' : Dict.t json) (src' : sources),
    NoDup (Dict.keys (item src)) ->
    NoDup (Dict.keys (scontent src)) ->
    getvalues keys ks en src = Ok (en', src') ->
    (Dict.lookup k (item src) = None /\ Dict.lookup k (scontent src) = None)
    \/ (exists key, In key ks /\ Dict.get key "" keys = k) ->
    Dict.lookup k (item src') = None /\ Dict.lookup k (scontent src') = None.
Proof.
  induction ks as [|key0 ks IH]; intros en src en' src' Ni Ns H Hk;
    cbn [getvalues] in H.
  - inversion H; subst. destruct Hk as [Hk|(key & [] & _)]. exact Hk.
  - bind_inv H. destruct a as [v0 src0]. cbn [fst snd] in H.
    destruct (getvalue_sources _ _ _ _ Ha) as [Ei Es].
    apply (IH _ _ _ _ ltac:(rewrite Ei; now apply NoDup_keys_remove)
                      ltac:(rewrite Es; now apply NoDup_keys_remove) H).
    rewrite Ei, Es.
    destruct Hk as [[Hi Hs]|(key & [<-|Hin] & Hkey)].
    + left. split; now apply lookup_remove_absent.
    + left. subst k. split; now apply lookup_remove_same.
    + right. now exists key.
Qed.

(** C7, as stated, fails: a key present both at top level and in the
    secure contents yields the value of the secure contents. *)
Lemma getvalue_prefers_secure_contents :
  _getvalue "title" two_titles
  = Ok (JStr "inner",
        {| item := [("uuid", JStr "u")];
           scontent := [("password", JStr "pw")];
           fields := [JObj [("name", JStr "username");
                            ("value", JStr "me")]] |})
  /\ Dict.lookup "title" (item two_titles) = Some (JStr "top")
  /\ fst (Dict.pop "title" JNull (item two_titles)) <> JStr "inner".
Proof. repeat split; try reflexivity. discriminate. Qed.

(** C7, amended: [_getvalue] takes the value from the secure contents when
    the key is there, otherwise from the top-level keys; when that value is
    [None] (or the key is in neither), it takes the value of the first
    field object of that name and removes this object from the list.  The
    key is removed from the top-level keys and from the secure contents,
    other keys are untouched, and once the loop over the canonical keys
    has run, no native key mapped to a canonical key is left in either
    dictionary for the collection of extra fields. *)
Theorem getvalue_precedence :
  forall (jsonkey : string) (src src' : sources) (v : json)
         (keys : Dict.t string) (en' : Dict.t json) (src'' : sources),
    NoDup (Dict.keys (item src)) ->
    NoDup (Dict.keys (scontent src)) ->
    _getvalue jsonkey src = Ok (v, src') ->
    getvalues keys keyslist [] src = Ok (en', src'') ->
    match Dict.lookup jsonkey (scontent src), Dict.lookup jsonkey (item src)
    with
    | Some x, _ | None, Some x =>
        if is_none x
        then fields_outcome jsonkey (fields src) v (fields src')
        else v = x /\ fields src' = fields src
    | None, None => fields_outcome jsonkey (fields src) v (fields src')
    end
    /\ Dict.lookup jsonkey (item src') = None
    /\ Dict.lookup jsonkey (scontent src') = None
    /\ (forall k, k <> jsonkey ->
          Dict.lookup k (item src') = Dict.lookup k (item src)
          /\ Dict.lookup k (scontent src') = Dict.lookup k (scontent src))
    /\ (forall key, In key keyslist ->
          Dict.lookup (Dict.get key "" keys) (item src'') = None
          /\ Dict.lookup (Dict.get key "" keys) (scontent src'') = None).
Proof.
  intros jsonkey src src' v keys en' src'' Ni Ns H HL.
  destruct (getvalue_sources _ _ _ _ H) as [Ei Es].
  split; [|split; [|split; [|split]]].
  - unfold _getvalue in H. cbn [Dict.pop fst snd] in H.
    unfold Dict.get in H.
    destruct (Dict.lookup jsonkey (scontent src)) as [x|];
      [|destruct (Dict.lookup jsonkey (item src)) as [x|]].
    + destruct (is_none x).
      * bind_inv H. inversion H; subst. cbn [fields].
        destruct a. now apply scan_fields_outcome.
      * inversion H; subst. now split.
    + destruct (is_none x).
      * bind_inv H. inversion H; subst. cbn [fields].
        destruct a. now apply scan_fields_outcome.
      * inversion H; subst. now split.
    + cbn [is_none] in H.
      bind_inv H. inversion H; subst. cbn [fields].
      destruct a. now apply scan_fields_outcome.
  - rewrite Ei. now apply lookup_remove_same.
  - rewrite Es. now apply lookup_remove_same.
  - intros k N. rewrite Ei, Es. split; now apply lookup_remove_other.
  - intros key Hin.
    apply (getvalues_absent keys _ keyslist [] src en' src'' Ni Ns HL).
    right. now exists key.
Qed.

Lemma getvalue_precedence_witness :
  (JStr "inner" = JStr "inner"
   /\ [JObj [("name", JStr "username"); ("value", JStr "me")]]
      = fields two_titles)
  /\ Dict.lookup "title" [("uuid", JStr "u")] = None
  /\ Dict.lookup "title" [("password", JStr "pw")] = None.
Proof.
  pose proof
    (getvalue_precedence "title" two_titles
       {| item := [("uuid", JStr "u")];
          scontent := [("password", JStr "pw")];
          fields := [JObj [("name", JStr "username");
                           ("value", JStr "me")]] |}
       (JStr "inner") OnePassword4PIF_keys
       [("title", JStr "inner"); ("password", JStr "pw");
        ("login", JStr "me"); ("url", JNull); ("comments", JNull);
        ("group", JNull); ("binary", JNull)]
       {| item := [("uuid", JStr "u")]; scontent := []; fields := [] |})
    as W.
  destruct W as (W1 & W2 & W3 & _).
  - repeat constructor; simpl; intuition discriminate.
  - repeat constructor; simpl; intuition discriminate.
  - reflexivity.
  - reflexivity.
  - repeat split; assumption.
Defined.

(** * Further properties of the code *)

(** ** The normaliser, character by character *)

(** A table of one-character patterns whose replacements the later rules
    leave alone maps a character to the replacement of its first rule. *)
Lemma replaces_single (T : Dict.t string) :
  single_keys T = true -> fixed_tail T ->
  forall c : ascii,
    _replaces T (String c EmptyString)
    = Dict.get (String c EmptyString) (String c EmptyString) T.
Proof.
  induction T as [|[k v] T IH]; intros HT HF c; [reflexivity|].
  simpl in HT. apply andb_true_iff in HT as [Hk HT].
  destruct (single_key_inv k Hk) as [x ->].
  destruct HF as [Hv HF].
  rewrite replaces_cons, replace_char. cbn [PyStr.concat_map].
  rewrite append_nil_r. unfold subst1, Dict.get. cbn [Dict.lookup].
  destruct (Ascii.eqb c x) eqn:E.
  - apply Ascii.eqb_eq in E. subst x.
    now rewrite String.eqb_refl.
  - assert (String.eqb (String x "") (String c "") = false) as ->.
    { apply String.eqb_neq. intros H. inversion H. subst.
      now rewrite Ascii.eqb_refl in E. }
    apply (IH HT HF).
Qed.

Lemma existsb_In_string (k : string) (l : list string) :
  existsb (String.eqb k) l = true -> In k l.
Proof.
  intros H. apply existsb_exists in H as (x & Hx & E).
  apply String.eqb_eq in E. now subst.
Qed.

Lemma no_invalid_but_slash_absent (s : string) (c : ascii) :
  no_invalid_but_slash s = true -> is_invalid c = true -> c <> "/"%char ->
  PyStr.mem_char c s = false.
Proof.
  intros Hs Hc Hn.
  induction s as [|x s IH]; [reflexivity|].
  cbn [no_invalid_but_slash] in Hs. apply andb_true_iff in Hs as [Hx Hs].
  cbn [PyStr.mem_char]. rewrite (IH Hs), orb_false_r.
  apply Ascii.eqb_neq. intros ->.
  apply orb_true_iff in Hx as [Hx|Hx].
  - apply Ascii.eqb_eq in Hx. contradiction.
  - rewrite Hc in Hx. discriminate.
Qed.

Lemma no_invalid_is_but_slash (s : string) :
  no_invalid s = true -> no_invalid_but_slash s = true.
Proof.
  induction s as [|x s IH]; [reflexivity|].
  cbn [no_invalid no_invalid_but_slash]. unfold is_invalid.
  intros H. apply andb_true_iff in H as [Hx Hs].
  now rewrite Hx, orb_true_r, IH.
Qed.

(** X1: with a separator free of invalid characters, [_convert] replaces
    each invalid character by the separator and leaves every other
    character alone, so that its result holds no invalid character. *)
Theorem convert_by_char :
  forall separator s : string,
    no_invalid separator = true ->
    _convert separator s = PyStr.concat_map (convert_char separator) s
    /\ no_invalid (_convert separator s) = true.
Proof.
  intros separator s Hsep. split; [|now apply convert_no_invalid].
  unfold _convert.
  rewrite replaces_pointwise by (now rewrite convert_table).
  apply concat_map_ext. intros c.
  rewrite replaces_single.
  - rewrite convert_table. unfold convert_char, is_invalid.
    destruct c as [[] [] [] [] [] [] [] []]; reflexivity.
  - now rewrite convert_table.
  - rewrite convert_table. cbn [fixed_tail].
    repeat split;
      apply replaces_fixed; intros k v Hin; simpl in Hin;
      repeat (destruct Hin as [Hin|Hin];
              [injection Hin as <- <-; eexists;
               split; [reflexivity|];
               refine (no_invalid_absent separator _ _ Hsep _ eq_refl);
               apply existsb_In_string; reflexivity |]);
      contradiction.
Qed.

Lemma convert_by_char_witness :
  _convert "-" "a:b" = PyStr.concat_map (convert_char "-") "a:b"
  /\ no_invalid (_convert "-" "a:b") = true.
Proof. apply (convert_by_char "-" "a:b"). reflexivity. Defined.

Lemma replace_char_self (c : ascii) (s : string) :
  PyStr.replace (String c EmptyString) (String c EmptyString) s = s.
Proof.
  rewrite replace_char.
  induction s as [|x s IH]; [reflexivity|].
  cbn [PyStr.concat_map]. rewrite IH. unfold subst1.
  destruct (Ascii.eqb x c) eqn:E; [|reflexivity].
  apply Ascii.eqb_eq in E. now subst.
Qed.

(** A table whose patterns are absent, or replaced by themselves, leaves
    the string alone. *)
Lemma replaces_fixed_or (T : Dict.t string) (s : string) :
  (forall k v, In (k, v) T ->
     exists c, k = String c EmptyString
               /\ (PyStr.mem_char c s = false \/ v = String c EmptyString)) ->
  _replaces T s = s.
Proof.
  induction T as [|[k v] T IH]; intros H; [reflexivity|].
  rewrite replaces_cons.
  destruct (H k v (or_introl eq_refl)) as (c & -> & [Hc| ->]).
  - rewrite (replace_char_absent _ _ _ Hc).
    apply IH. intros k' v' Hin. apply (H k' v'). now right.
  - rewrite replace_char_self.
    apply IH. intros k' v' Hin. apply (H k' v'). now right.
Qed.

(** The table of [_clean_group], evaluated. *)
Lemma group_table (sep : string) :
  Dict.set bslash os_sep (Dict.set "/" os_sep (dict_const invalids sep))
  = [("<", sep); (">", sep); (":", sep); (dquote, sep); ("/", "/");
     (bslash, "/"); ("|", sep); ("?", sep); ("*", sep); (nul, sep)].
Proof. reflexivity. Qed.

Lemma no_invalid_but_slash_app (a b : string) :
  no_invalid_but_slash (a ++ b)
  = no_invalid_but_slash a && no_invalid_but_slash b.
Proof.
  induction a as [|x a IH]; [reflexivity|].
  cbn [append no_invalid_but_slash]. now rewrite IH, andb_assoc.
Qed.

Lemma no_invalid_but_slash_concat_map (f : ascii -> string) (s : string) :
  (forall c, no_invalid_but_slash (f c) = true) ->
  no_invalid_but_slash (PyStr.concat_map f s) = true.
Proof.
  intros H. induction s as [|x s IH]; [reflexivity|].
  cbn [PyStr.concat_map]. now rewrite no_invalid_but_slash_app, H, IH.
Qed.

Lemma group_char_cases (sep : string) (c : ascii) :
  group_char sep c = sep \/ group_char sep c = "/"
  \/ (group_char sep c = String c EmptyString /\ is_invalid c = false).
Proof.
  unfold group_char.
  destruct (Ascii.eqb c "/" || String.eqb (String c "") bslash);
    [right; now left|].
  destruct (is_invalid c); [now left | right; right; now split].
Qed.

(** X2: with a separator that holds no invalid character other than
    ['/'], [_clean_group] turns ['/'] and the backslash into the path
    separator, every other invalid character into the separator, and
    leaves the rest alone; the only invalid character its result can hold
    is ['/']. *)
Theorem clean_group_by_char :
  forall separator s : string,
    no_invalid_but_slash separator = true ->
    _clean_group separator s = PyStr.concat_map (group_char separator) s
    /\ no_invalid_but_slash (_clean_group separator s) = true.
Proof.
  intros separator s Hsep.
  assert (E : _clean_group separator s
              = PyStr.concat_map (group_char separator) s).
  { unfold _clean_group. cbv zeta. rewrite group_table.
    rewrite replaces_pointwise by reflexivity.
    apply concat_map_ext. intros c.
    rewrite replaces_single.
    - unfold group_char, is_invalid.
      destruct c as [[] [] [] [] [] [] [] []]; reflexivity.
    - reflexivity.
    - cbn [fixed_tail].
      repeat split;
        apply replaces_fixed_or; intros k v Hin; simpl in Hin;
        repeat (destruct Hin as [Hin|Hin];
                [injection Hin as <- <-; eexists;
                 split; [reflexivity|];
                 first [ right; reflexivity
                       | left; reflexivity
                       | left;
                         apply (no_invalid_but_slash_absent separator);
                         [exact Hsep | reflexivity | discriminate] ] |]);
        contradiction. }
  split; [exact E|]. rewrite E.
  apply no_invalid_but_slash_concat_map. intros c.
  destruct (group_char_cases separator c) as [-> | [-> | [-> Hc]]].
  - exact Hsep.
  - reflexivity.
  - cbn [no_invalid_but_slash]. now rewrite Hc, orb_true_r.
Qed.

Lemma clean_group_by_char_witness :
  _clean_group "-" "a/b:c" = PyStr.concat_map (group_char "-") "a/b:c"
  /\ no_invalid_but_slash (_clean_group "-" "a/b:c") = true.
Proof. apply (clean_group_by_char "-" "a/b:c"). reflexivity. Defined.

(** ** Protocol prefixes *)

Lemma prefix_app (a s : string) : String.prefix a (a ++ s) = true.
Proof.
  induction a as [|x a IH]; [now destruct s|].
  cbn [append String.prefix].
  destruct (ascii_dec x x) as [_|N]; [exact IH | contradiction].
Qed.

Lemma replace_from_skip (old new : string) :
  forall (t s : string),
    PyStr.replace_from old new (String.length t) (t ++ s)
    = PyStr.replace_from old new 0 s.
Proof.
  induction t as [|x t IH]; intros s; [reflexivity|].
  cbn [String.length append PyStr.replace_from]. apply IH.
Qed.

(** A leading occurrence of the pattern is replaced, and the scan goes on
    after it. *)
Lemma replace_leading (old new s : string) :
  old <> "" ->
  PyStr.replace old new (old ++ s) = new ++ PyStr.replace old new s.
Proof.
  destruct old as [|a o]; [congruence|]. intros _.
  unfold PyStr.replace.
  change (String a o ++ s) with (String a (o ++ s)).
  cbn [PyStr.replace_from].
  change (String a (o ++ s)) with (String a o ++ s).
  rewrite prefix_app.
  cbn [String.length Nat.sub]. rewrite Nat.sub_0_r.
  now rewrite replace_from_skip.
Qed.

Lemma prefix_mem_char (c : ascii) :
  forall old s : string,
    String.prefix old s = true ->
    PyStr.mem_char c old = true -> PyStr.mem_char c s = true.
Proof.
  induction old as [|a old IH]; intros s P M; [discriminate|].
  destruct s as [|x s]; [discriminate|].
  cbn [String.prefix] in P.
  destruct (ascii_dec a x) as [->|]; [|discriminate].
  cbn [PyStr.mem_char] in *.
  apply orb_true_iff in M as [M|M].
  - now rewrite M.
  - rewrite (IH _ P M). apply orb_true_r.
Qed.

(** A pattern with a character the string lacks occurs nowhere in it. *)
Lemma replace_missing_char (c : ascii) (old new s : string) :
  PyStr.mem_char c old = true -> PyStr.mem_char c s = false ->
  PyStr.replace old new s = s.
Proof.
  intros Mo Ms. unfold PyStr.replace.
  destruct old as [|a o]; [discriminate|].
  induction s as [|x s IH]; [reflexivity|].
  cbn [PyStr.replace_from].
  destruct (String.prefix (String a o) (String x s)) eqn:P.
  - pose proof (prefix_mem_char c _ _ P Mo). congruence.
  - cbn [PyStr.mem_char] in Ms. apply orb_false_iff in Ms as [_ Ms].
    now rewrite (IH Ms).
Qed.

Lemma protocol_table :
  dict_const protocols "" = [("http://", ""); ("https://", "")].
Proof. reflexivity. Qed.

(** X3: [_clean_protocol] drops a leading [http://] or [https://], and a
    string without a colon comes back unchanged. *)
Theorem clean_protocol_prefix :
  forall s t : string,
    PyStr.mem_char ":" t = false ->
    _clean_protocol ("http://" ++ s) = _clean_protocol s
    /\ _clean_protocol ("https://" ++ s) = _clean_protocol s
    /\ _clean_protocol t = t.
Proof.
  intros s t Ht. unfold _clean_protocol. rewrite protocol_table.
  rewrite !replaces_cons. cbn [_replaces fold_left].
  split; [|split].
  - now rewrite replace_leading by discriminate.
  - assert (E : PyStr.replace "http://" "" ("https://" ++ s)
                = "https://" ++ PyStr.replace "http://" "" s)
      by reflexivity.
    rewrite E. now rewrite replace_leading by discriminate.
  - rewrite (replace_missing_char ":" "http://" "" t)
      by (reflexivity || exact Ht).
    now apply (replace_missing_char ":").
Qed.

Lemma clean_protocol_prefix_witness :
  _clean_protocol ("http://" ++ "example.com") = _clean_protocol "example.com"
  /\ _clean_protocol ("https://" ++ "example.com")
     = _clean_protocol "example.com"
  /\ _clean_protocol "bank" = "bank".
Proof. apply (clean_protocol_prefix "example.com" "bank"). reflexivity. Defined.

(** X4: a name cleaned by [_clean_cmdline] holds no space, ampersand, at
    sign, apostrophe, square bracket or slash. *)
Theorem clean_cmdline_chars :
  forall s : string,
    Forall (fun c => PyStr.mem_char c (_clean_cmdline s) = false)
      cleaned_chars.
Proof.
  intros s. unfold _clean_cmdline, cleaned_chars.
  repeat constructor;
    match goal with
    | |- PyStr.mem_char ?c _ = false =>
        apply replaces_absent;
        [ reflexivity
        | intros k v Hin; simpl in Hin;
          repeat (destruct Hin as [Hin|Hin];
                  [injection Hin as <- <-; reflexivity |]);
          contradiction
        | right; eexists; simpl; tauto ]
    end.
Qed.

(** ** The leaf of a path *)

Lemma first_present_cases (e : entry) :
  first_present ["title"; "login"; "url"] e
  = match Dict.lookup "title" e, Dict.lookup "login" e, Dict.lookup "url" e
    with
    | Some v, _, _ | None, Some v, _ | None, None, Some v => Some v
    | None, None, None => None
    end.
Proof.
  cbn [first_present].
  destruct (Dict.lookup "title" e), (Dict.lookup "login" e),
    (Dict.lookup "url" e); reflexivity.
Qed.

(** [_create_path] by the key that gives the leaf. *)
Lemma create_path_cases :
  forall (separator : string) (e : entry) (p : string) (cl cv : bool),
    _create_path separator e (VStr p) cl cv
    = match Dict.lookup "title" e, Dict.lookup "login" e, Dict.lookup "url" e
      with
      | Some v, _, _ | None, Some v, _ | None, None, Some v =>
          s <- as_str AttributeError v ;;
          Ok (leaf_path p (leaf_of separator cl cv s), Dict.remove "title" e)
      | None, None, None =>
          Ok (PyStr.path_join p "notitle", Dict.remove "title" e)
      end.
Proof.
  intros separator e p cl cv.
  unfold _create_path. rewrite first_present_cases.
  assert (V : forall v,
             (r <- (s <- as_str AttributeError v ;;
                    let title := _clean_protocol s in
                    let title := if cl then _clean_cmdline title else title in
                    let title :=
                      if cv then _convert separator title else title in
                    p0 <- as_str TypeError (VStr p) ;;
                    Ok (title, VStr (PyStr.path_join p0 title))) ;;
              p0 <- (if String.eqb (fst r) ""
                     then p1 <- as_str TypeError (snd r) ;;
                          Ok (PyStr.path_join p1 "notitle")
                     else as_str TypeError (snd r)) ;;
              Ok (p0, snd (Dict.pop "title" (VStr "") e)))
             = (s <- as_str AttributeError v ;;
                Ok (leaf_path p (leaf_of separator cl cv s),
                    Dict.remove "title" e))).
  { intros [|s]; [reflexivity|].
    cbn [as_str bind fst snd Dict.pop]. unfold leaf_path, leaf_of.
    destruct (String.eqb _ ""); reflexivity. }
  destruct (Dict.lookup "title" e) as [v|];
    [apply V|destruct (Dict.lookup "login" e) as [v|];
    [apply V|destruct (Dict.lookup "url" e) as [v|]; [apply V|reflexivity]]].
Qed.

Lemma no_invalid_not_absolute (leaf : string) :
  no_invalid leaf = true -> PyStr.startswith "/" leaf = false.
Proof.
  destruct leaf as [|c leaf]; [reflexivity|].
  unfold PyStr.startswith. cbn [no_invalid String.prefix].
  destruct (ascii_dec "/" c) as [<-|]; [discriminate | reflexivity].
Qed.

Lemma endswith_char_app (c : ascii) (s : string) :
  PyStr.endswith_char c (s ++ String c "") = true.
Proof.
  induction s as [|x s IH]; [apply Ascii.eqb_refl|].
  cbn [append PyStr.endswith_char].
  destruct (s ++ String c "") eqn:E; [destruct s; discriminate|].
  exact IH.
Qed.

Lemma path_join_relative (p leaf : string) :
  PyStr.startswith "/" leaf = false ->
  PyStr.path_join p leaf = one_level p leaf.
Proof. unfold PyStr.path_join, one_level. now intros ->. Qed.

(** An empty leaf is replaced by [notitle], one level below the folder. *)
Lemma leaf_path_empty (p : string) : leaf_path p "" = one_level p "notitle".
Proof.
  unfold leaf_path. cbn [String.eqb].
  rewrite (path_join_relative p "") by reflexivity.
  rewrite path_join_relative by reflexivity.
  assert (E : one_level p "" = if String.eqb p "" || PyStr.endswith_char "/" p
                               then p else p ++ "/").
  { unfold one_level. rewrite append_nil_r. reflexivity. }
  rewrite E. clear E.
  destruct (String.eqb p "" || PyStr.endswith_char "/" p) eqn:B.
  - unfold one_level. now rewrite B.
  - unfold one_level at 1. rewrite endswith_char_app, orb_true_r.
    rewrite append_assoc. unfold one_level. now rewrite B.
Qed.

Lemma leaf_path_placed (p leaf : string) : placed p leaf (leaf_path p leaf).
Proof.
  unfold placed, leaf_path. split.
  - intros A. destruct leaf as [|c leaf]; [discriminate|].
    cbn [String.eqb]. unfold PyStr.path_join. now rewrite A.
  - intros A N. destruct leaf as [|c leaf]; [congruence|].
    cbn [String.eqb]. now apply path_join_relative.
Qed.

(** X5: with the convert flag and a separator free of invalid
    characters, [_create_path] extends the folder by exactly one level:
    the path is the folder, a slash (unless the folder is empty or ends
    in one) and a leaf that is not empty and holds no invalid character,
    the slash among them.  A title, a login or a url can then neither add
    a folder nor take the place of the folder. *)
Theorem create_path_one_level :
  forall (separator : string) (e e' : entry) (p q : string) (cl : bool),
    no_invalid separator = true ->
    _create_path separator e (VStr p) cl true = Ok (q, e') ->
    exists leaf : string,
      leaf <> "" /\ no_invalid leaf = true /\ q = one_level p leaf.
Proof.
  intros separator e e' p q cl Hsep H.
  rewrite create_path_cases in H.
  assert (V : forall v,
             (s <- as_str AttributeError v ;;
              Ok (leaf_path p (leaf_of separator cl true s),
                  Dict.remove "title" e)) = Ok (q, e') ->
             exists leaf : string,
               leaf <> "" /\ no_invalid leaf = true
               /\ q = one_level p leaf).
  { clear H. intros [|s] Hv; [discriminate|]. cbn [as_str bind] in Hv.
    assert (Hq : q = leaf_path p (leaf_of separator cl true s))
      by congruence.
    clear Hv. subst q.
    assert (N : no_invalid (leaf_of separator cl true s) = true)
      by (unfold leaf_of; now apply convert_no_invalid).
    destruct (leaf_of separator cl true s) as [|c leaf] eqn:E.
    - exists "notitle". rewrite leaf_path_empty.
      split; [discriminate|]. split; reflexivity.
    - exists (String c leaf).
      split; [discriminate|]. split; [exact N|].
      unfold leaf_path. cbn [String.eqb].
      now apply path_join_relative, no_invalid_not_absolute. }
  destruct (Dict.lookup "title" e) as [v|];
    [exact (V v H)|destruct (Dict.lookup "login" e) as [v|];
    [exact (V v H)|destruct (Dict.lookup "url" e) as [v|];
    [exact (V v H)|]]].
  assert (Hq : q = PyStr.path_join p "notitle") by congruence.
  exists "notitle". split; [discriminate|]. split; [reflexivity|].
  rewrite Hq. now apply path_join_relative.
Qed.

Lemma create_path_one_level_witness :
  exists leaf : string,
    leaf <> "" /\ no_invalid leaf = true
    /\ "Bank/-etc-passwd" = one_level "Bank" leaf.
Proof.
  apply (create_path_one_level "-" [("title", VStr "/etc/passwd")]
           [] "Bank" "Bank/-etc-passwd" false); reflexivity.
Defined.

(** ** The numeric-suffix pass on well-behaved batches *)

Section NumeriseMore.

Variable re_search : string -> string -> result bool.

Lemma numerise_for_distinct (fuel : nat) (separator : string) :
  forall (data : list entry) (seen : list value),
    NoDup (seen ++ map entry_path data)%list ->
    numerise_for re_search fuel separator seen data = Ok data.
Proof.
  induction data as [|e rest IH]; intros seen ND; [reflexivity|].
  cbn [numerise_for map] in *.
  assert (M : mem_value (entry_path e) seen = false).
  { destruct (mem_value (entry_path e) seen) eqn:E; [|reflexivity].
    apply mem_value_In in E. apply NoDup_remove_2 in ND.
    exfalso. apply ND. apply in_or_app. now left. }
  rewrite M, IH; [reflexivity|].
  now rewrite <- app_assoc.
Qed.

Lemma numerise_for_renamed (fuel : nat) (separator : string) :
  forall (data : list entry) (seen : list value) (data' : list entry),
    numerise_for re_search fuel separator seen data = Ok data' ->
    Forall2 renamed data data'.
Proof.
  induction data as [|e rest IH]; intros seen data' H; cbn [numerise_for] in H.
  - inversion H. constructor.
  - destruct (mem_value (entry_path e) seen).
    + bind_inv H. bind_inv H. inversion H; subst.
      constructor; [right; now exists a | eapply IH; eassumption].
    + bind_inv H. inversion H; subst.
      constructor; [now left | eapply IH; eassumption].
Qed.

End NumeriseMore.

(** X6: on a batch whose paths are pairwise distinct, the numeric-suffix
    pass changes nothing and completes whatever the bound on its loop,
    which it never enters. *)
Theorem numerise_distinct_unchanged :
  forall (re_search : string -> string -> result bool) (fuel : nat)
         (separator : string) (data : list entry),
    NoDup (map entry_path data) ->
    _duplicate_numerise re_search fuel separator data = Ok data.
Proof.
  intros re_search fuel separator data ND.
  unfold _duplicate_numerise. now apply numerise_for_distinct.
Qed.

Lemma numerise_distinct_unchanged_witness :
  _duplicate_numerise re_literal 0 "-"
    [[("path", VStr "a")]; [("path", VStr "b")]]
  = Ok [[("path", VStr "a")]; [("path", VStr "b")]].
Proof.
  apply (numerise_distinct_unchanged re_literal 0 "-"
           [[("path", VStr "a")]; [("path", VStr "b")]]).
  repeat constructor; simpl; intuition discriminate.
Defined.

(** X7: when the numeric-suffix pass completes, each entry is either
    untouched or has its [path] reassigned (no other key, and no order,
    changes), and the first entry of the batch is always untouched. *)
Theorem numerise_only_renames :
  forall (re_search : string -> string -> result bool) (fuel : nat)
         (separator : string) (data data' : list entry),
    _duplicate_numerise re_search fuel separator data = Ok data' ->
    Forall2 renamed data data'
    /\ (forall e e' k, renamed e e' -> k <> "path" ->
          Dict.lookup k e' = Dict.lookup k e)
    /\ hd_error data' = hd_error data.
Proof.
  intros re_search fuel separator data data' H.
  unfold _duplicate_numerise in H. split; [|split].
  - eapply numerise_for_renamed; eassumption.
  - intros e e' k [->|[p ->]] N; [reflexivity|].
    now apply lookup_set_other.
  - destruct data as [|e rest]; cbn [numerise_for] in H.
    + now inversion H.
    + cbn [mem_value existsb] in H. bind_inv H. now inversion H.
Qed.

Lemma numerise_only_renames_witness :
  Forall2 renamed
    [[("login", VStr "x"); ("path", VStr "a")];
     [("login", VStr "y"); ("path", VStr "a")]]
    [[("login", VStr "x"); ("path", VStr "a")];
     [("login", VStr "y"); ("path", VStr "a-1")]].
Proof.
  apply (numerise_only_renames re_literal 1 "-"
           [[("login", VStr "x"); ("path", VStr "a")];
            [("login", VStr "y"); ("path", VStr "a")]]
           [[("login", VStr "x"); ("path", VStr "a")];
            [("login", VStr "y"); ("path", VStr "a-1")]]).
  reflexivity.
Defined.

(** *** The lowest free suffix *)

Lemma all_digits_string_of_uint (d : Decimal.uint) :
  all_digits (NilEmpty.string_of_uint d) = true.
Proof. induction d; simpl; auto. Qed.

Lemma all_digits_to_end (s : string) :
  all_digits s = true -> digits_to_end s = true.
Proof.
  induction s as [|c s IH]; [reflexivity|].
  cbn [all_digits digits_to_end]. intros H.
  apply andb_true_iff in H as [Hc Hs]. now rewrite Hc, IH.
Qed.

Lemma str_nonempty (n : nat) : 1 <= n -> PyStr.str n <> "".
Proof.
  intros Hn E. pose proof (str_not_zero_prefix n Hn) as P.
  rewrite E in P. discriminate.
Qed.

Lemma str_digits1 (n : nat) : 1 <= n -> digits1_to_end (PyStr.str n) = true.
Proof.
  intros Hn. pose proof (str_nonempty n Hn) as NE.
  pose proof (all_digits_string_of_uint (Nat.to_uint n)) as D.
  fold (PyStr.str n) in D.
  destruct (PyStr.str n) as [|c s]; [congruence|].
  cbn [all_digits] in D. apply andb_true_iff in D as [Dc Ds].
  cbn [digits1_to_end]. now rewrite Dc, all_digits_to_end.
Qed.

Lemma drop_app (a s : string) : drop (String.length a) (a ++ s) = s.
Proof. induction a as [|x a IH]; [now destruct s | exact IH]. Qed.

Lemma re_search_literal_here (separator s : string) :
  digits1_to_end s = true ->
  re_search_literal separator (separator ++ s) = true.
Proof.
  intros D.
  assert (E : String.prefix separator (separator ++ s)
              && digits1_to_end (drop (String.length separator)
                                   (separator ++ s)) = true)
    by now rewrite prefix_app, drop_app, D.
  destruct (separator ++ s); cbn [re_search_literal]; now rewrite E.
Qed.

Lemma re_search_literal_app (separator t : string) :
  re_search_literal separator t = true ->
  forall p, re_search_literal separator (p ++ t) = true.
Proof.
  intros H. induction p as [|x p IH]; [exact H|].
  cbn [append re_search_literal]. rewrite IH. apply orb_true_r.
Qed.

(** A path without the dash is not found by the search. *)
Lemma re_search_literal_no_dash (p : string) :
  PyStr.mem_char "-" p = false -> re_search_literal "-" p = false.
Proof.
  induction p as [|x p IH]; intros H; [reflexivity|].
  cbn [PyStr.mem_char] in H. apply orb_false_iff in H as [Hx Hp].
  cbn [re_search_literal String.prefix]. rewrite (IH Hp).
  destruct (ascii_dec "-" x) as [<-|]; [discriminate|reflexivity].
Qed.

(** Replacing a suffix whose first character occurs nowhere before it. *)
Lemma replace_suffix (c : ascii) (o new p : string) :
  PyStr.mem_char c p = false ->
  PyStr.replace (String c o) new (p ++ String c o) = p ++ new.
Proof.
  intros H. induction p as [|x p IH].
  - cbn [append].
    rewrite <- (append_nil_r (String c o)) at 2.
    rewrite replace_leading by discriminate.
    cbn. now rewrite append_nil_r.
  - cbn [PyStr.mem_char] in H. apply orb_false_iff in H as [Hx Hp].
    specialize (IH Hp). unfold PyStr.replace in *.
    cbn [append PyStr.replace_from String.prefix].
    destruct (ascii_dec c x) as [->|];
      [now rewrite Ascii.eqb_refl in Hx|].
    now rewrite IH.
Qed.

Lemma numerise_counter (p : string) (seen : list value) (k : nat) :
  PyStr.mem_char "-" p = false ->
  ~ In (VStr (p ++ "-" ++ PyStr.str k)) seen ->
  forall n j fuel,
    k = j + n -> 1 <= j -> n <= fuel ->
    (forall i, j <= i < k -> In (VStr (p ++ "-" ++ PyStr.str i)) seen) ->
    numerise_while re_literal fuel "-" seen
      (VStr (p ++ "-" ++ PyStr.str j)) j
    = Ok (VStr (p ++ "-" ++ PyStr.str k)).
Proof.
  intros Hp Hk.
  induction n as [|n IH]; intros j fuel E Hj Hf Hseen.
  - assert (j = k) by lia. subst j.
    assert (M : mem_value (VStr (p ++ "-" ++ PyStr.str k)) seen = false).
    { destruct (mem_value _ seen) eqn:M; [|reflexivity].
      apply mem_value_In in M. contradiction. }
    destruct fuel; cbn [numerise_while]; now rewrite M.
  - destruct fuel as [|fuel]; [lia|].
    assert (M : mem_value (VStr (p ++ "-" ++ PyStr.str j)) seen = true)
      by (apply mem_value_In, Hseen; lia).
    cbn [numerise_while]. rewrite M.
    cbn [as_str bind]. unfold re_literal at 1. cbn [bind].
    rewrite re_search_literal_app
      by (apply re_search_literal_here, str_digits1; exact Hj).
    cbn [negb].
    change ("-" ++ PyStr.str j) with (String "-" (PyStr.str j)).
    rewrite replace_suffix by exact Hp.
    apply IH; try lia.
    intros i Hi. apply Hseen. lia.
Qed.

(** X8: for a path [p] without the separator ['-'] that is already taken,
    when [p-1], ..., [p-(k-1)] are taken too and [p-k] is free, the loop
    of the numeric-suffix pass returns [p-k], the lowest free suffix,
    within [k] iterations. *)
Theorem numerise_lowest_suffix :
  forall (p : string) (seen : list value) (k fuel : nat),
    PyStr.mem_char "-" p = false ->
    In (VStr p) seen ->
    (forall i, 1 <= i < k -> In (VStr (p ++ "-" ++ PyStr.str i)) seen) ->
    ~ In (VStr (p ++ "-" ++ PyStr.str k)) seen ->
    1 <= k <= fuel ->
    numerise_while re_literal fuel "-" seen (VStr p) 1
    = Ok (VStr (p ++ "-" ++ PyStr.str k)).
Proof.
  intros p seen k fuel Hp Hin Hseen Hk [Hk1 Hf].
  destruct fuel as [|fuel]; [lia|].
  cbn [numerise_while].
  assert (M : mem_value (VStr p) seen = true) by now apply mem_value_In.
  rewrite M. cbn [as_str bind]. unfold re_literal at 1. cbn [bind].
  rewrite re_search_literal_no_dash by exact Hp. cbn [negb].
  apply (numerise_counter p seen k Hp Hk (k - 1) 1 fuel); try lia.
  exact Hseen.
Qed.

Lemma numerise_lowest_suffix_witness :
  numerise_while re_literal 2 "-" [VStr "a"; VStr "a-1"] (VStr "a") 1
  = Ok (VStr ("a" ++ "-" ++ PyStr.str 2)).
Proof.
  apply (numerise_lowest_suffix "a" [VStr "a"; VStr "a-1"] 2 2).
  - reflexivity.
  - simpl. tauto.
  - intros i Hi. assert (i = 1) as -> by lia. simpl. tauto.
  - simpl. intuition discriminate.
  - lia.
Defined.

(** ** [get] takes the password out of the entry *)

(** X9: [get] leaves the entry without its password, the other fields in
    place; a second call on that entry gives the same field lines after an
    empty first line. *)
Theorem get_consumes_password :
  forall (e e' : entry) (s : string),
    NoDup (Dict.keys e) ->
    get e = Ok (s, e') ->
    e' = Dict.remove "password" e
    /\ Dict.lookup "password" e' = None
    /\ (forall k, k <> "password" -> Dict.lookup k e' = Dict.lookup k e)
    /\ exists (p t : string),
         Dict.get "password" (VStr "") e = VStr p
         /\ s = p ++ nl ++ t
         /\ content (get e') = Ok (nl ++ t).
Proof.
  intros e e' s ND H.
  unfold get in H. cbn [Dict.pop fst snd] in H.
  destruct (Dict.get "password" (VStr "") e) as [|p] eqn:G;
    [discriminate|].
  cbn [as_str bind] in H. inversion H; subst. clear H.
  split; [reflexivity|].
  assert (L : Dict.lookup "password" (Dict.remove "password" e) = None)
    by now apply lookup_remove_same.
  split; [exact L|]. split.
  - intros k N. now apply lookup_remove_other.
  - exists p.
    exists (join_lines (map field_line
                          (filter not_path (Dict.remove "password" e)))).
    split; [reflexivity|]. split.
    + now rewrite fold_get_line, append_assoc.
    + rewrite content_get. unfold Dict.get. rewrite L.
      cbn [as_str bind append].
      assert (R : Dict.remove "password" (Dict.remove "password" e)
                  = Dict.remove "password" e).
      { clear -L. induction (Dict.remove "password" e) as [|[k v] d IH];
          [reflexivity|].
        cbn [Dict.lookup] in L. cbn [Dict.remove].
        destruct (String.eqb k "password"); [discriminate|].
        now rewrite IH. }
      now rewrite R.
Qed.

Lemma get_consumes_password_witness :
  [("title", VStr "t")] = Dict.remove "password" (titled "t" "pw")
  /\ Dict.lookup "password" [("title", VStr "t")] = None.
Proof.
  pose proof (get_consumes_password (titled "t" "pw") [("title", VStr "t")]
                ("pw" ++ nl ++ "title: t" ++ nl)) as W.
  destruct W as (W1 & W2 & _).
  - repeat constructor; simpl; intuition discriminate.
  - reflexivity.
  - split; assumption.
Defined.

(** ** What [clean] leaves in an entry *)

Section DictShape.
Context {V : Type}.
Implicit Types (d : Dict.t V) (k : string) (v : V).

Lemma Forall_remove (P : string * V -> Prop) k d :
  Forall P d -> Forall P (Dict.remove k d).
Proof.
  induction d as [|[k0 v0] d IH]; intros F; [constructor|].
  inversion F; subst. cbn [Dict.remove].
  destruct (String.eqb k0 k); [assumption|].
  constructor; [assumption | now apply IH].
Qed.

Lemma Forall_set (P : string * V -> Prop) k v d :
  (forall k', P (k', v)) -> Forall P d -> Forall P (Dict.set k v d).
Proof.
  intros Pv.
  induction d as [|[k0 v0] d IH]; intros F; cbn [Dict.set].
  - constructor; [apply Pv | constructor].
  - inversion F; subst. destruct (String.eqb k0 k).
    + constructor; [apply Pv | assumption].
    + constructor; [assumption | now apply IH].
Qed.

Lemma keys_set_in k k' v d :
  In k (Dict.keys (Dict.set k' v d)) -> k = k' \/ In k (Dict.keys d).
Proof.
  unfold Dict.keys.
  induction d as [|[k0 v0] d IH]; cbn [Dict.set map fst]; intros H.
  - destruct H as [<-|[]]. now left.
  - destruct (String.eqb k0 k'); cbn [map fst] in H.
    + right. exact H.
    + destruct H as [<-|H]; [right; now left|].
      destruct (IH H); [now left | right; now right].
Qed.

Lemma NoDup_keys_set k v d :
  NoDup (Dict.keys d) -> NoDup (Dict.keys (Dict.set k v d)).
Proof.
  induction d as [|[k0 v0] d IH]; intros ND; cbn [Dict.set].
  - repeat constructor. intros [].
  - unfold Dict.keys in *. cbn [map fst] in ND.
    inversion ND as [|? ? Hnin ND']; subst.
    destruct (String.eqb k0 k) eqn:E; cbn [map fst].
    + constructor; assumption.
    + constructor; [|now apply IH].
      intros Hin. apply keys_set_in in Hin as [->|Hin].
      * now rewrite String.eqb_refl in E.
      * contradiction.
Qed.

Lemma NoDup_keys_filter (f : string * V -> bool) d :
  NoDup (Dict.keys d) -> NoDup (Dict.keys (filter f d)).
Proof.
  unfold Dict.keys.
  induction d as [|[k0 v0] d IH]; intros ND; [constructor|].
  cbn [map fst] in ND. inversion ND as [|? ? Hnin ND']; subst.
  cbn [filter]. destruct (f (k0, v0)); [|now apply IH].
  cbn [map fst]. constructor; [|now apply IH].
  intros Hin. apply Hnin.
  apply in_map_iff in Hin as (kv & <- & Hin).
  apply filter_In in Hin as [Hin _]. now apply in_map.
Qed.

End DictShape.

Lemma path_join_nonempty (a b : string) : b <> "" -> PyStr.path_join a b <> "".
Proof.
  intros Hb. unfold PyStr.path_join.
  destruct (PyStr.startswith "/" b); [exact Hb|].
  destruct (String.eqb a "" || PyStr.endswith_char "/" a).
  - destruct a; [exact Hb | discriminate].
  - destruct a; discriminate.
Qed.

Lemma truthy_nonempty (s : string) : s <> "" -> truthy (VStr s) = true.
Proof.
  intros H. cbn [truthy]. apply negb_true_iff. now apply String.eqb_neq.
Qed.

(** [_create_path] pops the title and returns a path that is never
    empty. *)
Lemma create_path_result (separator : string) (e e' : entry) (path : value)
    (cl cv : bool) (p : string) :
  _create_path separator e path cl cv = Ok (p, e') ->
  e' = Dict.remove "title" e /\ p <> "".
Proof.
  unfold _create_path. intros H. bind_inv H. bind_inv H.
  inversion H; subst. clear H. split; [reflexivity|].
  destruct (String.eqb (fst a) "") eqn:E.
  - bind_inv Ha0. inversion Ha0; subst.
    apply path_join_nonempty. discriminate.
  - apply String.eqb_neq in E.
    destruct (first_present ["title"; "login"; "url"] e) as [v|].
    + bind_inv Ha. bind_inv Ha. inversion Ha; subst. cbn [fst snd] in *.
      cbn [as_str] in Ha0. inversion Ha0; subst.
      now apply path_join_nonempty.
    + inversion Ha; subst. now cbn in E.
Qed.

Lemma tidy_repath (e : entry) (p : string) :
  Dict.lookup "group" e = None ->
  Forall (fun kv => truthy (snd kv) = true) e ->
  NoDup (Dict.keys e) ->
  p <> "" ->
  tidy (Dict.set "path" (VStr p) (Dict.remove "title" e)).
Proof.
  intros G F ND Hp. unfold tidy. repeat split.
  - rewrite lookup_set_other by discriminate. now apply lookup_remove_same.
  - rewrite lookup_set_other by discriminate.
    now apply lookup_remove_absent.
  - apply Forall_set; [intros; now apply truthy_nonempty|].
    now apply Forall_remove.
  - now apply NoDup_keys_set, NoDup_keys_remove.
  - apply mem_set_same.
Qed.

Lemma clean_entry_tidy (separator : string) (cl cv : bool) (e e' : entry) :
  NoDup (Dict.keys e) ->
  clean_entry separator cl cv e = Ok e' -> tidy e'.
Proof.
  intros ND H. unfold clean_entry in H. cbn [Dict.pop fst snd] in H.
  bind_inv H. bind_inv H. inversion H; subst. clear H.
  destruct a0 as [p e0]. cbn [fst snd].
  apply create_path_result in Ha0 as [-> Hp].
  rewrite remove_empty_filter by exact ND.
  apply tidy_repath; [| | |exact Hp].
  - apply lookup_remove_same. now apply NoDup_keys_filter.
  - apply Forall_remove. apply Forall_forall.
    intros kv Hin. now apply filter_In in Hin as [_ Hin].
  - now apply NoDup_keys_remove, NoDup_keys_filter.
Qed.

Lemma clean_entries_tidy (separator : string) (cl cv : bool) :
  forall data data',
    Forall (fun e => NoDup (Dict.keys e)) data ->
    clean_entries separator cl cv data = Ok data' ->
    Forall tidy data'.
Proof.
  induction data as [|e rest IH]; intros data' F H; cbn [clean_entries] in H.
  - inversion H. constructor.
  - inversion F; subst. bind_inv H. bind_inv H. inversion H; subst.
    constructor; [eapply clean_entry_tidy; eassumption | now apply IH].
Qed.

Lemma repath_indices_tidy (separator : string) (cl cv : bool) (path : value) :
  forall idxs data data',
    Forall tidy data ->
    repath_indices separator cl cv path idxs data = Ok data' ->
    Forall tidy data'.
Proof.
  induction idxs as [|idx rest IH]; intros data data' F H;
    cbn [repath_indices] in H.
  - now inversion H; subst.
  - destruct (nth_error data idx) as [e|] eqn:N.
    + bind_inv H. destruct a as [p e0]. cbn [fst snd] in H.
      apply create_path_result in Ha as [-> Hp].
      refine (IH _ _ _ H).
      apply list_set_Forall; [|exact F].
      apply nth_error_In in N.
      apply (proj1 (Forall_forall _ _) F) in N.
      destruct N as (_ & G & T & ND & _).
      now apply tidy_repath.
    + now inversion H; subst.
Qed.

Lemma repath_groups_tidy (separator : string) (cl cv : bool) :
  forall groups data data',
    Forall tidy data ->
    repath_groups separator cl cv groups data = Ok data' ->
    Forall tidy data'.
Proof.
  induction groups as [|[path idxs] rest IH]; intros data data' F H;
    cbn [repath_groups] in H.
  - now inversion H; subst.
  - bind_inv H. refine (IH a _ _ H).
    destruct (1 <? List.length idxs)%nat.
    + eapply repath_indices_tidy; eassumption.
    + now inversion Ha; subst.
Qed.

Lemma replace_nonempty (old new s : string) :
  s <> "" -> new <> "" -> PyStr.replace old new s <> "".
Proof.
  intros Hs Hn. unfold PyStr.replace.
  destruct old as [|a o].
  - destruct new; [congruence | discriminate].
  - destruct s as [|x s]; [congruence|].
    cbn [PyStr.replace_from].
    destruct (String.prefix (String a o) (String x s));
      [destruct new; [congruence | discriminate] | discriminate].
Qed.

Section NumeriseTidy.

Variable re_search : string -> string -> result bool.

Lemma numerise_while_truthy (fuel : nat) (separator : string)
    (seen : list value) :
  forall (path : value) (ii : nat) (p : value),
    truthy path = true ->
    numerise_while re_search fuel separator seen path ii = Ok p ->
    truthy p = true.
Proof.
  induction fuel as [|fuel IH]; intros path ii p T H;
    cbn [numerise_while] in H;
    destruct (mem_value path seen); try discriminate;
    try (inversion H; subst; exact T).
  bind_inv H. bind_inv H.
  assert (Ha' : a <> "").
  { destruct path as [|s]; [discriminate|]. inversion Ha; subst.
    cbn [truthy] in T. apply negb_true_iff in T.
    now apply String.eqb_neq in T. }
  destruct (negb a0); apply IH in H; try exact H; apply truthy_nonempty.
  - destruct a; [congruence | discriminate].
  - apply replace_nonempty; [exact Ha'|].
    intros E. destruct separator; [|discriminate].
    cbn [append] in E.
    apply (str_nonempty (ii + 1)); [lia | exact E].
Qed.

Lemma tidy_path_truthy (e : entry) : tidy e -> truthy (entry_path e) = true.
Proof.
  intros (_ & _ & T & _ & P).
  unfold has_path, Dict.mem in P. unfold entry_path, Dict.get.
  destruct (Dict.lookup "path" e) as [v|] eqn:L; [|discriminate].
  clear P. induction e as [|[k0 v0] e IH]; [discriminate|].
  inversion T; subst. cbn [Dict.lookup] in L.
  destruct (String.eqb k0 "path"); [now inversion L; subst | now apply IH].
Qed.

Lemma tidy_set_path (e : entry) (p : value) :
  tidy e -> truthy p = true -> tidy (Dict.set "path" p e).
Proof.
  intros (T1 & T2 & T & ND & _) Hp. unfold tidy. repeat split.
  - now rewrite lookup_set_other by discriminate.
  - now rewrite lookup_set_other by discriminate.
  - now apply Forall_set.
  - now apply NoDup_keys_set.
  - apply mem_set_same.
Qed.

Lemma numerise_for_tidy (fuel : nat) (separator : string) :
  forall (data : list entry) (seen : list value) (data' : list entry),
    Forall tidy data ->
    numerise_for re_search fuel separator seen data = Ok data' ->
    Forall tidy data'.
Proof.
  induction data as [|e rest IH]; intros seen data' F H;
    cbn [numerise_for] in H.
  - inversion H. constructor.
  - inversion F as [|? ? Te Trest]; subst.
    destruct (mem_value (entry_path e) seen).
    + bind_inv H. bind_inv H. inversion H; subst.
      constructor; [|eapply IH; eassumption].
      apply tidy_set_path; [exact Te|].
      eapply numerise_while_truthy; [|eassumption].
      now apply tidy_path_truthy.
    + bind_inv H. inversion H; subst.
      constructor; [exact Te | eapply IH; eassumption].
Qed.

End NumeriseTidy.

Lemma truthy_inv (v : value) :
  truthy v = true -> exists s, v = VStr s /\ s <> "".
Proof.
  destruct v as [|s]; [discriminate|]. cbn [truthy]. intros H.
  exists s. split; [reflexivity|].
  apply negb_true_iff in H. now apply String.eqb_neq.
Qed.

(** X10: when [clean] completes on a batch of dictionaries, no entry holds
    a [title] or a [group] any more, every entry holds a non-empty [path],
    and no key of any entry holds [None] or the empty string. *)
Theorem clean_output_contract :
  forall (re_search : string -> string -> result bool) (fuel : nat)
         (separator : string) (cl cv : bool) (data data' : list entry),
    Forall (fun e => NoDup (Dict.keys e)) data ->
    clean re_search fuel separator cl cv data = Ok data' ->
    Forall (fun e =>
              Dict.lookup "title" e = None
              /\ Dict.lookup "group" e = None
              /\ (exists p, Dict.lookup "path" e = Some (VStr p) /\ p <> "")
              /\ (forall k v, In (k, v) e ->
                    exists s, v = VStr s /\ s <> "")) data'.
Proof.
  intros re_search fuel separator cl cv data data' F H.
  unfold clean in H. bind_inv H. bind_inv H.
  apply clean_entries_tidy in Ha; [|exact F].
  unfold _duplicate_paths in Ha0. apply repath_groups_tidy in Ha0; [|exact Ha].
  unfold _duplicate_numerise in H. apply numerise_for_tidy in H; [|exact Ha0].
  apply Forall_forall. intros e He.
  apply (proj1 (Forall_forall _ _) H) in He.
  pose proof (tidy_path_truthy e He) as TP.
  destruct He as (T1 & T2 & T & ND & P).
  repeat split; try assumption.
  - unfold entry_path, Dict.get in TP. unfold has_path, Dict.mem in P.
    destruct (Dict.lookup "path" e) as [v|]; [|discriminate].
    apply truthy_inv in TP as (s & -> & Hs). now exists s.
  - intros k v Hin. apply truthy_inv.
    now apply (proj1 (Forall_forall _ _) T (k, v)).
Qed.

Lemma clean_output_contract_witness :
  Forall (fun e =>
            Dict.lookup "title" e = None
            /\ Dict.lookup "group" e = None
            /\ (exists p, Dict.lookup "path" e = Some (VStr p) /\ p <> "")
            /\ (forall k v, In (k, v) e ->
                  exists s, v = VStr s /\ s <> ""))
    [[("path", VStr "t")]].
Proof.
  apply (clean_output_contract re_literal 0 "-" false false
           [titled "t" ""] [[("path", VStr "t")]]).
  - repeat constructor; simpl; intuition discriminate.
  - reflexivity.
Defined.

(** ** [clean] raises nothing *)

Lemma lookup_In {V : Type} (k : string) (v : V) (d : Dict.t V) :
  Dict.lookup k d = Some v -> In (k, v) d.
Proof.
  induction d as [|[k0 v0] d IH]; [discriminate|].
  cbn [Dict.lookup]. destruct (String.eqb k0 k) eqn:E.
  - intros H. inversion H; subst. apply String.eqb_eq in E. subst.
    now left.
  - intros H. right. now apply IH.
Qed.

Lemma lookup_truthy (e : entry) (k : string) (v : value) :
  Forall (fun kv => truthy (snd kv) = true) e ->
  Dict.lookup k e = Some v -> exists s, v = VStr s /\ s <> "".
Proof.
  intros F L. apply lookup_In in L.
  apply truthy_inv. now apply (proj1 (Forall_forall _ _) F (k, v)).
Qed.

Lemma create_path_ok (separator : string) (e : entry) (q : string)
    (cl cv : bool) :
  Forall (fun kv => truthy (snd kv) = true) e ->
  exists p, _create_path separator e (VStr q) cl cv
            = Ok (p, Dict.remove "title" e).
Proof.
  intros F. rewrite create_path_cases.
  destruct (Dict.lookup "title" e) as [v|] eqn:L1;
    [destruct (lookup_truthy _ _ _ F L1) as (s & -> & _);
     eexists; reflexivity|].
  destruct (Dict.lookup "login" e) as [v|] eqn:L2;
    [destruct (lookup_truthy _ _ _ F L2) as (s & -> & _);
     eexists; reflexivity|].
  destruct (Dict.lookup "url" e) as [v|] eqn:L3;
    [destruct (lookup_truthy _ _ _ F L3) as (s & -> & _);
     eexists; reflexivity|].
  eexists; reflexivity.
Qed.

Lemma clean_entry_ok (separator : string) (cl cv : bool) (e : entry) :
  NoDup (Dict.keys e) -> exists e', clean_entry separator cl cv e = Ok e'.
Proof.
  intros ND. unfold clean_entry. cbn [Dict.pop fst snd].
  rewrite remove_empty_filter by exact ND.
  set (e1 := filter (fun kv => truthy (snd kv)) e).
  assert (F1 : Forall (fun kv => truthy (snd kv) = true) e1).
  { apply Forall_forall. intros kv Hin.
    now apply filter_In in Hin as [_ Hin]. }
  assert (G : exists g, Dict.get "group" (VStr "") e1 = VStr g).
  { unfold Dict.get. destruct (Dict.lookup "group" e1) as [v|] eqn:L.
    - destruct (lookup_truthy _ _ _ F1 L) as (s & -> & _). now exists s.
    - now exists "". }
  destruct G as [g ->]. cbn [as_str bind].
  destruct (create_path_ok separator (Dict.remove "group" e1)
              (_clean_group separator (_clean_protocol g)) cl cv) as [p Hp].
  { now apply Forall_remove. }
  rewrite Hp. cbn [bind fst snd]. eexists; reflexivity.
Qed.

Lemma clean_entries_ok (separator : string) (cl cv : bool) :
  forall data,
    Forall (fun e => NoDup (Dict.keys e)) data ->
    exists data', clean_entries separator cl cv data = Ok data'.
Proof.
  induction data as [|e rest IH]; intros F; [now exists []|].
  inversion F; subst. cbn [clean_entries].
  destruct (clean_entry_ok separator cl cv e) as [e' ->]; [assumption|].
  destruct IH as [rest' ->]; [assumption|].
  cbn [bind]. eexists; reflexivity.
Qed.

Lemma repath_indices_ok (separator : string) (cl cv : bool) (q : string) :
  forall idxs data,
    Forall tidy data ->
    exists data', repath_indices separator cl cv (VStr q) idxs data = Ok data'.
Proof.
  induction idxs as [|idx rest IH]; intros data F; [now exists data|].
  cbn [repath_indices].
  destruct (nth_error data idx) as [e|] eqn:N; [|now exists data].
  pose proof (nth_error_In _ _ N) as Hin.
  apply (proj1 (Forall_forall _ _) F) in Hin.
  destruct Hin as (_ & G & T & ND & _).
  destruct (create_path_ok separator e q cl cv T) as [p Hp].
  rewrite Hp. cbn [bind fst snd].
  apply IH. apply list_set_Forall; [|exact F].
  apply create_path_result in Hp as [_ Hp].
  now apply tidy_repath.
Qed.

Lemma duplicated_add_truthy (path : value) (idx : nat) :
  forall d,
    truthy path = true ->
    Forall (fun g => truthy (fst g) = true) d ->
    Forall (fun g => truthy (fst g) = true) (duplicated_add path idx d).
Proof.
  induction d as [|[p l] d IH]; intros T F; cbn [duplicated_add].
  - repeat constructor. exact T.
  - inversion F; subst. destruct (value_eqb p path).
    + constructor; assumption.
    + constructor; [assumption | now apply IH].
Qed.

Section RaisesNothing.

(** The search with the manager's separator answers without raising: the
    pattern built from the separator compiles. *)
Variable re_search : string -> string -> result bool.
Variable sep : string.
Hypothesis re_search_ok : forall path, exists b, re_search sep path = Ok b.

Lemma duplicated_of_truthy :
  forall data idx d,
    Forall tidy data ->
    Forall (fun g => truthy (fst g) = true) d ->
    Forall (fun g => truthy (fst g) = true) (duplicated_of idx data d).
Proof.
  induction data as [|e rest IH]; intros idx d F Fd; [exact Fd|].
  inversion F; subst. cbn [duplicated_of].
  apply IH; [assumption|].
  apply duplicated_add_truthy; [|exact Fd].
  now apply (tidy_path_truthy).
Qed.

Lemma repath_groups_ok (separator : string) (cl cv : bool) :
  forall groups data,
    Forall (fun g => truthy (fst g) = true) groups ->
    Forall tidy data ->
    exists data', repath_groups separator cl cv groups data = Ok data'.
Proof.
  induction groups as [|[path idxs] rest IH]; intros data Fg F;
    [now exists data|].
  inversion Fg as [|? ? Tp Frest]; subst. cbn [fst] in Tp.
  apply truthy_inv in Tp as (q & -> & _).
  cbn [repath_groups].
  destruct (1 <? List.length idxs)%nat.
  - destruct (repath_indices_ok separator cl cv q idxs data F) as [d1 H1].
    rewrite H1. cbn [bind]. apply IH; [assumption|].
    eapply repath_indices_tidy; eassumption.
  - cbn [bind]. now apply IH.
Qed.

Lemma numerise_while_no_raise (fuel : nat) (seen : list value) :
  forall (path : value) (ii : nat) (x : exn),
    truthy path = true ->
    numerise_while re_search fuel sep seen path ii <> Raise x.
Proof.
  induction fuel as [|fuel IH]; intros path ii x T;
    cbn [numerise_while]; destruct (mem_value path seen); try discriminate.
  apply truthy_inv in T as (p & -> & Hp). cbn [as_str bind].
  destruct (re_search_ok p) as [b ->]. cbn [bind].
  destruct (negb b); apply IH; apply truthy_nonempty.
  - destruct p; [congruence | discriminate].
  - apply replace_nonempty; [exact Hp|].
    intros E. destruct sep; [|discriminate].
    cbn [append] in E. apply (str_nonempty (ii + 1)); [lia | exact E].
Qed.

Lemma numerise_for_no_raise (fuel : nat) :
  forall (data : list entry) (seen : list value) (x : exn),
    Forall tidy data ->
    numerise_for re_search fuel sep seen data <> Raise x.
Proof.
  induction data as [|e rest IH]; intros seen x F; cbn [numerise_for];
    [discriminate|].
  inversion F as [|? ? Te Trest]; subst.
  destruct (mem_value (entry_path e) seen).
  - destruct (numerise_while re_search fuel sep seen (entry_path e) 1)
      as [p| y |] eqn:W; cbn [bind]; try discriminate.
    + specialize (IH (seen ++ [p])%list x Trest).
      destruct (numerise_for re_search fuel sep (seen ++ [p]) rest);
        cbn [bind]; congruence.
    + exfalso. revert W. apply numerise_while_no_raise.
      now apply tidy_path_truthy.
  - specialize (IH (seen ++ [entry_path e])%list x Trest).
    destruct (numerise_for re_search fuel sep
                (seen ++ [entry_path e]) rest); cbn [bind]; congruence.
Qed.

Lemma clean_no_raise (fuel : nat) (cl cv : bool) (data : list entry) :
  Forall (fun e => NoDup (Dict.keys e)) data ->
  exists data2,
    (data1 <- clean_entries sep cl cv data ;;
     _duplicate_paths sep cl cv data1) = Ok data2
    /\ clean re_search fuel sep cl cv data
       = _duplicate_numerise re_search fuel sep data2
    /\ forall x, clean re_search fuel sep cl cv data <> Raise x.
Proof.
  intros F.
  destruct (clean_entries_ok sep cl cv data F) as [data1 H1].
  pose proof (clean_entries_tidy _ _ _ _ _ F H1) as T1.
  destruct (repath_groups_ok sep cl cv (duplicated_of 0 data1 []) data1)
    as [data2 H2]; [apply duplicated_of_truthy; [exact T1|constructor]
                   | exact T1 |].
  pose proof (repath_groups_tidy _ _ _ _ _ _ T1 H2) as T2.
  exists data2. unfold clean, _duplicate_paths.
  rewrite H1. cbn [bind]. rewrite H2. cbn [bind].
  repeat split. intros x. now apply numerise_for_no_raise.
Qed.

End RaisesNothing.

(** X11: on a batch of dictionaries, and with a separator for which the
    search of the last pass does not raise (its pattern compiles, as it
    does for a separator without metacharacter), the first two passes of
    [clean] always complete and [clean] raises no exception: it returns
    the renumbered batch, or its loop does not end. *)
Theorem clean_raises_nothing :
  forall (re_search : string -> string -> result bool) (fuel : nat)
         (separator : string) (cl cv : bool) (data : list entry),
    (forall path, exists b, re_search separator path = Ok b) ->
    Forall (fun e => NoDup (Dict.keys e)) data ->
    exists data2,
      (data1 <- clean_entries separator cl cv data ;;
       _duplicate_paths separator cl cv data1) = Ok data2
      /\ clean re_search fuel separator cl cv data
         = _duplicate_numerise re_search fuel separator data2
      /\ forall x, clean re_search fuel separator cl cv data <> Raise x.
Proof.
  intros re_search fuel separator cl cv data R F.
  now apply clean_no_raise.
Qed.

Lemma clean_raises_nothing_witness :
  exists data2,
    (data1 <- clean_entries "-" false false
                [with_login "a" "x-0"; with_login "a" "x-0"] ;;
     _duplicate_paths "-" false false data1) = Ok data2
    /\ clean re_literal 5 "-" false false
         [with_login "a" "x-0"; with_login "a" "x-0"]
       = _duplicate_numerise re_literal 5 "-" data2
    /\ forall x, clean re_literal 5 "-" false false
                   [with_login "a" "x-0"; with_login "a" "x-0"] <> Raise x.
Proof.
  apply (clean_raises_nothing re_literal 5 "-" false false
           [with_login "a" "x-0"; with_login "a" "x-0"]).
  - intros path. exists (re_search_literal "-" path). reflexivity.
  - repeat constructor; simpl; intuition discriminate.
Defined.

(** ** CSV managers: what a successful parse gives *)

Lemma check_values_present (header : list string) :
  forall csvkeys : list string,
    (forall csvkey, In csvkey csvkeys -> In csvkey header) ->
    PasswordManagerCSV.check_values csvkeys (Some header) = Ok tt.
Proof.
  induction csvkeys as [|k ks IH]; intros H; [reflexivity|].
  cbn [PasswordManagerCSV.check_values].
  assert (E : existsb (String.eqb k) header = true).
  { apply existsb_exists. exists k. split; [apply H; now left|].
    apply String.eqb_refl. }
  rewrite E. apply IH. intros c Hc. apply H. now right.
Qed.

Lemma check_values_ok_inv (header : list string) :
  forall csvkeys : list string,
    PasswordManagerCSV.check_values csvkeys (Some header) = Ok tt ->
    forall csvkey, In csvkey csvkeys -> In csvkey header.
Proof.
  induction csvkeys as [|k ks IH]; intros H c Hc; [contradiction|].
  cbn [PasswordManagerCSV.check_values] in H.
  destruct (existsb (String.eqb k) header) eqn:E; [|discriminate].
  destruct Hc as [<-|Hc]; [|now apply IH].
  now apply existsb_In_string.
Qed.

(** X12: with a header, [parse] succeeds exactly when every native column
    of the manager's table is in the header; it then keeps the entries
    already in [self.data] and appends one entry per non-blank row, in
    file order. *)
Theorem parse_succeeds_iff :
  forall (m : PasswordManagerCSV.manager) (file : list (list string))
         (data : list entry) (header : list string),
    PasswordManagerCSV.reader_fieldnames (PasswordManagerCSV.fieldnames m) file
    = Some header ->
    ((forall csvkey, In csvkey (Dict.values (PasswordManagerCSV.keys m)) ->
        In csvkey header)
     <-> fst (PasswordManagerCSV.parse m file data) = Ok tt)
    /\ (fst (PasswordManagerCSV.parse m file data) = Ok tt ->
        exists entries,
          snd (PasswordManagerCSV.parse m file data) = (data ++ entries)%list
          /\ List.length entries
             = List.length (filter nonblank (csv_body m file))).
Proof.
  intros m file data header Hh.
  unfold PasswordManagerCSV.parse, PasswordManagerCSV._checkformat.
  rewrite Hh. split; [split|].
  - intros H. now rewrite check_values_present.
  - intros H. apply check_values_ok_inv.
    destruct (PasswordManagerCSV.check_values _ _) as [[]| |];
      [reflexivity | discriminate | discriminate].
  - destruct (PasswordManagerCSV.check_values _ _) as [[]| |];
      cbn [fst snd]; try discriminate.
    intros _. eexists. split; [reflexivity|].
    unfold PasswordManagerCSV.reader_rows. rewrite Hh.
    rewrite !length_map. unfold csv_body, nonblank. reflexivity.
Qed.

Lemma parse_succeeds_iff_witness :
  fst (PasswordManagerCSV.parse (PasswordManagerCSV.PasswordExporter false)
         [["hostname"; "username"; "password"]; []; ["h"; "u"; "p"]] [])
  = Ok tt.
Proof.
  apply (parse_succeeds_iff (PasswordManagerCSV.PasswordExporter false)
           [["hostname"; "username"; "password"]; []; ["h"; "u"; "p"]] []
           ["hostname"; "username"; "password"] eq_refl).
  simpl. intuition (subst; auto).
Defined.

(** *** The keys of a parsed record *)

Lemma keys_set {V : Type} (k : string) (v : V) (d : Dict.t V) :
  Dict.keys (Dict.set k v d)
  = (Dict.keys d ++ (if Dict.mem k d then [] else [k]))%list.
Proof.
  unfold Dict.keys, Dict.mem.
  induction d as [|[k0 v0] d IH]; [reflexivity|].
  cbn [Dict.set Dict.lookup].
  destruct (String.eqb k0 k); cbn [map fst app].
  - now rewrite app_nil_r.
  - now rewrite IH.
Qed.

Lemma fold_set_keys (f : string -> value) (cols : list string) :
  forall en : entry,
    exists extra,
      Dict.keys (fold_left (fun en col => Dict.set col (f col) en) cols en)
      = (Dict.keys en ++ extra)%list.
Proof.
  induction cols as [|c cols IH]; intros en.
  - exists []. now rewrite app_nil_r.
  - cbn [fold_left]. destruct (IH (Dict.set c (f c) en)) as [extra E].
    rewrite E, keys_set, <- app_assoc. eexists. reflexivity.
Qed.

(** X13: a record built by [PasswordManagerCSV.parse] starts with the
    seven canonical keys in the order of [keyslist], whatever the manager
    and the row; without the extra flag it holds nothing else. *)
Theorem parse_row_keys :
  forall (m : PasswordManagerCSV.manager) (row : Dict.t value),
    exists extra,
      Dict.keys (PasswordManagerCSV.parse_row m row)
      = (keyslist ++ extra)%list
      /\ (PasswordManagerCSV.all m = false -> extra = []).
Proof.
  intros m row. unfold PasswordManagerCSV.parse_row.
  set (st := fold_left _ keyslist _).
  assert (K : Dict.keys (fst st) = keyslist) by reflexivity.
  destruct (PasswordManagerCSV.all m).
  - destruct (fold_set_keys (fun col => Dict.get col VNone (snd st))
                (Dict.keys (snd st)) (fst st)) as [extra E].
    exists extra. rewrite E, K. split; [reflexivity | discriminate].
  - exists []. rewrite K, app_nil_r. now split.
Qed.

(** X14: without the extra flag, a canonical key whose native column no
    earlier canonical key shares holds the cell of that column, and [None]
    when the row has no such cell. *)
Theorem parse_row_value :
  forall (m : PasswordManagerCSV.manager) (row : Dict.t value)
         (pre post : list string) (key : string),
    PasswordManagerCSV.all m = false ->
    keyslist = (pre ++ key :: post)%list ->
    (forall k, In k pre ->
       Dict.get k "" (PasswordManagerCSV.keys m)
       <> Dict.get key "" (PasswordManagerCSV.keys m)) ->
    Dict.lookup key (PasswordManagerCSV.parse_row m row)
    = Some (Dict.get (Dict.get key "" (PasswordManagerCSV.keys m)) VNone row).
Proof.
  intros m row pre post key Hall Hk Hpre.
  unfold PasswordManagerCSV.parse_row. rewrite Hall, Hk.
  apply (take_fold_value m pre post key ([], row)); [|exact Hpre].
  assert (ND : NoDup keyslist)
    by (repeat constructor; simpl; intuition discriminate).
  rewrite Hk in ND. apply NoDup_remove_2 in ND.
  intros H. apply ND. apply in_or_app. now right.
Qed.

Lemma parse_row_value_witness :
  Dict.lookup "login"
    (PasswordManagerCSV.parse_row (PasswordManagerCSV.PasswordExporter false)
       [("hostname", VStr "h"); ("username", VStr "u")])
  = Some (VStr "u").
Proof.
  apply (parse_row_value (PasswordManagerCSV.PasswordExporter false)
           [("hostname", VStr "h"); ("username", VStr "u")]
           ["title"; "password"]
           ["url"; "comments"; "group"; "binary"] "login").
  - reflexivity.
  - reflexivity.
  - simpl. intros k [<-|[<-|[]]]; discriminate.
Defined.

(** ** Enpass rows *)

Lemma enpass_take_other (key k : string) (st st' : entry * list string) :
  k <> key ->
  Enpass.take st key = Some st' ->
  Dict.lookup k (fst st') = Dict.lookup k (fst st).
Proof.
  intros N. unfold Enpass.take.
  destruct (Enpass.list_index _ _) as [index|]; [|now intros [= <-]].
  destruct (Enpass.list_pop (index + 1) _) as [[v row1]|]; [|discriminate].
  destruct (Enpass.list_pop index row1) as [[? row2]|]; [|discriminate].
  intros [= <-]. cbn [fst]. now apply lookup_set_other.
Qed.

Lemma enpass_take_all_other (k : string) :
  forall ks st st',
    ~ In k ks ->
    Enpass.take_all ks st = Some st' ->
    Dict.lookup k (fst st') = Dict.lookup k (fst st).
Proof.
  induction ks as [|key ks IH]; intros st st' Hnin H;
    cbn [Enpass.take_all] in H.
  - now inversion H.
  - destruct (Enpass.take st key) as [st1|] eqn:T; [|discriminate].
    rewrite (IH _ _ ltac:(intros X; apply Hnin; now right) H).
    apply (enpass_take_other key k st st1); [|exact T].
    intros ->. apply Hnin. now left.
Qed.

Lemma list_index_none (x : string) (row : list string) :
  ~ In x row -> Enpass.list_index x row = None.
Proof.
  induction row as [|y row IH]; intros H; [reflexivity|].
  cbn [Enpass.list_index].
  assert (String.eqb y x = false) as ->
    by (apply String.eqb_neq; intros ->; apply H; now left).
  rewrite IH; [reflexivity|]. intros X. apply H. now right.
Qed.

Lemma list_pop_length (i : nat) :
  forall row x r,
    Enpass.list_pop i row = Some (x, r) -> List.length row = S (List.length r).
Proof.
  induction i as [|i IH]; intros [|y row] x r H; cbn [Enpass.list_pop] in H;
    try discriminate.
  - now inversion H.
  - destruct (Enpass.list_pop i row) as [[z r0]|] eqn:P; [|discriminate].
    inversion H; subst. cbn [List.length]. f_equal. eapply IH; eassumption.
Qed.

Lemma list_pop_last (r : list string) (x : string) :
  Enpass.list_pop (List.length r) (r ++ [x]) = Some (x, r).
Proof.
  induction r as [|y r IH]; [reflexivity|].
  simpl. now rewrite IH.
Qed.

Lemma pop_last_inv (row : list string) (x : string) (r : list string) :
  Enpass.pop_last row = Some (x, r) -> row = (r ++ [x])%list.
Proof.
  destruct row as [|y row] using rev_ind; [discriminate|].
  assert (E : Enpass.pop_last (row ++ [y])
              = Enpass.list_pop (List.length (row ++ [y]) - 1) (row ++ [y]))
    by (destruct row; reflexivity).
  rewrite E, length_app. cbn [List.length].
  replace (List.length row + 1 - 1) with (List.length row) by lia.
  rewrite list_pop_last. now intros [= <- <-].
Qed.

(** X15: a row of the Enpass export that [parse] accepts (extra fields
    off) has at least two cells; the last one is the entry's [comments],
    whatever the fields between hold, and the first one is its [title]
    unless a cell in between is the word [Title]. *)
Theorem enpass_title_and_note :
  forall (all : bool) (row : list string) (en : entry),
    all = false ->
    Enpass.parse_row all row = Some en ->
    exists (title note : string) (cells : list string),
      row = (title :: cells ++ [note])%list
      /\ Dict.lookup "comments" en = Some (VStr note)
      /\ (~ In "Title" cells -> Dict.lookup "title" en = Some (VStr title)).
Proof.
  intros all row en -> H. unfold Enpass.parse_row in H.
  destruct row as [|title row1]; [discriminate|]. cbn [Enpass.list_pop] in H.
  destruct (Enpass.pop_last row1) as [[note cells]|] eqn:P; [|discriminate].
  apply pop_last_inv in P. subst row1.
  destruct (Enpass.take_all keyslist ([("title", VStr title)], cells))
    as [[e1 row3]|] eqn:T; [|discriminate].
  inversion H; subst. clear H.
  exists title, note, cells. split; [reflexivity|]. split.
  - apply lookup_set_same.
  - intros Hnin. rewrite lookup_set_other by discriminate.
    unfold keyslist in T. cbn [Enpass.take_all] in T.
    assert (T0 : Enpass.take ([("title", VStr title)], cells) "title"
                 = Some ([("title", VStr title)], cells)).
    { unfold Enpass.take. cbn [snd].
      change (Dict.get "title" "" Enpass.keys) with "Title".
      now rewrite list_index_none. }
    rewrite T0 in T.
    pose proof (enpass_take_all_other "title"
                  ["password"; "login"; "url"; "comments"; "group"; "binary"]
                  ([("title", VStr title)], cells) (e1, row3)) as K.
    cbn [fst] in K. rewrite K; [reflexivity | | exact T].
    simpl. intuition discriminate.
Qed.

Lemma enpass_title_and_note_witness :
  exists (title note : string) (cells : list string),
    ["site"; "Username"; "me"; "Password"; "pw"; "a note"]
    = (title :: cells ++ [note])%list
    /\ Dict.lookup "comments"
         [("title", VStr "site"); ("password", VStr "pw");
          ("login", VStr "me"); ("comments", VStr "a note")]
       = Some (VStr note)
    /\ (~ In "Title" cells ->
        Dict.lookup "title"
          [("title", VStr "site"); ("password", VStr "pw");
           ("login", VStr "me"); ("comments", VStr "a note")]
        = Some (VStr title)).
Proof.
  apply (enpass_title_and_note false
           ["site"; "Username"; "me"; "Password"; "pw"; "a note"]
           [("title", VStr "site"); ("password", VStr "pw");
            ("login", VStr "me"); ("comments", VStr "a note")]);
    reflexivity.
Defined.

(** X16: a row of the Enpass export with fewer than two cells (a blank
    line, or a lone cell) raises [IndexError]: the rows after it are not
    read, and the entries of the rows before it stay in [self.data]. *)
Theorem enpass_short_row :
  forall (all : bool) (rows : list (list string)) (row : list string)
         (rest : list (list string)) (data : list entry)
         (entries : list entry),
    List.length row < 2 ->
    Forall2 (fun r en => Enpass.parse_row all r = Some en) rows entries ->
    Enpass.parse_rows all (rows ++ row :: rest) data
    = (Enpass.RaisedIndexError, (data ++ entries)%list).
Proof.
  intros all rows row rest data entries Hlen F.
  revert data. induction F as [|r en rows entries Hr F IH]; intros data.
  - change (([] ++ row :: rest)%list) with (row :: rest).
    cbn [Enpass.parse_rows]. rewrite app_nil_r.
    assert (E : Enpass.parse_row all row = None).
    { destruct row as [|x [|y row]]; [reflexivity | reflexivity |].
      cbn [List.length] in Hlen. lia. }
    now rewrite E.
  - change (((r :: rows) ++ row :: rest)%list)
      with (r :: (rows ++ row :: rest))%list.
    cbn [Enpass.parse_rows]. rewrite Hr, IH, <- app_assoc. reflexivity.
Qed.

Lemma enpass_short_row_witness :
  Enpass.parse_rows false ([["site"; "a note"]] ++ ["lonely"] :: []) []
  = (Enpass.RaisedIndexError,
     ([] ++ [[("title", VStr "site"); ("comments", VStr "a note")]])%list).
Proof.
  apply (enpass_short_row false [["site"; "a note"]] ["lonely"] [] []
           [[("title", VStr "site"); ("comments", VStr "a note")]]).
  - simpl. lia.
  - repeat constructor.
Defined.

(** ** Gorilla groups *)

Lemma no_bslash_char (c : ascii) (s : string) :
  PyStr.mem_char (ascii_of_nat 92) (String c s) = false ->
  String.eqb (String c EmptyString) bslash = false
  /\ PyStr.mem_char (ascii_of_nat 92) s = false.
Proof.
  cbn [PyStr.mem_char]. intros H. apply orb_false_iff in H as [Hc Hs].
  split; [|exact Hs].
  apply String.eqb_neq. intros E. unfold bslash in E. inversion E; subst.
  now rewrite Ascii.eqb_refl in Hc.
Qed.

Lemma unescape_no_bslash (s : string) :
  PyStr.mem_char (ascii_of_nat 92) s = false -> Gorilla.unescape s = s.
Proof.
  induction s as [|c t IH]; intros H; [reflexivity|].
  apply no_bslash_char in H as [Hc Ht].
  cbn [Gorilla.unescape]. destruct t as [|d s']; [reflexivity|].
  rewrite Hc. cbn [andb]. now rewrite (IH Ht).
Qed.

Lemma slash_dots_no_bslash (s : string) :
  forall p : ascii,
    String.eqb (String p EmptyString) bslash = false ->
    PyStr.mem_char (ascii_of_nat 92) s = false ->
    Gorilla.slash_dots (Some p) s = PyStr.concat_map Gorilla.dot_char s
    /\ PyStr.mem_char (ascii_of_nat 92) (Gorilla.slash_dots (Some p) s)
       = false.
Proof.
  induction s as [|c s IH]; intros p Hp H; [now split|].
  apply no_bslash_char in H as [Hc Hs].
  destruct (IH c Hc Hs) as [E M].
  cbn [Gorilla.slash_dots PyStr.concat_map]. rewrite Hp, E.
  cbn [negb]. rewrite andb_true_r. unfold Gorilla.dot_char at 1 3.
  split; [reflexivity|].
  rewrite mem_char_app, <- E, M, orb_false_r.
  destruct (Ascii.eqb c "."); [reflexivity|].
  cbn [PyStr.mem_char]. rewrite orb_false_r.
  apply Ascii.eqb_neq. intros ->.
  unfold bslash in Hc. now rewrite String.eqb_refl in Hc.
Qed.

(** X17: in a Gorilla group that holds no backslash, every dot but a
    leading one becomes the path separator and nothing else changes. *)
Theorem gorilla_group_dots :
  forall (c : ascii) (s : string),
    PyStr.mem_char (ascii_of_nat 92) (String c s) = false ->
    Gorilla.group (String c s)
    = String c (PyStr.concat_map Gorilla.dot_char s).
Proof.
  intros c s H. apply no_bslash_char in H as [Hc Hs].
  destruct (slash_dots_no_bslash s c Hc Hs) as [E M].
  unfold Gorilla.group. cbn [Gorilla.slash_dots andb].
  rewrite andb_false_r. cbn [append].
  rewrite unescape_no_bslash.
  - now rewrite E.
  - cbn [PyStr.mem_char]. rewrite M, orb_false_r.
    apply Ascii.eqb_neq. intros ->.
    unfold bslash in Hc. now rewrite String.eqb_refl in Hc.
Qed.

Lemma gorilla_group_dots_witness :
  Gorilla.group "Bank.Cards" = "Bank/Cards".
Proof. apply (gorilla_group_dots "B" "ank.Cards"). reflexivity. Defined.

Lemma unescape_app (a t : string) :
  PyStr.mem_char (ascii_of_nat 92) a = false ->
  Gorilla.unescape (a ++ String (ascii_of_nat 92) t)
  = a ++ Gorilla.unescape (String (ascii_of_nat 92) t).
Proof.
  induction a as [|c a IH]; intros H; [reflexivity|].
  apply no_bslash_char in H as [Hc Ha].
  specialize (IH Ha).
  destruct a as [|d a].
  - cbn [append] in *. cbn [Gorilla.unescape]. rewrite Hc. reflexivity.
  - cbn [append] in *.
    change (Gorilla.unescape
              (String c (String d (a ++ String (ascii_of_nat 92) t))))
      with (if String.eqb (String c EmptyString) bslash
               && negb (Ascii.eqb d newline)
            then String "."
                   (Gorilla.unescape (a ++ String (ascii_of_nat 92) t))
            else String c
                   (Gorilla.unescape
                      (String d (a ++ String (ascii_of_nat 92) t)))).
    rewrite Hc. cbn [andb]. now rewrite IH.
Qed.

(** X18: the second substitution of [Gorilla.parse] turns a backslash
    together with the character after it into one dot, whatever that
    character is (a newline apart), not only the escaped dot. *)
Theorem gorilla_unescape_any :
  forall (a b : string) (c : ascii),
    PyStr.mem_char (ascii_of_nat 92) a = false ->
    c <> newline ->
    Gorilla.unescape (a ++ bslash ++ String c b)
    = a ++ "." ++ Gorilla.unescape b.
Proof.
  intros a b c Ha Hc. unfold bslash. cbn [append].
  rewrite unescape_app by exact Ha. f_equal.
  cbn [Gorilla.unescape]. fold bslash. rewrite String.eqb_refl.
  assert (Ascii.eqb c newline = false) as -> by now apply Ascii.eqb_neq.
  reflexivity.
Qed.

Lemma gorilla_unescape_any_witness :
  Gorilla.unescape ("dir" ++ bslash ++ String "n" "ame")
  = "dir" ++ "." ++ "ame".
Proof.
  apply (gorilla_unescape_any "dir" "ame" "n"); [reflexivity | discriminate].
Defined.

(** ** A batch without collisions *)

Lemma duplicated_add_fresh (path : value) (idx : nat) :
  forall d : list (value * list nat),
    ~ In path (map fst d) ->
    duplicated_add path idx d = (d ++ [(path, [idx])])%list.
Proof.
  induction d as [|[p l] d IH]; intros H; [reflexivity|].
  cbn [duplicated_add]. simpl in H.
  assert (value_eqb p path = false) as ->.
  { destruct (value_eqb p path) eqn:E; [|reflexivity].
    apply value_eqb_eq in E. tauto. }
  rewrite IH by tauto. reflexivity.
Qed.

Lemma duplicated_of_singletons :
  forall (data : list entry) (idx : nat) (d : list (value * list nat)),
    NoDup (map fst d ++ map entry_path data)%list ->
    Forall (fun g => List.length (snd g) <= 1) d ->
    Forall (fun g => List.length (snd g) <= 1) (duplicated_of idx data d).
Proof.
  induction data as [|e rest IH]; intros idx d ND F; [exact F|].
  cbn [duplicated_of]. cbn [map] in ND.
  rewrite duplicated_add_fresh.
  - apply IH.
    + rewrite map_app. cbn [map fst]. now rewrite <- app_assoc.
    + apply Forall_app. split; [exact F|]. repeat constructor.
  - apply NoDup_remove_2 in ND. intros H. apply ND.
    apply in_or_app. now left.
Qed.

Lemma repath_groups_singletons (separator : string) (cl cv : bool) :
  forall (groups : list (value * list nat)) (data : list entry),
    Forall (fun g => List.length (snd g) <= 1) groups ->
    repath_groups separator cl cv groups data = Ok data.
Proof.
  induction groups as [|[path idxs] rest IH]; intros data F; [reflexivity|].
  inversion F as [|? ? Hl Frest]; subst. cbn [snd] in Hl.
  cbn [repath_groups].
  assert ((1 <? List.length idxs)%nat = false) as ->
    by (apply Nat.ltb_ge; exact Hl).
  cbn [bind]. now apply IH.
Qed.

(** X19: when the paths that the first loop of [clean] assigns are
    pairwise distinct, neither the group-collision pass nor the
    numeric-suffix pass changes anything: [clean] returns the batch of the
    first loop, whatever the bound on the loop of the last pass. *)
Theorem clean_without_collision :
  forall (re_search : string -> string -> result bool) (fuel : nat)
         (separator : string) (cl cv : bool) (data data1 : list entry),
    clean_entries separator cl cv data = Ok data1 ->
    NoDup (map entry_path data1) ->
    _duplicate_paths separator cl cv data1 = Ok data1
    /\ clean re_search fuel separator cl cv data = Ok data1.
Proof.
  intros re_search fuel separator cl cv data data1 H1 ND.
  assert (H2 : _duplicate_paths separator cl cv data1 = Ok data1).
  { unfold _duplicate_paths. apply repath_groups_singletons.
    apply duplicated_of_singletons; [exact ND | constructor]. }
  split; [exact H2|].
  unfold clean. rewrite H1. cbn [bind]. rewrite H2. cbn [bind].
  unfold _duplicate_numerise. now apply numerise_for_distinct.
Qed.

Lemma clean_without_collision_witness :
  _duplicate_paths "-" false false
    [[("password", VStr "p"); ("path", VStr "a")];
     [("password", VStr "q"); ("path", VStr "b")]]
  = Ok [[("password", VStr "p"); ("path", VStr "a")];
        [("password", VStr "q"); ("path", VStr "b")]]
  /\ clean re_literal 0 "-" false false [titled "a" "p"; titled "b" "q"]
     = Ok [[("password", VStr "p"); ("path", VStr "a")];
           [("password", VStr "q"); ("path", VStr "b")]].
Proof.
  apply (clean_without_collision re_literal 0 "-" false false
           [titled "a" "p"; titled "b" "q"]).
  - reflexivity.
  - repeat constructor; simpl; intuition discriminate.
Defined.

(** ** Two entries on one path *)

Lemma remove_absent {V : Type} (k : string) (d : Dict.t V) :
  Dict.lookup k d = None -> Dict.remove k d = d.
Proof.
  induction d as [|[k0 v0] d IH]; [reflexivity|].
  cbn [Dict.lookup Dict.remove].
  destruct (String.eqb k0 k); [discriminate|].
  intros H. now rewrite IH.
Qed.

(** X20: two entries that the first loop left on the same path [p], and
    that hold a login, are both given by the group-collision pass the path
    [os.path.join(p, leaf)], the leaf being the entry's own cleaned login
    (or [notitle] when that is empty).  A leaf that does not start with a
    slash is put one level below the folder [p]; a leaf that starts with
    a slash is the whole path, outside the folder. *)
Theorem duplicate_paths_by_login :
  forall (separator : string) (cl cv : bool) (e1 e2 : entry)
         (p l1 l2 : string),
    entry_path e1 = VStr p -> entry_path e2 = VStr p ->
    Dict.lookup "title" e1 = None -> Dict.lookup "title" e2 = None ->
    Dict.lookup "login" e1 = Some (VStr l1) ->
    Dict.lookup "login" e2 = Some (VStr l2) ->
    exists q1 q2 : string,
      _duplicate_paths separator cl cv [e1; e2]
      = Ok [Dict.set "path" (VStr q1) e1; Dict.set "path" (VStr q2) e2]
      /\ q1 = leaf_path p (leaf_of separator cl cv l1)
      /\ q2 = leaf_path p (leaf_of separator cl cv l2)
      /\ placed p (leaf_of separator cl cv l1) q1
      /\ placed p (leaf_of separator cl cv l2) q2.
Proof.
  intros separator cl cv e1 e2 p l1 l2 P1 P2 T1 T2 L1 L2.
  exists (leaf_path p (leaf_of separator cl cv l1)),
    (leaf_path p (leaf_of separator cl cv l2)).
  split; [|repeat split; apply leaf_path_placed].
  unfold _duplicate_paths. cbn [duplicated_of duplicated_add].
  rewrite P1, P2. cbn [duplicated_add value_eqb].
  rewrite String.eqb_refl.
  cbn [repath_groups List.length app Nat.ltb Nat.leb].
  change ((1 <? List.length ([0] ++ [1]))%nat) with true. cbv iota.
  change ([0] ++ [1])%list with [0; 1].
  cbn [repath_indices nth_error].
  rewrite create_path_cases, T1, L1. cbn [as_str bind fst snd].
  cbn [list_set nth_error].
  rewrite create_path_cases, T2, L2. cbn [as_str bind fst snd].
  cbn [list_set]. now rewrite !remove_absent by assumption.
Qed.

Lemma duplicate_paths_by_login_witness :
  exists q1 q2 : string,
    _duplicate_paths "-" false false
      [[("login", VStr "/ann"); ("path", VStr "Bank")];
       [("login", VStr "bob"); ("path", VStr "Bank")]]
    = Ok [Dict.set "path" (VStr q1)
            [("login", VStr "/ann"); ("path", VStr "Bank")];
          Dict.set "path" (VStr q2)
            [("login", VStr "bob"); ("path", VStr "Bank")]]
    /\ q1 = leaf_path "Bank" (leaf_of "-" false false "/ann")
    /\ q2 = leaf_path "Bank" (leaf_of "-" false false "bob")
    /\ placed "Bank" (leaf_of "-" false false "/ann") q1
    /\ placed "Bank" (leaf_of "-" false false "bob") q2.
Proof.
  apply (duplicate_paths_by_login "-" false false
           [("login", VStr "/ann"); ("path", VStr "Bank")]
           [("login", VStr "bob"); ("path", VStr "Bank")] "Bank" "/ann" "bob");
    reflexivity.
Defined.

(** ** KeePass strings *)

Lemma keepass_scan_none (xmlkey : string) :
  forall (els : list PasswordManagerXML.element) (v : value),
    Forall (fun el => PasswordManagerXML.has_key xmlkey el = false) els ->
    PasswordManagerXML.keepass_scan xmlkey v els = Ok v.
Proof.
  induction els as [|el rest IH]; intros v F; [reflexivity|].
  inversion F as [|? ? Hel Frest]; subst.
  cbn [PasswordManagerXML.keepass_scan]. rewrite Hel. now apply IH.
Qed.

(** X21: [Keepass._getvalue] gives the value of the last string element
    that carries the key: a later element with the same key overrides an
    earlier one; without any such element it gives the empty string. *)
Theorem keepass_last_wins :
  forall (xmlkey : string) (pre post : list PasswordManagerXML.element)
         (el x : PasswordManagerXML.element),
    Forall (fun e => PasswordManagerXML.has_key xmlkey e = true ->
                     PasswordManagerXML.find "Value" e <> None) pre ->
    PasswordManagerXML.has_key xmlkey el = true ->
    PasswordManagerXML.find "Value" el = Some x ->
    Forall (fun e => PasswordManagerXML.has_key xmlkey e = false) post ->
    PasswordManagerXML.keepass_getvalue (pre ++ el :: post) xmlkey
    = Ok (PasswordManagerXML.text_value x)
    /\ PasswordManagerXML.keepass_getvalue post xmlkey = Ok (VStr "").
Proof.
  intros xmlkey pre post el x Fpre Hel Hx Fpost.
  split; [|now apply keepass_scan_none].
  unfold PasswordManagerXML.keepass_getvalue. generalize (VStr "").
  induction Fpre as [|e pre He Fpre IH]; intros v.
  - change (([] ++ el :: post)%list) with (el :: post).
    cbn [PasswordManagerXML.keepass_scan]. rewrite Hel, Hx.
    now apply keepass_scan_none.
  - change (((e :: pre) ++ el :: post)%list)
      with (e :: (pre ++ el :: post))%list.
    cbn [PasswordManagerXML.keepass_scan].
    destruct (PasswordManagerXML.has_key xmlkey e) eqn:K; [|apply IH].
    destruct (PasswordManagerXML.find "Value" e) as [y|]; [apply IH|].
    now specialize (He eq_refl).
Qed.

Lemma keepass_last_wins_witness :
  PasswordManagerXML.keepass_getvalue
    ([PasswordManagerXML.Element "String" None []
        [PasswordManagerXML.Element "Key" (Some "Title") [] [];
         PasswordManagerXML.Element "Value" (Some "old") [] []]]
     ++ PasswordManagerXML.Element "String" None []
          [PasswordManagerXML.Element "Key" (Some "Title") [] [];
           PasswordManagerXML.Element "Value" (Some "new") [] []] :: [])
    "Title"
  = Ok (VStr "new").
Proof.
  apply (keepass_last_wins "Title"
           [PasswordManagerXML.Element "String" None []
              [PasswordManagerXML.Element "Key" (Some "Title") [] [];
               PasswordManagerXML.Element "Value" (Some "old") [] []]]
           []
           (PasswordManagerXML.Element "String" None []
              [PasswordManagerXML.Element "Key" (Some "Title") [] [];
               PasswordManagerXML.Element "Value" (Some "new") [] []])
           (PasswordManagerXML.Element "Value" (Some "new") [] [])).
  - repeat constructor. discriminate.
  - reflexivity.
  - reflexivity.
  - constructor.
Defined.

(** ** 1PIF folders: the order of the export matters *)

Section SortFolders.

Import Folders.

Lemma sort_step_other (F : Dict.t folder) (u k : string) :
  k <> u -> Dict.lookup k (sort_step F u) = Dict.lookup k F.
Proof.
  intros N. unfold sort_step.
  destruct (Dict.lookup u F); [|reflexivity].
  now apply lookup_set_other.
Qed.

Lemma sort_step_same (F : Dict.t folder) (u : string) (f : folder) :
  Dict.lookup u F = Some f ->
  Dict.lookup u (sort_step F u)
  = Some {| group := PyStr.path_join (group_of F (parent f)) (group f);
            parent := parent f |}.
Proof.
  intros L. unfold sort_step. rewrite L. apply lookup_set_same.
Qed.

Lemma sort_fold_other (k : string) :
  forall (ks : list string) (F : Dict.t folder),
    ~ In k ks ->
    Dict.lookup k (fold_left sort_step ks F) = Dict.lookup k F.
Proof.
  induction ks as [|u ks IH]; intros F H; [reflexivity|].
  cbn [fold_left]. rewrite IH by (intros X; apply H; now right).
  apply sort_step_other. intros ->. apply H. now left.
Qed.

Lemma NoDup_app_disjoint (a b : list string) (x : string) :
  NoDup (a ++ b)%list -> In x a -> ~ In x b.
Proof.
  induction a as [|y a IH]; intros ND Ha Hb; [contradiction|].
  change ((y :: a) ++ b)%list with (y :: (a ++ b))%list in ND.
  inversion ND as [|? ? Hy ND']; subst.
  destruct Ha as [->|Ha]; [|now apply (IH ND' Ha)].
  apply Hy. apply in_or_app. now right.
Qed.

Lemma sort_folders_group (folders : Dict.t folder) (pre post : list string)
    (uuid : string) (f : folder) :
  Dict.keys folders = (pre ++ uuid :: post)%list ->
  NoDup (Dict.keys folders) ->
  Dict.lookup uuid folders = Some f ->
  group_of (sort_folders folders) uuid
  = PyStr.path_join
      (group_of (if existsb (String.eqb (parent f)) pre
                 then sort_folders folders else folders) (parent f))
      (group f).
Proof.
  intros K ND L. unfold sort_folders. rewrite K in *.
  pose proof (NoDup_remove_2 _ _ _ ND) as Hu.
  assert (Hpre : ~ In uuid pre)
    by (intros X; apply Hu; apply in_or_app; now left).
  assert (Hpost : ~ In uuid post)
    by (intros X; apply Hu; apply in_or_app; now right).
  rewrite fold_left_app. cbn [fold_left].
  set (F1 := fold_left sort_step pre folders).
  assert (L1 : Dict.lookup uuid F1 = Some f)
    by (unfold F1; now rewrite sort_fold_other).
  unfold group_of at 1.
  rewrite sort_fold_other by exact Hpost.
  rewrite (sort_step_same F1 uuid f L1). cbn [group]. f_equal.
  unfold group_of.
  destruct (existsb (String.eqb (parent f)) pre) eqn:E.
  - apply existsb_In_string in E.
    assert (N : parent f <> uuid) by (intros X; rewrite X in E; tauto).
    assert (Hp : ~ In (parent f) post).
    { intros X. apply (NoDup_app_disjoint _ _ _ ND E). now right. }
    rewrite sort_fold_other by exact Hp.
    now rewrite sort_step_other by exact N.
  - assert (Hp : ~ In (parent f) pre).
    { intros X. assert (existsb (String.eqb (parent f)) pre = true).
      { apply existsb_exists. exists (parent f). split; [exact X|].
        apply String.eqb_refl. }
      congruence. }
    unfold F1. now rewrite sort_fold_other by exact Hp.
Qed.

End SortFolders.

(** X22: the first loop of [_sortgroup] gives a folder the group of its
    parent joined with its own title, where the parent's group is its
    final, full one when the parent comes before the folder in the
    export, and only the parent's own title when it comes after (an
    unknown parent counts as the empty group). *)
Theorem sortgroup_depends_on_order :
  forall (folders : Dict.t Folders.folder) (pre post : list string)
         (uuid : string) (f : Folders.folder),
    Dict.keys folders = (pre ++ uuid :: post)%list ->
    NoDup (Dict.keys folders) ->
    Dict.lookup uuid folders = Some f ->
    Folders.group_of (Folders.sort_folders folders) uuid
    = PyStr.path_join
        (Folders.group_of
           (if existsb (String.eqb (Folders.parent f)) pre
            then Folders.sort_folders folders else folders)
           (Folders.parent f))
        (Folders.group f).
Proof.
  intros folders pre post uuid f K ND L.
  now apply (sort_folders_group folders pre post uuid f).
Qed.

Lemma sortgroup_depends_on_order_witness :
  Folders.group_of
    (Folders.sort_folders
       [("c", {| Folders.group := "Cards"; Folders.parent := "b" |});
        ("b", {| Folders.group := "Bank"; Folders.parent := "r" |});
        ("r", {| Folders.group := "Root"; Folders.parent := "" |})]) "c"
  = PyStr.path_join "Bank" "Cards".
Proof.
  apply (sortgroup_depends_on_order
           [("c", {| Folders.group := "Cards"; Folders.parent := "b" |});
            ("b", {| Folders.group := "Bank"; Folders.parent := "r" |});
            ("r", {| Folders.group := "Root"; Folders.parent := "" |})]
           [] ["b"; "r"] "c"
           {| Folders.group := "Cards"; Folders.parent := "b" |}).
  - reflexivity.
  - repeat constructor; simpl; intuition discriminate.
  - reflexivity.
Defined.

(** ** The path of one entry *)

Lemma lookup_remove_other_filter (e : entry) (k : string) (v : value) :
  NoDup (Dict.keys e) -> truthy v = true ->
  Dict.lookup k e = Some v ->
  Dict.lookup k (filter (fun kv => truthy (snd kv)) e) = Some v.
Proof.
  intros ND T L. rewrite lookup_filter_truthy by exact ND.
  now rewrite L, T.
Qed.

(** X23: for an entry with a non-empty title, the first loop of [clean]
    assigns the path made of the cleaned group (the empty folder when the
    entry has no group, or an empty one) and of the leaf derived from the
    title; the entry then holds neither [title] nor [group]. *)
Theorem clean_entry_path :
  forall (separator : string) (cl cv : bool) (e : entry) (t : string),
    NoDup (Dict.keys e) ->
    Dict.lookup "title" e = Some (VStr t) ->
    t <> "" ->
    exists e',
      clean_entry separator cl cv e = Ok e'
      /\ Dict.lookup "path" e'
         = Some (VStr (leaf_path
                         (_clean_group separator
                            (_clean_protocol (group_str e)))
                         (leaf_of separator cl cv t)))
      /\ Dict.lookup "title" e' = None
      /\ Dict.lookup "group" e' = None.
Proof.
  intros separator cl cv e t ND Lt Ht.
  destruct (clean_entry_ok separator cl cv e ND) as [e' H].
  exists e'. split; [exact H|].
  pose proof (clean_entry_tidy _ _ _ _ _ ND H) as (T1 & T2 & _).
  split; [|now split].
  unfold clean_entry in H. cbn [Dict.pop fst snd] in H.
  rewrite remove_empty_filter in H by exact ND.
  set (e1 := filter (fun kv => truthy (snd kv)) e) in *.
  assert (G : Dict.get "group" (VStr "") e1 = VStr (group_str e)).
  { unfold Dict.get, group_str, e1.
    rewrite lookup_filter_truthy by exact ND.
    destruct (Dict.lookup "group" e) as [[|g]|]; try reflexivity.
    cbn [truthy]. destruct (String.eqb g "") eqn:E; cbn [negb];
      [|reflexivity].
    apply String.eqb_eq in E. now subst. }
  rewrite G in H. cbn [as_str bind] in H.
  rewrite create_path_cases in H.
  assert (L1 : Dict.lookup "title" (Dict.remove "group" e1)
               = Some (VStr t)).
  { rewrite lookup_remove_other by discriminate.
    apply lookup_remove_other_filter; [exact ND | | exact Lt].
    now apply truthy_nonempty. }
  rewrite L1 in H. cbn [as_str bind fst snd] in H.
  inversion H; subst. apply lookup_set_same.
Qed.

Lemma clean_entry_path_witness :
  exists e',
    clean_entry "-" false false
      [("title", VStr "Bank"); ("group", VStr "Money:EU")] = Ok e'
    /\ Dict.lookup "path" e'
       = Some (VStr (leaf_path
                       (_clean_group "-"
                          (_clean_protocol
                             (group_str [("title", VStr "Bank");
                                         ("group", VStr "Money:EU")])))
                       (leaf_of "-" false false "Bank")))
    /\ Dict.lookup "title" e' = None
    /\ Dict.lookup "group" e' = None.
Proof.
  apply (clean_entry_path "-" false false
           [("title", VStr "Bank"); ("group", VStr "Money:EU")] "Bank").
  - repeat constructor; simpl; intuition discriminate.
  - reflexivity.
  - discriminate.
Defined.

(** ** 1PIF: the keys of an entry *)

Lemma mem_keys {V : Type} (k : string) (d : Dict.t V) :
  Dict.mem k d = existsb (String.eqb k) (Dict.keys d).
Proof.
  unfold Dict.mem, Dict.keys.
  induction d as [|[k0 v0] d IH]; [reflexivity|].
  cbn [Dict.lookup map fst existsb]. rewrite String.eqb_sym.
  destruct (String.eqb k k0); [reflexivity | exact IH].
Qed.

Lemma getvalues_keys (keys : Dict.t string) :
  forall (ks : list string) (en : Dict.t PasswordManagerPIF.json)
         (src : PasswordManagerPIF.sources)
         (en' : Dict.t PasswordManagerPIF.json)
         (src' : PasswordManagerPIF.sources) (shape : Dict.t unit),
    Dict.keys en = Dict.keys shape ->
    PasswordManagerPIF.getvalues keys ks en src = Ok (en', src') ->
    Dict.keys en' = Dict.keys (fold_left (fun d k => Dict.set k tt d) ks shape).
Proof.
  induction ks as [|key ks IH]; intros en src en' src' shape K H;
    cbn [PasswordManagerPIF.getvalues] in H.
  - inversion H; subst. exact K.
  - bind_inv H. cbn [fold_left]. eapply IH; [|exact H].
    rewrite !keys_set, !mem_keys, K. reflexivity.
Qed.

(** X24: when the loop of [PasswordManagerPIF.parse] over the canonical
    keys completes for an entry record, the entry holds exactly the seven
    canonical keys, in the order of [keyslist], whatever the record and
    the manager's table hold. *)
Theorem pif_entry_keys :
  forall (keys : Dict.t string) (src src' : PasswordManagerPIF.sources)
         (en : Dict.t PasswordManagerPIF.json),
    PasswordManagerPIF.getvalues keys keyslist [] src = Ok (en, src') ->
    Dict.keys en = keyslist.
Proof.
  intros keys src src' en H.
  now apply (getvalues_keys keys keyslist [] src en src' [] eq_refl).
Qed.

Lemma pif_entry_keys_witness :
  Dict.keys
    [("title", JStr "inner"); ("password", JStr "pw"); ("login", JStr "me");
     ("url", JNull); ("comments", JNull); ("group", JNull);
     ("binary", JNull)]
  = keyslist.
Proof.
  apply (pif_entry_keys OnePassword4PIF_keys two_titles
           {| item := [("uuid", JStr "u")]; scontent := []; fields := [] |}).
  reflexivity.
Defined.

(** ** The suffix replacement reaches into the folders *)

Lemma replace_middle (c : ascii) (o new p s : string) :
  PyStr.mem_char c p = false ->
  PyStr.replace (String c o) new (p ++ String c (o ++ s))
  = p ++ new ++ PyStr.replace (String c o) new s.
Proof.
  intros H. induction p as [|x p IH].
  - cbn [append]. change (String c (o ++ s)) with (String c o ++ s).
    now rewrite replace_leading by discriminate.
  - cbn [PyStr.mem_char] in H. apply orb_false_iff in H as [Hx Hp].
    specialize (IH Hp). unfold PyStr.replace in *.
    cbn [append PyStr.replace_from String.prefix].
    destruct (ascii_dec c x) as [->|];
      [now rewrite Ascii.eqb_refl in Hx|].
    now rewrite IH.
Qed.

Lemma append_inj_l (p a b : string) : p ++ a = p ++ b -> a = b.
Proof.
  induction p as [|x p IH]; [trivial|].
  cbn [append]. intros H. inversion H. now apply IH.
Qed.

Lemma numerise_while_free (re_search : string -> string -> result bool)
    (fuel : nat) (separator : string) (seen : list value) (path : value)
    (ii : nat) :
  mem_value path seen = false ->
  numerise_while re_search fuel separator seen path ii = Ok path.
Proof.
  intros M. destruct fuel; cbn [numerise_while]; now rewrite M.
Qed.

(** X25: the replacement of the numeric-suffix pass is not limited to the
    end of the path: for a second entry on the path [p-1/q-1] (no other
    dash in [p] and [q], separator ['-']), the pass assigns [p-2/q-2],
    which lies in another folder. *)
Theorem numerise_renames_folder :
  forall (p q : string) (fuel : nat),
    PyStr.mem_char "-" p = false ->
    PyStr.mem_char "-" q = false ->
    numerise_while re_literal (S fuel) "-"
      [VStr (p ++ "-1" ++ "/" ++ q ++ "-1")]
      (VStr (p ++ "-1" ++ "/" ++ q ++ "-1")) 1
    = Ok (VStr (p ++ "-2" ++ "/" ++ q ++ "-2")).
Proof.
  intros p q fuel Hp Hq.
  cbn [numerise_while mem_value existsb value_eqb].
  rewrite String.eqb_refl. cbn [orb as_str bind].
  unfold re_literal at 1. cbn [bind].
  assert (R : re_search_literal "-" (p ++ "-1" ++ "/" ++ q ++ "-1") = true).
  { replace (p ++ "-1" ++ "/" ++ q ++ "-1")
      with ((p ++ "-1" ++ "/" ++ q) ++ "-" ++ "1")
      by (now rewrite !append_assoc).
    apply re_search_literal_app. now apply re_search_literal_here. }
  rewrite R. cbn [negb].
  change (PyStr.str 1) with "1". change (PyStr.str (1 + 1)) with "2".
  change ("-" ++ "1") with (String "-" "1").
  change ("-" ++ "2") with "-2".
  change (p ++ "-1" ++ "/" ++ q ++ "-1")
    with (p ++ String "-" ("1" ++ (String "/" q ++ String "-" "1"))).
  rewrite replace_middle by exact Hp.
  change (String "/" q ++ String "-" "1")
    with (String "/" (q ++ String "-" "1")).
  assert (E : PyStr.replace (String "-" "1") "-2"
                (String "/" (q ++ String "-" "1"))
              = String "/" (q ++ "-2")).
  { change (String "/" (q ++ String "-" "1"))
      with (String "/" q ++ String "-" "1").
    rewrite replace_suffix; [reflexivity|].
    cbn [PyStr.mem_char]. now rewrite Hq. }
  rewrite E.
  apply numerise_while_free.
  cbn [mem_value existsb value_eqb]. rewrite orb_false_r.
  apply String.eqb_neq. intros X. apply append_inj_l in X.
  discriminate.
Qed.

Lemma numerise_renames_folder_witness :
  numerise_while re_literal 1 "-"
    [VStr ("a" ++ "-1" ++ "/" ++ "b" ++ "-1")]
    (VStr ("a" ++ "-1" ++ "/" ++ "b" ++ "-1")) 1
  = Ok (VStr ("a" ++ "-2" ++ "/" ++ "b" ++ "-2")).
Proof. apply (numerise_renames_folder "a" "b" 0); reflexivity. Defined.
